(** * Label assignment and target generation: a shallow embedding

    The development follows five source files of the detection framework:

    - [mmdet/models/roi_heads/dynamic_roi_head.py]  (module [DynamicRoIHead])
    - [mmdet/core/anchor/anchor_generator.py]       (module [AnchorGenerator])
    - [mmdet/core/anchor/utils.py]                  (module [AnchorUtils])
    - [mmdet/core/bbox/assigners/uniform_assigner.py] (module [UniformAssigner])
    - [mmdet/models/dense_heads/solo_head.py]       (module [SOLOHead])

    Tensors of floats are lists of rationals ([Q]), so comparisons and
    divisions are exact and there is neither NaN nor infinity; integer
    tensors are lists of [Z] or [nat]; a Python exception is the [Raise] case
    of [result]. Where the rounding of float32 decides an integer result
    (the grid cell of a coordinate in [SOLOHead]), the float operations are
    parameters instead, as are the library functions whose code is not
    among the sources. The definitions come first, module by module; the
    properties follow from the heading Properties on. *)

From Stdlib Require Import List ZArith QArith Qround Qabs Qminmax Lia Bool Arith.
From Stdlib Require Import Permutation Sorted.
Import ListNotations.

Open Scope Q_scope.

(** ** Python exceptions and the error monad *)

Inductive exn : Type :=
| AssertionError
| ValueError
| IndexError
| ZeroDivisionError
| OverflowError
| RuntimeError.

Inductive result (A : Type) : Type :=
| Ok (a : A)
| Raise (e : exn).

Arguments Ok {A} a.
Arguments Raise {A} e.

Definition bind {A B : Type} (m : result A) (k : A -> result B) : result B :=
  match m with
  | Ok a => k a
  | Raise e => Raise e
  end.

Notation "x <- m ;; k" := (bind m (fun x => k))
  (at level 61, m at next level, right associativity).

Definition raises {A : Type} (m : result A) : Prop := exists e, m = Raise e.

Fixpoint mapM {A B : Type} (f : A -> result B) (l : list A) : result (list B) :=
  match l with
  | [] => Ok []
  | a :: l' => b <- f a ;; bs <- mapM f l' ;; Ok (b :: bs)
  end.

(** ** Scalars *)

Definition Qltb (a b : Q) : bool := negb (Qle_bool b a).

(** Python's [max(a, b)] keeps the first argument unless the second is
    strictly larger; [min(a, b)] keeps it unless the second is strictly
    smaller. *)
Definition py_max (a b : Q) : Q := if Qltb a b then b else a.
Definition py_min (a b : Q) : Q := if Qltb b a then b else a.

(** Python's [sum(l)]: left-to-right accumulation from 0. *)
Definition py_sum (l : list Q) : Q := fold_left Qplus l 0.

(** Python's [sorted(l)] on floats: a stable ascending sort. *)
Fixpoint insert_sorted (x : Q) (l : list Q) : list Q :=
  match l with
  | [] => [x]
  | y :: l' => if Qle_bool x y then x :: y :: l' else y :: insert_sorted x l'
  end.

Definition sorted (l : list Q) : list Q := fold_right insert_sorted [] l.

(** Python's [l[i]] for a list and an integer index: negative indices count
    from the end, anything out of range raises IndexError. *)
Definition py_index {A : Type} (l : list A) (i : Z) : result A :=
  let n := Z.of_nat (length l) in
  let j := (if i <? 0 then i + n else i)%Z in
  if (j <? 0)%Z then Raise IndexError
  else match nth_error l (Z.to_nat j) with
       | Some a => Ok a
       | None => Raise IndexError
       end.

(** ** Boxes *)

Record Box : Type := mkBox { bx1 : Q; by1 : Q; bx2 : Q; by2 : Q }.

(** * DynamicRoIHead: the dynamic statistics updater *)

Module DynamicRoIHead.

(** The class of [self.bbox_head.loss_bbox]; [update_statistics] asserts it
    is a SmoothL1Loss. *)
Inductive loss_class : Type := SmoothL1Loss | OtherLoss.

(** The fields of the head that [update_statistics] reads or writes:
    its own, the three thresholds of [self.bbox_assigner], and the class and
    [beta] of [self.bbox_head.loss_bbox]. *)
Record state : Type := mkState {
  k_i : Z;
  k_e : Z;
  iteration_count : Z;
  initial_iou : Q;
  initial_beta : Q;
  cur_iou : list Q;
  cur_beta : list Q;
  pos_iou_thr : Q;
  neg_iou_thr : Q;
  min_pos_iou : Q;
  loss_bbox : loss_class;
  loss_bbox_beta : Q
}.

Definition set_cur_iou (st : state) (l : list Q) : state :=
  mkState (k_i st) (k_e st) (iteration_count st) (initial_iou st)
          (initial_beta st) l (cur_beta st) (pos_iou_thr st)
          (neg_iou_thr st) (min_pos_iou st) (loss_bbox st)
          (loss_bbox_beta st).

Definition set_cur_beta (st : state) (l : list Q) : state :=
  mkState (k_i st) (k_e st) (iteration_count st) (initial_iou st)
          (initial_beta st) (cur_iou st) l (pos_iou_thr st)
          (neg_iou_thr st) (min_pos_iou st) (loss_bbox st)
          (loss_bbox_beta st).

Definition set_assigner_thr (st : state) (v : Q) : state :=
  mkState (k_i st) (k_e st) (iteration_count st) (initial_iou st)
          (initial_beta st) (cur_iou st) (cur_beta st) v v v
          (loss_bbox st) (loss_bbox_beta st).

Definition set_loss_beta (st : state) (v : Q) : state :=
  mkState (k_i st) (k_e st) (iteration_count st) (initial_iou st)
          (initial_beta st) (cur_iou st) (cur_beta st) (pos_iou_thr st)
          (neg_iou_thr st) (min_pos_iou st) (loss_bbox st) v.

(** [sum(self.cur_iou) / self.iteration_count]. *)
Definition window_mean (st : state) : Q :=
  py_sum (cur_iou st) / inject_Z (iteration_count st).

Definition new_iou_thr (st : state) : Q :=
  py_max (initial_iou st) (window_mean st).

(** [update_statistics]: the state the call leaves behind (assignments made
    before an exception stay made) and what the call returns or raises. *)
Definition update_statistics (st : state) : state * result (Q * Q) :=
  if (iteration_count st =? 0)%Z then (st, Raise ZeroDivisionError)
  else
    let thr := new_iou_thr st in
    let st1 := set_assigner_thr (set_cur_iou st []) thr in
    match py_index (sorted (cur_beta st)) (iteration_count st / 2)%Z with
    | Raise e => (st1, Raise e)
    | Ok kth =>
        let new_beta := py_min (initial_beta st) kth in
        let st2 := set_cur_beta st1 [] in
        match loss_bbox st with
        | SmoothL1Loss => (set_loss_beta st2 new_beta, Ok (thr, new_beta))
        | OtherLoss => (st2, Raise AssertionError)
        end
    end.

(** The statistics window holds [iteration_count] samples in both buffers,
    as it does when [forward_train] calls the update. *)
Definition window_full (st : state) : Prop :=
  (0 < iteration_count st)%Z /\
  Z.of_nat (length (cur_iou st)) = iteration_count st /\
  Z.of_nat (length (cur_beta st)) = iteration_count st.

(** The arithmetic mean of a buffer. *)
Definition mean (l : list Q) : Q :=
  py_sum l / inject_Z (Z.of_nat (length l)).

(** A window of two samples with small regression targets. *)
Definition small_targets : state :=
  mkState 75 10 2 (4 # 10) 1 [6 # 10; 8 # 10] [1 # 2; 1 # 4]
          (5 # 10) (5 # 10) (5 # 10) SmoothL1Loss 1.

(** *** The training step *)

(** [DynamicRoIHead.__init__(k_i, k_e, iteration_count, **kwargs)]: the
    parent's constructor builds the assigner and the bbox head from [kwargs]
    (their thresholds, loss class and beta are given here), then the
    statistics start from 0.4, 1.0 and two empty buffers. *)
Definition init (k_i k_e iteration_count : Z) (pos neg min_pos : Q)
    (loss : loss_class) (beta : Q) : state :=
  mkState k_i k_e iteration_count (4 # 10) 1 [] [] pos neg min_pos loss beta.

(** What one call of [forward_train] gets from the code it calls:
    [assign_result.max_overlaps] of every image, and the regression targets
    and weights that [bbox_head.get_targets] returns ([bbox_targets[2]] and
    [bbox_targets[3]], a row of four per sampled RoI). *)
Record batch : Type := mkBatch {
  max_overlaps : list (list Q);
  bbox_targets : list (Q * Q * Q * Q);
  bbox_weights : list (Q * Q * Q * Q)
}.

(** The values of [torch.topk(t, k)]: the largest first. *)
Definition descending (l : list Q) : list Q := rev (sorted l).

(** [torch.topk(t, k)[0][-1].item()]: [topk] refuses a [k] that is negative
    or beyond the tensor, and [[-1]] refuses an empty selection. *)
Definition topk_last (t : list Q) (k : Z) : result Q :=
  if ((k <? 0) || (Z.of_nat (length t) <? k))%Z then Raise RuntimeError
  else py_index (firstn (Z.to_nat k) (descending t)) (-1).

(** [torch.kthvalue(t, k)[0].item()]: the [k]-th smallest, counted from 1.
    The size of the tensor is checked before [k]: an empty tensor is refused
    with IndexError whatever [k] is, and on a tensor with entries a [k] out
    of range is refused with RuntimeError. *)
Definition kthvalue (t : list Q) (k : Z) : result Q :=
  match t with
  | [] => Raise IndexError
  | _ :: _ =>
      if ((k <? 1) || (Z.of_nat (length t) <? k))%Z then Raise RuntimeError
      else py_index (sorted t) (k - 1)
  end.

(** The loop over the images and [sum(cur_iou) / num_imgs]. *)
Definition iou_sample (st : state) (b : batch) : result Q :=
  samples <- mapM (fun ov => topk_last ov (Z.min (k_i st)
                                                 (Z.of_nat (length ov))))
                  (max_overlaps b) ;;
  let num_imgs := Z.of_nat (length (max_overlaps b)) in
  if (num_imgs =? 0)%Z then Raise ZeroDivisionError
  else Ok (py_sum samples / inject_Z num_imgs).

(** [bbox_targets[3][:, 0].nonzero().squeeze(1)]. *)
Definition pos_inds (weights : list (Q * Q * Q * Q)) : list nat :=
  map fst
    (filter (fun p : nat * (Q * Q * Q * Q) =>
               let '(w0, _, _, _) := snd p in negb (Qeq_bool w0 0))
            (combine (seq 0 (length weights)) weights)).

(** [bbox_targets[2][pos_inds, :2].abs().mean(dim=1)]. *)
Definition cur_target (targets : list (Q * Q * Q * Q)) (pos : list nat)
  : result (list Q) :=
  mapM (fun i => match nth_error targets i with
                 | Some (t0, t1, _, _) => Ok ((Qabs t0 + Qabs t1) / 2)
                 | None => Raise IndexError
                 end) pos.

(** The statistic of [_bbox_forward_train]: the value appended to
    [self.cur_beta]. *)
Definition beta_sample (st : state) (b : batch) : result Q :=
  let num_imgs := Z.of_nat (length (max_overlaps b)) in
  let pos := pos_inds (bbox_weights b) in
  let num_pos := Z.of_nat (length pos) in
  targets <- cur_target (bbox_targets b) pos ;;
  kthvalue targets (Z.min (k_e st * num_imgs) num_pos).

(** How a call of [forward_train] can end early: with one of the exceptions
    of [exn], or with the UnboundLocalError of reading [bbox_results] when
    there is no bbox head. *)
Inductive train_exn : Type :=
| PyExn (e : exn)
| UnboundLocalError.

(** [forward_train]: the state the call leaves and the exception it ends
    with, if any. [with_bbox] and [with_mask] say whether the head has a bbox
    head and a mask head; the assigner, the sampler and the two heads are
    taken to return, and the losses they give are left out. *)
Definition forward_train (with_bbox with_mask : bool) (st : state) (b : batch)
  : state * option train_exn :=
  match (if with_bbox || with_mask
         then c <- iou_sample st b ;; Ok (set_cur_iou st (cur_iou st ++ [c]))
         else Ok st) with
  | Raise e => (st, Some (PyExn e))
  | Ok st1 =>
      match (if with_bbox
             then t <- beta_sample st1 b ;;
                  Ok (set_cur_beta st1 (cur_beta st1 ++ [t]))
             else Ok st1) with
      | Raise e => (st1, Some (PyExn e))
      | Ok st2 =>
          if with_mask && negb with_bbox then (st2, Some UnboundLocalError)
          else if (iteration_count st2 =? 0)%Z
          then (st2, Some (PyExn ZeroDivisionError))
          else if (Z.of_nat (length (cur_iou st2)) mod iteration_count st2
                   =? 0)%Z
          then match update_statistics st2 with
               | (st3, Ok _) => (st3, None)
               | (st3, Raise e) => (st3, Some (PyExn e))
               end
          else (st2, None)
      end
  end.

(** Successive training steps; the first exception ends the run. *)
Fixpoint train (with_bbox with_mask : bool) (st : state) (bs : list batch)
  : state * option train_exn :=
  match bs with
  | [] => (st, None)
  | b :: rest =>
      match forward_train with_bbox with_mask st b with
      | (st', None) => train with_bbox with_mask st' rest
      | (st', Some e) => (st', Some e)
      end
  end.

(** A batch the statistics can be taken from: at least one image, an overlap
    for every image, a positive RoI, a regression target for every weight,
    and positive [k_i] and [k_e]. *)
Definition usable (st : state) (b : batch) : Prop :=
  max_overlaps b <> [] /\
  Forall (fun ov => ov <> []) (max_overlaps b) /\
  pos_inds (bbox_weights b) <> [] /\
  length (bbox_targets b) = length (bbox_weights b) /\
  (1 <= k_i st)%Z /\ (1 <= k_e st)%Z.

(** The three thresholds of the assigner and the beta of the loss. *)
Definition thresholds (st : state) : Q * Q * Q * Q :=
  (pos_iou_thr st, neg_iou_thr st, min_pos_iou st, loss_bbox_beta st).

(** The [k]-th largest overlap of an image, or the smallest when the image
    has fewer than [k] candidates. *)
Definition kth_largest (k : Z) (ov : list Q) : Q :=
  nth (Z.to_nat (Z.min k (Z.of_nat (length ov))) - 1) (descending ov) 0.

(** The IoU statistic of a batch: the mean over its images of the
    [k_i]-th largest overlap. *)
Definition iou_of (st : state) (b : batch) : Q :=
  mean (map (kth_largest (k_i st)) (max_overlaps b)).

(** The mean absolute regression target of the first two coordinates, for
    every positive RoI of a batch. *)
Definition positive_targets (b : batch) : list Q :=
  map (fun i => let '(t0, t1, _, _) := nth i (bbox_targets b) (0, 0, 0, 0) in
                (Qabs t0 + Qabs t1) / 2)
      (pos_inds (bbox_weights b)).

(** The beta statistic of a batch: the [k_e * num_imgs]-th smallest of the
    positive targets, or the largest when there are fewer. *)
Definition beta_of (st : state) (b : batch) : Q :=
  nth (Z.to_nat (Z.min (k_e st * Z.of_nat (length (max_overlaps b)))
                       (Z.of_nat (length (pos_inds (bbox_weights b))))) - 1)
      (sorted (positive_targets b)) 0.

(** The fields a training step never writes. *)
Definition settings (st : state) : Z * Z * Z * Q * Q * loss_class :=
  (k_i st, k_e st, iteration_count st, initial_iou st, initial_beta st,
   loss_bbox st).

(** A head as the constructor leaves it, with a window of three steps, and
    two batches of one image. *)
Definition fresh : state :=
  init 2 1 3 (5 # 10) (5 # 10) (5 # 10) SmoothL1Loss 1.

Definition batch_a : batch :=
  mkBatch [[3 # 10; 9 # 10; 6 # 10]]
          [(1 # 2, 1 # 4, 0, 0); (1, 1, 0, 0); (1 # 8, 1 # 8, 0, 0)]
          [(1, 1, 1, 1); (0, 0, 0, 0); (1, 1, 1, 1)].

Definition batch_b : batch :=
  mkBatch [[8 # 10; 7 # 10]]
          [(1 # 4, 1 # 4, 0, 0); (1 # 2, 1 # 2, 0, 0)]
          [(1, 1, 1, 1); (1, 1, 1, 1)].

(** A head whose bbox loss is not a SmoothL1Loss, with a window of one
    step. *)
Definition other_loss_head : state :=
  init 2 1 1 (5 # 10) (5 # 10) (5 # 10) OtherLoss 1.

(** A batch whose RoIs are all negative. *)
Definition batch_without_positive : batch :=
  mkBatch [[3 # 10; 2 # 10]] [(0, 0, 0, 0); (0, 0, 0, 0)]
          [(0, 0, 0, 0); (0, 0, 0, 0)].

End DynamicRoIHead.


(** * AnchorGenerator: base anchors and their tiling over a feature map *)

Module AnchorGenerator.

(** The keyword arguments of [AnchorGenerator.__init__]; [None] is Python's
    [None]. *)
Record init_args : Type := mkArgs {
  arg_strides : list Z;
  arg_ratios : list Q;
  arg_scales : option (list Q);
  arg_base_sizes : option (list Q);
  arg_scale_major : bool;
  arg_octave_base_scale : option Q;
  arg_scales_per_octave : option Z;
  arg_centers : option (list (Q * Q));
  arg_center_offset : Q
}.

(** The attributes of a constructed generator. *)
Record t : Type := mkGen {
  strides : list Z;
  base_sizes : list Q;
  scales : list Q;
  octave_base_scale : option Q;
  scales_per_octave : option Z;
  ratios : list Q;
  scale_major : bool;
  centers : option (list (Q * Q));
  center_offset : Q;
  base_anchors : list (list Box)
}.

(** [(a[:, None] * b[None, :]).view(-1)] under an elementwise [f]: the first
    index is the slow one. *)
Definition outer {A B C : Type} (f : A -> B -> C) (xs : list A) (ys : list B)
  : list C :=
  flat_map (fun x => map (f x) ys) xs.

Definition shift_box (b : Box) (sx sy : Q) : Box :=
  mkBox (bx1 b + sx) (by1 b + sy) (bx2 b + sx) (by2 b + sy).

(** [x.repeat(n)] of a 1-D tensor: [n] copies of [x] one after the other. *)
Definition tensor_repeat {A : Type} (x : list A) (n : nat) : list A :=
  concat (repeat x n).

(** [_meshgrid(x, y, row_major)]. *)
Definition _meshgrid {A : Type} (x y : list A) (row_major : bool)
  : list A * list A :=
  let xx := tensor_repeat x (length y) in
  let yy := flat_map (fun v => repeat v (length x)) y in
  if row_major then (xx, yy) else (yy, xx).

(** [torch.arange(0, n) * stride] as floats. *)
Definition arange_times (n : nat) (stride : Z) : list Q :=
  map (fun i => inject_Z (Z.of_nat i * stride)) (seq 0 n).

(** [single_level_grid_anchors(base_anchors, (feat_h, feat_w), stride)]. *)
Definition single_level_grid_anchors (base : list Box)
    (featmap_size : nat * nat) (stride : Z) : list Box :=
  let '(feat_h, feat_w) := featmap_size in
  let shift_x := arange_times feat_w stride in
  let shift_y := arange_times feat_h stride in
  let '(shift_xx, shift_yy) := _meshgrid shift_x shift_y true in
  let shifts := combine shift_xx shift_yy in
  flat_map (fun sh => map (fun b => shift_box b (fst sh) (snd sh)) base) shifts.

(** The loop of [grid_anchors] from level [i] on. *)
Fixpoint grid_anchors_from (self : t) (i : nat)
    (featmap_sizes : list (nat * nat)) : result (list (list Box)) :=
  match featmap_sizes with
  | [] => Ok []
  | size :: rest =>
      match nth_error (base_anchors self) i, nth_error (strides self) i with
      | Some base, Some stride =>
          more <- grid_anchors_from self (S i) rest ;;
          Ok (single_level_grid_anchors base size stride :: more)
      | _, _ => Raise IndexError
      end
  end.

(** [grid_anchors(featmap_sizes)]. *)
Definition grid_anchors (self : t) (featmap_sizes : list (nat * nat))
  : result (list (list Box)) :=
  if Nat.eqb (length featmap_sizes) (length (strides self))
  then grid_anchors_from self 0 featmap_sizes
  else Raise AssertionError.

Section Torch.

(** [torch.sqrt] on a float and Python's [2 ** x] for a float exponent. *)
Variable sqrt : Q -> Q.
Variable exp2 : Q -> Q.

(** [gen_single_level_base_anchors(base_size, scales, ratios, center)],
    reading [self.center_offset] and [self.scale_major]. *)
Definition gen_single_level_base_anchors (self_center_offset : Q)
    (self_scale_major : bool) (base_size : Q) (scales ratios : list Q)
    (center : option (Q * Q)) : list Box :=
  let w := base_size in
  let h := base_size in
  let '(x_center, y_center) :=
    match center with
    | None => (self_center_offset * w, self_center_offset * h)
    | Some c => c
    end in
  let h_ratios := map sqrt ratios in
  let w_ratios := map (fun r => 1 / r) h_ratios in
  let ws :=
    if self_scale_major
    then outer (fun r s => w * r * s) w_ratios scales
    else outer (fun s r => w * s * r) scales w_ratios in
  let hs :=
    if self_scale_major
    then outer (fun r s => h * r * s) h_ratios scales
    else outer (fun s r => h * s * r) scales h_ratios in
  map (fun wh => mkBox (x_center - (1 # 2) * fst wh) (y_center - (1 # 2) * snd wh)
                       (x_center + (1 # 2) * fst wh) (y_center + (1 # 2) * snd wh))
      (combine ws hs).

(** The loop of [gen_base_anchors] from level [i] on. *)
Fixpoint gen_base_anchors_from (self_center_offset : Q)
    (self_scale_major : bool) (self_scales self_ratios : list Q)
    (self_centers : option (list (Q * Q))) (i : nat) (sizes : list Q)
  : result (list (list Box)) :=
  match sizes with
  | [] => Ok []
  | base_size :: rest =>
      center <- match self_centers with
                | None => Ok None
                | Some cs => match nth_error cs i with
                             | Some c => Ok (Some c)
                             | None => Raise IndexError
                             end
                end ;;
      more <- gen_base_anchors_from self_center_offset self_scale_major
                self_scales self_ratios self_centers (S i) rest ;;
      Ok (gen_single_level_base_anchors self_center_offset self_scale_major
            base_size self_scales self_ratios center :: more)
  end.

Definition gen_base_anchors (self_center_offset : Q) (self_scale_major : bool)
    (self_base_sizes self_scales self_ratios : list Q)
    (self_centers : option (list (Q * Q))) : result (list (list Box)) :=
  gen_base_anchors_from self_center_offset self_scale_major self_scales
    self_ratios self_centers 0 self_base_sizes.

Definition is_some {A : Type} (o : option A) : bool :=
  match o with Some _ => true | None => false end.

(** [2**(i / scales_per_octave) for i in range(scales_per_octave)], times
    [octave_base_scale]. *)
Definition octave_scales (base : Q) (per_octave : Z) : list Q :=
  map (fun i => exp2 (inject_Z (Z.of_nat i) / inject_Z per_octave) * base)
      (seq 0 (Z.to_nat per_octave)).

(** [AnchorGenerator.__init__]. *)
Definition init (a : init_args) : result t :=
  let co := arg_center_offset a in
  if negb (Qeq_bool co 0) && is_some (arg_centers a)
  then Raise AssertionError
  else if negb (Qle_bool 0 co && Qle_bool co 1)
  then Raise ValueError
  else
    let self_base_sizes :=
      match arg_base_sizes a with
      | None => map inject_Z (arg_strides a)
      | Some bs => bs
      end in
    if negb (Nat.eqb (length self_base_sizes) (length (arg_strides a)))
    then Raise AssertionError
    else if negb (xorb (is_some (arg_octave_base_scale a)
                        && is_some (arg_scales_per_octave a))
                       (is_some (arg_scales a)))
    then Raise AssertionError
    else
      self_scales <-
        match arg_scales a, arg_octave_base_scale a, arg_scales_per_octave a with
        | Some s, _, _ => Ok s
        | None, Some base, Some per_octave => Ok (octave_scales base per_octave)
        | None, _, _ => Raise ValueError
        end ;;
      anchors <- gen_base_anchors co (arg_scale_major a) self_base_sizes
                   self_scales (arg_ratios a) (arg_centers a) ;;
      Ok (mkGen (arg_strides a) self_base_sizes self_scales
                (arg_octave_base_scale a) (arg_scales_per_octave a)
                (arg_ratios a) (arg_scale_major a) (arg_centers a) co anchors).

End Torch.

(** [num_base_anchors]. *)
Definition num_base_anchors (self : t) : list nat :=
  map (@length Box) (base_anchors self).

(** The two boolean tests of the constructor that the arguments' values
    decide. *)
Definition passes_checks (a : init_args) : bool :=
  Qle_bool 0 (arg_center_offset a) && Qle_bool (arg_center_offset a) 1
  && xorb (is_some (arg_octave_base_scale a)
           && is_some (arg_scales_per_octave a))
          (is_some (arg_scales a)).

(** What the constructor's two highlighted checks look at. *)
Definition offset_in_range (a : init_args) : Prop :=
  0 <= arg_center_offset a /\ arg_center_offset a <= 1.

Definition scales_given (a : init_args) : Prop := arg_scales a <> None.

Definition octave_given (a : init_args) : Prop :=
  arg_octave_base_scale a <> None /\ arg_scales_per_octave a <> None.

Definition both_given (a : init_args) : Prop :=
  scales_given a /\ octave_given a.

Definition neither_given (a : init_args) : Prop :=
  ~ scales_given a /\ ~ octave_given a.

(** The arguments agree in shape: as many base sizes as strides, and explicit
    centers, when given, come with a zero [center_offset] and cover every
    level. *)
Definition shape_consistent (a : init_args) : Prop :=
  match arg_base_sizes a with
  | None => True
  | Some bs => length bs = length (arg_strides a)
  end /\
  match arg_centers a with
  | None => True
  | Some cs => arg_center_offset a == 0 /\
               (length (arg_strides a) <= length cs)%nat
  end.

(** The constructor's other refusals: explicit centers together with a
    non-zero [center_offset], base sizes that differ in number from the
    strides, and fewer centers than levels. *)
Definition centers_with_offset (a : init_args) : Prop :=
  arg_centers a <> None /\ ~ arg_center_offset a == 0.

Definition sizes_mismatch (a : init_args) : Prop :=
  match arg_base_sizes a with
  | Some bs => length bs <> length (arg_strides a)
  | None => False
  end.

Definition centers_too_few (a : init_args) : Prop :=
  match arg_centers a with
  | Some cs => (length cs < length (arg_strides a))%nat
  | None => False
  end.

(** Every test the constructor makes, as one boolean. *)
Definition passes_all_checks (a : init_args) : bool :=
  negb (negb (Qeq_bool (arg_center_offset a) 0) && is_some (arg_centers a))
  && match arg_base_sizes a with
     | Some bs => Nat.eqb (length bs) (length (arg_strides a))
     | None => true
     end
  && passes_checks a
  && match arg_centers a with
     | Some cs => (length (arg_strides a) <=? length cs)%nat
     | None => true
     end.

(** Rational stand-ins for the two float functions, exact on the values the
    examples use: [sqrt] to 2^-20 and [2 ** x] at integer exponents. *)
Definition sqrt_q (q : Q) : Q :=
  Z.sqrt (Qnum q * 2 ^ 40 / Z.pos (Qden q)) # (2 ^ 20).

Definition exp2_q (q : Q) : Q := inject_Z (2 ^ Qfloor q).

(** The generator of the class docstring:
    [AnchorGenerator([16], [1.], [1.], [9])]. *)
Definition docstring_args : init_args :=
  mkArgs [16%Z] [1] (Some [1]) (Some [9]) true None None None 0.

(** Three ratios and two scales on two levels. *)
Definition two_level_args : init_args :=
  mkArgs [8%Z; 16%Z] [1 # 4; 1; 4] (Some [1; 2]) None true None None None 0.

(** The generator that [two_level_args] constructs. *)
Definition two_level_generator : t :=
  Eval vm_compute in
    match init sqrt_q exp2_q two_level_args with
    | Ok g => g
    | Raise _ => mkGen [] [] [] None None [] true None 0 []
    end.

(** Three sets of arguments with a [center_offset] in [0, 1] and [scales]
    alone: explicit centers next to a non-zero offset, one base size for two
    strides, and one center for two levels. *)
Definition centers_and_offset_args : init_args :=
  mkArgs [8%Z] [1] (Some [1]) None true None None (Some [(0, 0)]) (1 # 2).

Definition one_base_size_args : init_args :=
  mkArgs [8%Z; 16%Z] [1] (Some [1]) (Some [8]) true None None None 0.

Definition one_center_args : init_args :=
  mkArgs [8%Z; 16%Z] [1] (Some [1]) None true None None (Some [(0, 0)]) 0.

(** Octave scales and a half-cell center offset. *)
Definition octave_args : init_args :=
  mkArgs [8%Z; 16%Z] [1 # 2; 1; 2] None None true (Some 4) (Some 3%Z) None
         (1 # 2).

(** *** Valid flags *)

(** The stop of a Python slice [t[:stop]] over a dimension of size [n]: a
    negative stop counts from the end, and the result is clipped to
    [0, n]. *)
Definition slice_stop (n : nat) (stop : Z) : nat :=
  Z.to_nat (if (stop <? 0)%Z then Z.max 0 (stop + Z.of_nat n)
            else Z.min stop (Z.of_nat n)).

(** [t = torch.zeros(n, dtype=torch.uint8); t[:stop] = 1]: a flag per
    position, set on the positions before the stop. *)
Definition ones_to (n : nat) (stop : Z) : list bool :=
  map (fun i => (i <? slice_stop n stop)%nat) (seq 0 n).

(** [single_level_valid_flags(featmap_size, valid_size, num_base_anchors)];
    [num_base_anchors] is the size of a tensor. *)
Definition single_level_valid_flags (featmap_size : nat * nat)
    (valid_size : Z * Z) (num_base_anchors : nat) : result (list bool) :=
  let '(feat_h, feat_w) := featmap_size in
  let '(valid_h, valid_w) := valid_size in
  if ((valid_h <=? Z.of_nat feat_h) && (valid_w <=? Z.of_nat feat_w))%Z
  then
    let valid_x := ones_to feat_w valid_w in
    let valid_y := ones_to feat_h valid_h in
    let '(valid_xx, valid_yy) := _meshgrid valid_x valid_y true in
    let valid := map (fun p : bool * bool => fst p && snd p)
                     (combine valid_xx valid_yy) in
    Ok (flat_map (fun v => repeat v num_base_anchors) valid)
  else Raise AssertionError.

(** [int(np.ceil(h / anchor_stride))] for two integers. *)
Definition ceil_div (h anchor_stride : Z) : result Z :=
  if (anchor_stride =? 0)%Z then Raise ZeroDivisionError
  else Ok (Qceiling (inject_Z h / inject_Z anchor_stride)).

(** The loop of [valid_flags] from level [i] on; [pad_shape] is given by its
    first two entries [(h, w)]. *)
Fixpoint valid_flags_from (self : t) (pad_shape : Z * Z) (i : nat)
    (featmap_sizes : list (nat * nat)) : result (list (list bool)) :=
  match featmap_sizes with
  | [] => Ok []
  | (feat_h, feat_w) :: rest =>
      anchor_stride <- match nth_error (strides self) i with
                       | Some s => Ok s
                       | None => Raise IndexError
                       end ;;
      let '(h, w) := pad_shape in
      ch <- ceil_div h anchor_stride ;;
      let valid_feat_h := Z.min ch (Z.of_nat feat_h) in
      cw <- ceil_div w anchor_stride ;;
      let valid_feat_w := Z.min cw (Z.of_nat feat_w) in
      n <- match nth_error (num_base_anchors self) i with
           | Some n => Ok n
           | None => Raise IndexError
           end ;;
      flags <- single_level_valid_flags (feat_h, feat_w)
                 (valid_feat_h, valid_feat_w) n ;;
      more <- valid_flags_from self pad_shape (S i) rest ;;
      Ok (flags :: more)
  end.

(** [valid_flags(featmap_sizes, pad_shape)]. *)
Definition valid_flags (self : t) (featmap_sizes : list (nat * nat))
    (pad_shape : Z * Z) : result (list (list bool)) :=
  valid_flags_from self pad_shape 0 featmap_sizes.

(** *** Vocabulary for the base anchors *)

Definition box_width (b : Box) : Q := bx2 b - bx1 b.
Definition box_height (b : Box) : Q := by2 b - by1 b.
Definition box_center (b : Box) : Q * Q :=
  ((bx1 b + bx2 b) / 2, (by1 b + by2 b) / 2).

(** The center [gen_single_level_base_anchors] puts the anchors on. *)
Definition anchor_center (self_center_offset base_size : Q)
    (center : option (Q * Q)) : Q * Q :=
  match center with
  | None => (self_center_offset * base_size, self_center_offset * base_size)
  | Some c => c
  end.

(** Where the anchor of ratio [ri] and scale [si] stands among the base
    anchors of a level. *)
Definition anchor_index (self_scale_major : bool) (num_ratios num_scales : nat)
    (ri si : nat) : nat :=
  if self_scale_major then (ri * num_scales + si)%nat
  else (si * num_ratios + ri)%nat.

(** *** SSDAnchorGenerator: the base anchors *)

(** The attributes of an SSD generator that its [gen_base_anchors] reads:
    a base size, a list of scales, a list of ratios and a center per
    level. *)
Record ssd : Type := mkSSD {
  ssd_base_sizes : list Q;
  ssd_scales : list (list Q);
  ssd_ratios : list (list Q);
  ssd_centers : list (Q * Q);
  ssd_scale_major : bool;
  ssd_center_offset : Q
}.

(** Python's [l.insert(i, x)] for a non-negative [i]: beyond the end it
    appends. *)
Definition list_insert {A : Type} (l : list A) (i : nat) (x : A) : list A :=
  firstn i l ++ x :: skipn i l.

(** [torch.index_select(t, 0, torch.LongTensor(indices))]. *)
Definition index_select {A : Type} (t : list A) (indices : list nat)
  : result (list A) :=
  mapM (fun i => match nth_error t i with
                 | Some a => Ok a
                 | None => Raise IndexError
                 end) indices.

(** [indices = list(range(n)); indices.insert(1, len(indices))]. *)
Definition ssd_indices (n : nat) : list nat := list_insert (seq 0 n) 1 n.

Section TorchSSD.

Variable sqrt : Q -> Q.

(** The loop of [SSDAnchorGenerator.gen_base_anchors] from level [i] on. *)
Fixpoint ssd_gen_base_anchors_from (self : ssd) (i : nat) (sizes : list Q)
  : result (list (list Box)) :=
  match sizes with
  | [] => Ok []
  | base_size :: rest =>
      level_scales <- match nth_error (ssd_scales self) i with
                      | Some s => Ok s
                      | None => Raise IndexError
                      end ;;
      level_ratios <- match nth_error (ssd_ratios self) i with
                      | Some r => Ok r
                      | None => Raise IndexError
                      end ;;
      center <- match nth_error (ssd_centers self) i with
                | Some c => Ok c
                | None => Raise IndexError
                end ;;
      let base_anchors :=
        gen_single_level_base_anchors sqrt (ssd_center_offset self)
          (ssd_scale_major self) base_size level_scales level_ratios
          (Some center) in
      selected <- index_select base_anchors
                    (ssd_indices (length level_ratios)) ;;
      more <- ssd_gen_base_anchors_from self (S i) rest ;;
      Ok (selected :: more)
  end.

(** [SSDAnchorGenerator.gen_base_anchors()]. *)
Definition ssd_gen_base_anchors (self : ssd) : result (list (list Box)) :=
  ssd_gen_base_anchors_from self 0 (ssd_base_sizes self).

End TorchSSD.

(** The attributes as the SSD constructor shapes them: scales, ratios and
    a center for every base size, two scales and at least one ratio on
    every level. *)
Definition ssd_levels_complete (self : ssd) : Prop :=
  (length (ssd_base_sizes self) <= length (ssd_scales self))%nat /\
  (length (ssd_base_sizes self) <= length (ssd_ratios self))%nat /\
  (length (ssd_base_sizes self) <= length (ssd_centers self))%nat /\
  Forall (fun s => (2 <= length s)%nat) (ssd_scales self) /\
  Forall (fun r => (1 <= length r)%nat) (ssd_ratios self).

(** An SSD generator of two levels, with the ratios 1, 1/2, 2 and, on the
    second level, also 1/3 and 3. *)
Definition ssd_example : ssd :=
  mkSSD [30; 60] [[1; 2]; [1; 2]] [[1; 1 # 2; 2]; [1; 1 # 2; 2; 1 # 3; 3]]
        [(4, 4); (8, 8)] false 0.

End AnchorGenerator.

(** * Anchor utilities: the flags and the per-level split of
      [mmdet/core/anchor/utils.py] *)

Module AnchorUtils.

(** [a & b] on two 1-D boolean tensors: elementwise on equal sizes, a tensor
    of size one is broadcast, any other pair of sizes is refused. *)
Definition tensor_and (a b : list bool) : result (list bool) :=
  if Nat.eqb (length a) (length b)
  then Ok (map (fun p : bool * bool => fst p && snd p) (combine a b))
  else match a, b with
       | [x], _ => Ok (map (andb x) b)
       | _, [y] => Ok (map (fun x => x && y) a)
       | _, _ => Raise RuntimeError
       end.

(** [anchor_inside_flags(flat_anchors, valid_flags, img_shape,
    allowed_border)]; [img_shape] is given by its first two entries
    [(img_h, img_w)]. *)
Definition anchor_inside_flags (flat_anchors : list Box)
    (valid_flags : list bool) (img_shape : Z * Z) (allowed_border : Z)
  : result (list bool) :=
  let '(img_h, img_w) := img_shape in
  if (0 <=? allowed_border)%Z then
    f0 <- tensor_and valid_flags
            (map (fun b => Qle_bool (inject_Z (- allowed_border)) (bx1 b))
                 flat_anchors) ;;
    f1 <- tensor_and f0
            (map (fun b => Qle_bool (inject_Z (- allowed_border)) (by1 b))
                 flat_anchors) ;;
    f2 <- tensor_and f1
            (map (fun b => Qltb (bx2 b) (inject_Z (img_w + allowed_border)))
                 flat_anchors) ;;
    tensor_and f2
      (map (fun b => Qltb (by2 b) (inject_Z (img_h + allowed_border)))
           flat_anchors)
  else Ok valid_flags.

(** [torch.stack(target, 0)]: at least one tensor, all of one size. *)
Definition stack {A : Type} (target : list (list A))
  : result (list (list A)) :=
  match target with
  | [] => Raise RuntimeError
  | t0 :: rest =>
      if forallb (fun u => Nat.eqb (length u) (length t0)) rest
      then Ok target else Raise RuntimeError
  end.

(** [l[start:stop]]; both bounds are clipped the way
    [AnchorGenerator.slice_stop] clips a stop. *)
Definition py_slice {A : Type} (l : list A) (start stop : Z) : list A :=
  let s := AnchorGenerator.slice_stop (length l) start in
  let e := AnchorGenerator.slice_stop (length l) stop in
  firstn (e - s) (skipn s l).

(** The loop of [images_to_levels], with [start] as it stands. *)
Fixpoint levels_from {A : Type} (target : list (list A)) (start : Z)
    (num_levels : list Z) : list (list (list A)) :=
  match num_levels with
  | [] => []
  | n :: rest =>
      let stop := (start + n)%Z in
      map (fun row => py_slice row start stop) target
        :: levels_from target stop rest
  end.

(** [images_to_levels(target, num_levels)]: from one tensor per image to one
    tensor per level, each with a row per image. *)
Definition images_to_levels {A : Type} (target : list (list A))
    (num_levels : list Z) : result (list (list (list A))) :=
  stacked <- stack target ;;
  Ok (levels_from stacked 0 num_levels).

(** An anchor lies inside the image widened by [border] on every side. *)
Definition inside_image (img_shape : Z * Z) (border : Z) (b : Box) : Prop :=
  inject_Z (- border) <= bx1 b /\ inject_Z (- border) <= by1 b /\
  bx2 b < inject_Z (snd img_shape + border) /\
  by2 b < inject_Z (fst img_shape + border).

(** The targets of two images over levels of two and one anchors. *)
Definition two_images : list (list (list Z)) :=
  [[[1; 2]; [3]]; [[4; 5]; [6]]]%Z.

End AnchorUtils.

(** * UniformAssigner: uniform matching of anchors and predictions *)

Module UniformAssigner.

(** Modelled from the spec: [AssignResult] (assign_result.py is not among the
    sources). For N candidates it holds the integer array [gt_inds]
    (0 background, -1 ignore, k > 0 matched to ground truth k-1), the optional
    [max_overlaps] and the optional per-candidate [labels]; the three extra
    properties the assigner sets are kept beside them. *)
Record AssignResult : Type := mkAssignResult {
  num_gts : nat;
  gt_inds : list Z;
  max_overlaps : option (list Q);
  labels : option (list Z);
  pos_idx : list bool;
  pos_predicted_boxes : list Box;
  target_boxes : list Box
}.

(** The assigner's attributes. *)
Record t : Type := mkAssigner {
  pos_ignore_thr : Q;
  neg_ignore_thr : Q;
  match_times : nat;
  (** Modelled from the spec: the IoU calculator (iou_calculators/ is not
      among the sources) gives the similarity of every (candidate, ground
      truth) pair as an N x M matrix; [iou] is the similarity of one pair. *)
  iou : Box -> Box -> Q
}.

Definition iou_calculator (self : t) (bboxes gts : list Box) : list (list Q) :=
  map (fun b => map (iou self b) gts) bboxes.

(** Modelled from the spec: [bbox_xyxy_to_cxcywh] (transforms.py is not among
    the sources) converts the corner convention (x1, y1, x2, y2) to the
    center convention (cx, cy, w, h). *)
Definition bbox_xyxy_to_cxcywh (b : Box) : Q * Q * Q * Q :=
  ((bx1 b + bx2 b) / 2, (by1 b + by2 b) / 2, bx2 b - bx1 b, by2 b - by1 b).

(** The 1-norm distance of two 4-vectors, and [torch.cdist(a, b, p=1)]. *)
Definition l1_dist (u v : Q * Q * Q * Q) : Q :=
  let '(u1, u2, u3, u4) := u in
  let '(v1, v2, v3, v4) := v in
  Qabs (u1 - v1) + Qabs (u2 - v2) + Qabs (u3 - v3) + Qabs (u4 - v4).

Definition cdist (a b : list (Q * Q * Q * Q)) : list (list Q) :=
  map (fun u => map (l1_dist u) b) a.

(** The L1 cost of matching candidate box [b] to ground truth [g]. *)
Definition cost (b g : Box) : Q :=
  l1_dist (bbox_xyxy_to_cxcywh b) (bbox_xyxy_to_cxcywh g).

(** Column [g] of a matrix stored by rows. *)
Definition column (g : nat) (m : list (list Q)) : list Q :=
  map (fun row => nth g row 0) m.

(** [torch.topk(col, k, largest=False)[1]] on one column: the indices of the
    [k] smallest entries, smallest first; [k] beyond the column's length
    raises. torch leaves the order of equal entries open: here the lower
    index comes first. *)
Fixpoint insert_by_cost (x : Q * nat) (l : list (Q * nat)) : list (Q * nat) :=
  match l with
  | [] => [x]
  | y :: l' =>
      if Qle_bool (fst x) (fst y) then x :: y :: l' else y :: insert_by_cost x l'
  end.

Definition sort_by_cost (l : list (Q * nat)) : list (Q * nat) :=
  fold_right insert_by_cost [] l.

Definition argsort (col : list Q) : list nat :=
  map snd (sort_by_cost (combine col (seq 0 (length col)))).

Definition topk_smallest (k : nat) (col : list Q) : result (list nat) :=
  if (length col <? k)%nat then Raise RuntimeError
  else Ok (firstn k (argsort col)).

(** [torch.topk(C, k, dim=0, largest=False)[1]] for a matrix with [ncols]
    columns; the result is kept by column: entry [g] lists the [k] row
    indices selected for column [g]. *)
Definition topk_dim0 (k : nat) (C : list (list Q)) (ncols : nat)
  : result (list (list nat)) :=
  mapM (fun g => topk_smallest k (column g C)) (seq 0 ncols).

(** Row [r] of the (k, ncols) index tensor. *)
Definition index_row (index : list (list nat)) (r : nat) : list nat :=
  map (fun col => nth r col 0%nat) index.

(** [torch.cat((index, index1), dim=1).reshape(-1)]. *)
Definition cat_reshape (k : nat) (index index1 : list (list nat)) : list nat :=
  flat_map (fun r => index_row index r ++ index_row index1 r) (seq 0 k).

(** [torch.arange(0, n).repeat(times)]. *)
Definition arange_repeat (n times : nat) : list nat :=
  concat (repeat (seq 0 n) times).

(** [t.max()] over a non-empty 1-D tensor. *)
Definition max_list (l : list Q) : result Q :=
  match l with
  | [] => Raise RuntimeError
  | x :: l' => Ok (fold_left py_max l' x)
  end.

(** [m.max(dim=1)[0]] and [m.max(dim=0)[0]] for a matrix with [ncols]
    columns. *)
Definition max_dim1 (m : list (list Q)) : result (list Q) := mapM max_list m.

Definition max_dim0 (m : list (list Q)) (ncols : nat) : result (list Q) :=
  mapM (fun g => max_list (column g m)) (seq 0 ncols).

(** [a[mask] = v] for a boolean mask as long as [a]. *)
Definition masked_fill (a : list Z) (mask : list bool) (v : Z) : list Z :=
  map (fun p : Z * bool => if snd p then v else fst p) (combine a mask).

(** [a[i] = v] for one index. *)
Definition write (a : list Z) (i : nat) (v : Z) : result (list Z) :=
  if (i <? length a)%nat then Ok (firstn i a ++ v :: skipn (S i) a)
  else Raise IndexError.

(** [a[indexes] = values] for an index tensor: the writes are made in the
    order of [indexes], so of two writes to one place the later one stays
    (the sequential behaviour of the assignment on one device thread). *)
Fixpoint index_put (a : list Z) (writes : list (nat * Z)) : result (list Z) :=
  match writes with
  | [] => Ok a
  | (i, v) :: rest => a' <- write a i v ;; index_put a' rest
  end.

(** [a[i]] for a tensor and a non-negative index. *)
Definition getitem {A : Type} (a : list A) (i : nat) : result A :=
  match nth_error a i with
  | Some x => Ok x
  | None => Raise IndexError
  end.

(** [m[rows, cols]] for two index tensors of one length. *)
Definition gather2 (m : list (list Q)) (rows cols : list nat) : result (list Q) :=
  mapM (fun rc : nat * nat => row <- getitem m (fst rc) ;; getitem row (snd rc))
       (combine rows cols).

(** Step 2 of [assign]: the flat tensor [indexes] of selected candidates. *)
Definition select_indexes (self : t) (bbox_pred anchor gt_bboxes : list Box)
  : result (list nat) :=
  let G := length gt_bboxes in
  let cost_bbox := cdist (map bbox_xyxy_to_cxcywh bbox_pred)
                         (map bbox_xyxy_to_cxcywh gt_bboxes) in
  let cost_anchors := cdist (map bbox_xyxy_to_cxcywh anchor)
                            (map bbox_xyxy_to_cxcywh gt_bboxes) in
  index <- topk_dim0 (match_times self) cost_bbox G ;;
  index1 <- topk_dim0 (match_times self) cost_anchors G ;;
  Ok (cat_reshape (match_times self) index index1).

(** Step 3: [assigned_gt_inds] after the negative-ignore pass. *)
Definition neg_ignore (self : t) (pred_max_overlaps : list Q) (a : list Z)
  : list Z :=
  masked_fill a (map (fun v => Qltb (neg_ignore_thr self) v) pred_max_overlaps)
              (-1)%Z.

(** Step 4: [pos_gt_index_with_ignore]. *)
Definition with_ignore (pos_gt_index : list nat) (pos_ignore_idx : list bool)
  : list Z :=
  map (fun p : nat * bool => if snd p then (-1)%Z else (Z.of_nat (fst p) + 1)%Z)
      (combine pos_gt_index pos_ignore_idx).

(** The labels of the assigned ground truths, -1 elsewhere. *)
Definition assign_labels (assigned_gt_inds : list Z) (gt_labels : list Z)
  : result (list Z) :=
  mapM (fun g => if (0 <? g)%Z then getitem gt_labels (Z.to_nat (g - 1))
                 else Ok (-1)%Z)
       assigned_gt_inds.

(** [UniformAssigner.assign(bbox_pred, anchor, gt_bboxes, gt_labels)]. *)
Definition assign (self : t) (bbox_pred anchor gt_bboxes : list Box)
    (gt_labels : option (list Z)) : result AssignResult :=
  let G := length gt_bboxes in
  let N := length bbox_pred in
  let assigned_gt_inds := repeat 0%Z N in
  let assigned_labels := repeat (-1)%Z N in
  if Nat.eqb G 0 || Nat.eqb N 0 then
    Ok (mkAssignResult G assigned_gt_inds None (Some assigned_labels) [] [] [])
  else
    indexes <- select_indexes self bbox_pred anchor gt_bboxes ;;
    let pred_overlaps := iou_calculator self bbox_pred gt_bboxes in
    let anchor_overlaps := iou_calculator self anchor gt_bboxes in
    pred_max_overlaps <- max_dim1 pred_overlaps ;;
    anchor_max_overlaps <- max_dim0 anchor_overlaps G ;;
    let assigned_gt_inds := neg_ignore self pred_max_overlaps assigned_gt_inds in
    let pos_gt_index := arange_repeat G (match_times self * 2) in
    pos_ious <- gather2 anchor_overlaps indexes pos_gt_index ;;
    let pos_ignore_idx := map (fun v => Qltb v (pos_ignore_thr self)) pos_ious in
    let pos_gt_index_with_ignore := with_ignore pos_gt_index pos_ignore_idx in
    assigned_gt_inds <-
      index_put assigned_gt_inds (combine indexes pos_gt_index_with_ignore) ;;
    assigned_labels <-
      match gt_labels with
      | Some gl => l <- assign_labels assigned_gt_inds gl ;; Ok (Some l)
      | None => Ok None
      end ;;
    pos_predicted <- mapM (getitem bbox_pred) indexes ;;
    targets <- mapM (getitem gt_bboxes) pos_gt_index ;;
    Ok (mkAssignResult G assigned_gt_inds (Some anchor_max_overlaps)
          assigned_labels (map negb pos_ignore_idx) pos_predicted targets).

(** Modelled from the spec: the default calculator, intersection over union
    of two corner boxes (0 when the union is empty). *)
Definition bbox_overlap (a b : Box) : Q :=
  let w := Qmax 0 (Qmin (bx2 a) (bx2 b) - Qmax (bx1 a) (bx1 b)) in
  let h := Qmax 0 (Qmin (by2 a) (by2 b) - Qmax (by1 a) (by1 b)) in
  let inter := w * h in
  let area_a := (bx2 a - bx1 a) * (by2 a - by1 a) in
  let area_b := (bx2 b - bx1 b) * (by2 b - by1 b) in
  let union := area_a + area_b - inter in
  if Qle_bool union 0 then 0 else inter / union.

(** *** Vocabulary for the properties of [assign] *)

Definition by_cost (p q : Q * nat) : Prop := fst p <= fst q.

(** [m] is the largest entry of [l]. *)
Definition is_max (m : Q) (l : list Q) : Prop :=
  In m l /\ forall x, In x l -> x <= m.

(** What [topk] selects in one column: [k] distinct rows, and no row left out
    is strictly nearer than a selected one. *)
Definition k_nearest (k : nat) (col : list Q) (sel : list nat) : Prop :=
  length sel = k /\
  NoDup sel /\
  (forall i, In i sel -> (i < length col)%nat) /\
  (forall i j, In i sel -> (j < length col)%nat -> ~ In j sel ->
               nth i col 0 <= nth j col 0).

Definition box0 : Box := mkBox 0 0 0 0.

(** The selected (candidate, ground truth) pairs in the order [assign] writes
    them, for the index tensors [index] (from the predictions' costs) and
    [index1] (from the anchors' costs): rank by rank, and within a rank the
    prediction matches of ground truths 0 .. G-1, then the anchor matches of
    ground truths 0 .. G-1. *)
Definition entries (k G : nat) (index index1 : list (list nat))
  : list (nat * nat) :=
  flat_map (fun r =>
              map (fun g => (nth r (nth g index []) 0%nat, g)) (seq 0 G)
              ++ map (fun g => (nth r (nth g index1 []) 0%nat, g)) (seq 0 G))
           (seq 0 k).


(** The cost matrix of [boxes] against the ground truths. *)
Definition costs_to (gts : list Box) (boxes : list Box) : list (list Q) :=
  cdist (map bbox_xyxy_to_cxcywh boxes) (map bbox_xyxy_to_cxcywh gts).

(** The IoU of the anchor and the ground truth of a selected pair. *)
Definition anchor_iou (self : t) (anchor gts : list Box) (e : nat * nat) : Q :=
  iou self (nth (fst e) anchor box0) (nth (snd e) gts box0).

(** What is written for a selected pair: -1 when the anchor's IoU with the
    ground truth is below [pos_ignore_thr], the 1-based ground-truth index
    otherwise. *)
Definition entry_value (self : t) (anchor gt_bboxes : list Box)
    (e : nat * nat) : Z :=
  if Qltb (anchor_iou self anchor gt_bboxes e) (pos_ignore_thr self)
  then (-1)%Z else (Z.of_nat (snd e) + 1)%Z.

(** The value of the last write to place [c], if any. *)
Fixpoint last_write (writes : list (nat * Z)) (c : nat) : option Z :=
  match writes with
  | [] => None
  | (i, v) :: rest =>
      match last_write rest c with
      | Some w => Some w
      | None => if Nat.eqb i c then Some v else None
      end
  end.


(** The inputs [assign] takes on its main path: at least one ground truth,
    at least [match_times] candidates (and at least one), an anchor per
    candidate, and a label per ground truth when labels are given. *)
Definition main_path_inputs (self : t) (bbox_pred anchor gt_bboxes : list Box)
    (gt_labels : option (list Z)) : Prop :=
  gt_bboxes <> [] /\
  bbox_pred <> [] /\
  (match_times self <= length bbox_pred)%nat /\
  length anchor = length bbox_pred /\
  match gt_labels with
  | Some gl => length gl = length gt_bboxes
  | None => True
  end.

(** *** Example inputs *)

Definition box (a b c d : Z) : Box :=
  mkBox (inject_Z a) (inject_Z b) (inject_Z c) (inject_Z d).

(** Two ground truths far apart; anchor 0 sits on the first and anchor 1 on
    the second, while the predictions are the other way round. *)
Definition swap_self : t := mkAssigner (15 # 100) (7 # 10) 1 bbox_overlap.
Definition swap_gts : list Box := [box 0 0 10 10; box 20 20 30 30].
Definition swap_anchors : list Box := [box 0 0 10 10; box 20 20 30 30].
Definition swap_preds : list Box := [box 19 19 30 30; box 1 1 10 10].

(** Five candidates for the same two ground truths, [match_times = 4]. *)
Definition five_self : t := mkAssigner (15 # 100) (7 # 10) 4 bbox_overlap.
Definition five_anchors : list Box :=
  [box 0 0 10 10; box 20 20 30 30; box 5 5 15 15; box 0 0 8 8;
   box 22 22 30 30].
Definition five_preds : list Box :=
  [box 19 19 30 30; box 1 1 10 10; box 5 5 12 12; box 0 0 9 9;
   box 21 21 30 30].

(** Three candidates only, for [match_times = 4]. *)
Definition three_anchors : list Box :=
  [box 0 0 10 10; box 20 20 30 30; box 5 5 15 15].
Definition three_preds : list Box :=
  [box 19 19 30 30; box 1 1 10 10; box 5 5 12 12].

(** One ground truth and two candidates. *)
Definition one_gt : list Box := [box 0 0 10 10].
Definition two_anchors : list Box := [box 0 0 10 10; box 0 0 5 10].
Definition two_preds : list Box := [box 1 1 10 10; box 0 0 5 9].

End UniformAssigner.

(** * SOLOHead: grid-cell targets of the mask head *)

Module SOLOHead.

(** A 2-D tensor of pixels, by rows; its width is the length of its rows. *)
Definition mask : Type := list (list N).

Definition width (m : mask) : nat :=
  match m with
  | [] => 0
  | row :: _ => length row
  end.

Definition zsum (l : list Z) : Z := fold_right Z.add 0%Z l.

(** [sum_i i * l[i]]. *)
Definition index_weighted_sum (l : list Z) : Z :=
  zsum (map (fun p : nat * Z => (Z.of_nat (fst p) * snd p)%Z)
            (combine (seq 0 (length l)) l)).

Definition row_sum (row : list N) : Z := zsum (map Z.of_N row).

(** [mask.sum()], [(mask * grid_h).sum()] and [(mask * grid_w).sum()]. *)
Definition mask_sum (m : mask) : Z := zsum (map row_sum m).

Definition moment_h (m : mask) : Z := index_weighted_sum (map row_sum m).

Definition moment_w (m : mask) : Z :=
  zsum (map (fun row => index_weighted_sum (map Z.of_N row)) m).

(** [x.clamp(min=c)]. *)
Definition clamp_min (x c : Q) : Q := if Qltb x c then c else x.

(** [center_of_mass(mask)]: [(center_h, center_w)]. *)
Definition center_of_mass (m : mask) : Q * Q :=
  let normalizer := clamp_min (inject_Z (mask_sum m)) (1 # 1000000) in
  (inject_Z (moment_h m) / normalizer, inject_Z (moment_w m) / normalizer).

(** The attributes of the head that target generation reads. *)
Record t : Type := mkHead {
  num_classes : Z;
  strides : list Q;
  scale_ranges : list (Q * Q);
  pos_scale : Q;
  num_grids : list nat
}.

(** One iteration of the loop over levels: the zipped
    [(lower_bound, upper_bound), stride, featmap_size, num_grid]. *)
Record level : Type := mkLevel {
  lower_bound : Q;
  upper_bound : Q;
  stride : Q;
  featmap_size : nat * nat;
  num_grid : nat
}.

(** [zip(self.scale_ranges, self.strides, featmap_sizes, self.num_grids)]:
    as long as the shortest of the four. *)
Fixpoint zip_levels (ranges : list (Q * Q)) (strides : list Q)
    (sizes : list (nat * nat)) (grids : list nat) : list level :=
  match ranges, strides, sizes, grids with
  | (lo, hi) :: ranges', s :: strides', sz :: sizes', g :: grids' =>
      mkLevel lo hi s sz g :: zip_levels ranges' strides' sizes' grids'
  | _, _, _, _ => []
  end.

(** The targets of one level: [mask_target] of shape
    (num_grid**2, feat_h, feat_w), [labels] of shape (num_grid, num_grid) and
    [pos_mask] of shape (num_grid**2). *)
Record targets : Type := mkTargets {
  mask_target : list mask;
  labels : list (list Z);
  pos_mask : list bool
}.

Definition zeros2 (h w : nat) : mask := repeat (repeat 0%N w) h.

Definition initial_targets (self : t) (lv : level) : targets :=
  let g := num_grid lv in
  mkTargets (repeat (zeros2 (fst (featmap_size lv)) (snd (featmap_size lv)))
                    (g * g))
            (repeat (repeat (num_classes self) g) g)
            (repeat false (g * g)).

(** A bound of a Python slice over a dimension of size [n]: negative bounds
    count from the end, and the result is clipped to [0, n]. *)
Definition slice_bound (n : nat) (i : Z) : nat :=
  Z.to_nat (if (i <? 0)%Z then Z.max 0 (i + Z.of_nat n)
            else Z.min i (Z.of_nat n)).

(** Apply [f] at the positions [lo <= k < hi] of a list whose head has
    position [k0]. *)
Fixpoint map_range_from {A : Type} (f : A -> A) (lo hi k0 : nat) (l : list A)
  : list A :=
  match l with
  | [] => []
  | x :: l' =>
      (if (lo <=? k0)%nat && (k0 <? hi)%nat then f x else x)
        :: map_range_from f lo hi (S k0) l'
  end.

(** [grid[r0:r1, c0:c1] = v] on a (g, g) tensor. *)
Definition fill_slice2 (g : nat) (grid : list (list Z)) (r0 r1 c0 c1 : Z)
    (v : Z) : list (list Z) :=
  map_range_from
    (map_range_from (fun _ => v) (slice_bound g c0) (slice_bound g c1) 0)
    (slice_bound g r0) (slice_bound g r1) 0 grid.

(** Rows [r < lh] of [slot] take their first [lw] pixels from [src]. *)
Fixpoint paste_rows (lh lw : nat) (slot src : mask) : mask :=
  match lh, slot, src with
  | S k, srow :: slot', grow :: src' =>
      (firstn lw grow ++ skipn lw srow) :: paste_rows k lw slot' src'
  | _, _, _ => slot
  end.

(** [slot[:gh, :gw] = src] for a (feat_h, feat_w) slot and a (gh, gw)
    source: the slice is clipped to the slot, and a source that cannot be
    broadcast to the slice is refused. *)
Definition paste (feat_h feat_w : nat) (slot src : mask) : result mask :=
  let gh := length src in
  let gw := width src in
  let lh := Nat.min gh feat_h in
  let lw := Nat.min gw feat_w in
  if (Nat.eqb gh lh || Nat.eqb gh 1) && (Nat.eqb gw lw || Nat.eqb gw 1)
  then Ok (paste_rows lh lw slot src)
  else Raise RuntimeError.

(** A tensor index along a dimension of size [n]. *)
Definition norm_index (n : nat) (i : Z) : result nat :=
  let j := (if i <? 0 then i + Z.of_nat n else i)%Z in
  if ((j <? 0) || (Z.of_nat n <=? j))%Z then Raise IndexError
  else Ok (Z.to_nat j).

Definition set_nth {A : Type} (l : list A) (i : nat) (x : A) : list A :=
  firstn i l ++ x :: skipn (S i) l.

(** [range(lo, hi)]. *)
Definition zrange (lo hi : Z) : list Z :=
  map (fun k => (lo + Z.of_nat k)%Z) (seq 0 (Z.to_nat (hi - lo))).

(** One ground truth of a level, as the inner loop zips them. *)
Record instance : Type := mkInstance {
  gt_mask : mask;
  gt_label : Z;
  pos_h_range : Q;
  pos_w_range : Q;
  valid_mask_flag : bool
}.

Section Torch.

(** [torch.sqrt] on a float and [mmcv.imrescale(img, scale)]; and the
    float32 arithmetic of 0-dim tensors that places a coordinate in a grid
    cell: [a - b], [a + b], [a / n] for a Python int [n], and [int(a // s)]
    for a Python float [s], each on the floats nearest to its arguments.
    These four round where the rationals do not (the float nearest to one
    sixth is above it, so a float32 [0.5] floor divided by [1. / 6] is 2 and
    not 3): they are left open rather than computed on [Q]. *)
Variable sqrt : Q -> Q.
Variable imrescale : mask -> Q -> mask.
Variable tensor_sub : Q -> Q -> Q.
Variable tensor_add : Q -> Q -> Q.
Variable true_divide : Q -> Q -> Q.
Variable floor_divide : Q -> Q -> Z.

(** [int((v / up) // (1. / num_grid))]. The quotient [v / up] is taken
    first and never raises; [1. / num_grid] raises ZeroDivisionError for a
    grid of 0; with [up = 0] the quotient is an infinity or NaN, its floor
    division is NaN, and [int] refuses NaN with ValueError. *)
Definition grid_coord (num_grid : nat) (v up : Q) : result Z :=
  if Nat.eqb num_grid 0 then Raise ZeroDivisionError
  else if Qeq_bool up 0 then Raise ValueError
  else Ok (floor_divide (true_divide v up)
                        (1 / inject_Z (Z.of_nat num_grid))).

(** The region [top, down, left, right] of grid cells of one instance. *)
Definition cell_region (g : nat) (upsampled_size : Q * Q) (ins : instance)
  : result (Z * Z * Z * Z) :=
  let '(center_h, center_w) := center_of_mass (gt_mask ins) in
  let up_h := fst upsampled_size in
  let up_w := snd upsampled_size in
  coord_w <- grid_coord g center_w up_w ;;
  coord_h <- grid_coord g center_h up_h ;;
  t0 <- grid_coord g (tensor_sub center_h (pos_h_range ins)) up_h ;;
  let top_box := Z.max 0 t0 in
  d0 <- grid_coord g (tensor_add center_h (pos_h_range ins)) up_h ;;
  let down_box := Z.min (Z.of_nat g - 1) d0 in
  l0 <- grid_coord g (tensor_sub center_w (pos_w_range ins)) up_w ;;
  let left_box := Z.max 0 l0 in
  r0 <- grid_coord g (tensor_add center_w (pos_w_range ins)) up_w ;;
  let right_box := Z.min (Z.of_nat g - 1) r0 in
  let top := Z.max top_box (coord_h - 1) in
  let down := Z.min down_box (coord_h + 1) in
  let left := Z.max (coord_w - 1) left_box in
  let right := Z.min right_box (coord_w + 1) in
  Ok (top, down, left, right).

(** The two writes of the innermost loop, at grid cell [(i, j)]. *)
Definition write_cell (lv : level) (rescaled : mask) (tg : targets)
    (ij : Z * Z) : result targets :=
  let g := num_grid lv in
  let index := (fst ij * Z.of_nat g + snd ij)%Z in
  k <- norm_index (g * g) index ;;
  slot <- match nth_error (mask_target tg) k with
          | Some s => Ok s
          | None => Raise IndexError
          end ;;
  slot' <- paste (fst (featmap_size lv)) (snd (featmap_size lv)) slot rescaled ;;
  Ok (mkTargets (set_nth (mask_target tg) k slot') (labels tg)
                (set_nth (pos_mask tg) k true)).

Fixpoint foldM {A B : Type} (f : A -> B -> result A) (a : A) (l : list B)
  : result A :=
  match l with
  | [] => Ok a
  | b :: l' => a' <- f a b ;; foldM f a' l'
  end.

(** The body of the loop over the ground truths of a level. *)
Definition add_instance (lv : level) (upsampled_size : Q * Q) (tg : targets)
    (ins : instance) : result targets :=
  if negb (valid_mask_flag ins) then Ok tg
  else
    let g := num_grid lv in
    let output_stride := stride lv / 2 in
    region <- cell_region g upsampled_size ins ;;
    let '(top, down, lft, rgt) := region in
    let labels' := fill_slice2 g (labels tg) top (down + 1) lft (rgt + 1)
                               (gt_label ins) in
    if Qeq_bool output_stride 0 then Raise ZeroDivisionError
    else
      let rescaled := imrescale (gt_mask ins) (1 / output_stride) in
      foldM (write_cell lv rescaled)
            (mkTargets (mask_target tg) labels' (pos_mask tg))
            (flat_map (fun i => map (fun j => (i, j)) (zrange lft (rgt + 1)))
                      (zrange top (down + 1))).

(** [gt_areas]: the square root of each box's area. *)
Definition gt_area (b : Box) : Q :=
  sqrt ((bx2 b - bx1 b) * (by2 b - by1 b)).

(** [((gt_areas >= lower_bound) & (gt_areas <= upper_bound)).nonzero()]. *)
Definition hit_inds (lv : level) (gt_areas : list Q) : list nat :=
  map fst
    (filter (fun p : nat * Q => Qle_bool (lower_bound lv) (snd p)
                                && Qle_bool (snd p) (upper_bound lv))
            (combine (seq 0 (length gt_areas)) gt_areas)).

Definition getitem {A : Type} (a : list A) (i : nat) : result A :=
  match nth_error a i with
  | Some x => Ok x
  | None => Raise IndexError
  end.

(** The instance of ground truth [i], as the inner [zip] presents it. *)
Definition hit_instance (self : t) (gt_bboxes : list Box) (gt_labels : list Z)
    (gt_masks : list mask) (i : nat) : result instance :=
  b <- getitem gt_bboxes i ;;
  l <- getitem gt_labels i ;;
  m <- getitem gt_masks i ;;
  Ok (mkInstance m l
        ((1 # 2) * (by2 b - by1 b) * pos_scale self)
        ((1 # 2) * (bx2 b - bx1 b) * pos_scale self)
        (0 <? mask_sum m)%Z).

(** The body of the loop over levels. *)
Definition level_targets (self : t) (first_featmap_size : nat * nat)
    (gt_bboxes : list Box) (gt_labels : list Z) (gt_masks : list mask)
    (lv : level) : result targets :=
  let tg := initial_targets self lv in
  let gt_inds := hit_inds lv (map gt_area gt_bboxes) in
  match gt_inds with
  | [] => Ok tg
  | _ =>
      hits <- mapM (hit_instance self gt_bboxes gt_labels gt_masks) gt_inds ;;
      let upsampled_size :=
        (inject_Z (Z.of_nat (fst first_featmap_size * 4)),
         inject_Z (Z.of_nat (snd first_featmap_size * 4))) in
      foldM (add_instance lv upsampled_size) tg hits
  end.

(** [SOLOHead._get_targets_single(gt_bboxes, gt_labels, gt_masks,
    featmap_sizes)]: the targets of every level. The method starts with
    [device = gt_labels[0].device], which raises IndexError on an empty label
    tensor. The three lists it returns are the three fields of the per-level
    records. *)
Definition _get_targets_single (self : t) (gt_bboxes : list Box)
    (gt_labels : list Z) (gt_masks : list mask)
    (featmap_sizes : list (nat * nat)) : result (list targets) :=
  match gt_labels with
  | [] => Raise IndexError
  | _ :: _ =>
      mapM (level_targets self (hd (0, 0)%nat featmap_sizes)
                          gt_bboxes gt_labels gt_masks)
           (zip_levels (scale_ranges self) (strides self) featmap_sizes
                       (num_grids self))
  end.

End Torch.

(** A stand-in for the float floor division of the examples: the floor of
    the exact quotient. The subtraction, the addition and the division of
    the examples are those of [Q]. *)
Definition floor_divide_q (a s : Q) : Z := Qfloor (a / s).

(** A stand-in for the rescaling of the examples: keep every [1/scale]-th
    pixel of every [1/scale]-th row. *)
Fixpoint every_nth {A : Type} (step k : nat) (l : list A) : list A :=
  match l with
  | [] => []
  | x :: l' =>
      match k with
      | O => x :: every_nth step (pred step) l'
      | S k' => every_nth step k' l'
      end
  end.

Definition subsample (m : mask) (scale : Q) : mask :=
  let step := Z.to_nat (Qfloor (1 / scale)) in
  map (every_nth step 0) (every_nth step 0 m).

(** *** Vocabulary for the properties of the targets *)

(** A level's targets mark no cell: every label is the background class
    [num_classes], no cell is positive, every mask target is zero. *)
Definition all_background (self : t) (lv : level) (tg : targets) : Prop :=
  let g := num_grid lv in
  tg = initial_targets self lv /\
  (forall i j, (i < g)%nat -> (j < g)%nat ->
               nth j (nth i (labels tg) []) 0%Z = num_classes self) /\
  (forall k, nth k (pos_mask tg) false = false) /\
  (forall k row col, nth col (nth row (nth k (mask_target tg) []) []) 0%N = 0%N).







(** The instance the inner loop sees for a box, a label and a mask. *)
Definition instance_of (self : t) (b : Box) (l : Z) (m : mask) : instance :=
  mkInstance m l
    ((1 # 2) * (by2 b - by1 b) * pos_scale self)
    ((1 # 2) * (bx2 b - bx1 b) * pos_scale self)
    (0 <? mask_sum m)%Z.


(** The shapes the method promises for a level of [g] x [g] cells: a
    (g, g) label grid, and g * g entries in [pos_mask] and in
    [mask_target]. *)
Definition grid_shaped (g : nat) (tg : targets) : Prop :=
  length (labels tg) = g /\
  Forall (fun row => length row = g) (labels tg) /\
  length (pos_mask tg) = (g * g)%nat /\
  length (mask_target tg) = (g * g)%nat.

(** *** Example: one instance on a 16 x 16 image and a 4 x 4 grid *)

Definition blob (r0 r1 c0 c1 h w : nat) : mask :=
  map (fun r =>
         map (fun c => if (r0 <=? r)%nat && (r <? r1)%nat
                          && (c0 <=? c)%nat && (c <? c1)%nat
                       then 1%N else 0%N) (seq 0 w)) (seq 0 h).

Definition one_level_head : t := mkHead 80 [8] [(1, 64)] (2 # 10) [4%nat].
Definition blob_level : level := mkLevel 1 64 8 (4, 4)%nat 4.
Definition blob_mask : mask := blob 4 12 6 14 16 16.
Definition blob_box : Box := mkBox 6 4 14 12.

End SOLOHead.

(** * Properties *)

(** ** The error monad and scalars *)

Lemma Qltb_true (a b : Q) : Qltb a b = true <-> a < b.
Proof.
  unfold Qltb. rewrite negb_true_iff. split.
  - intros H. apply Qnot_le_lt. intros Hle.
    apply Qle_bool_iff in Hle. congruence.
  - intros H. destruct (Qle_bool b a) eqn:E; [|reflexivity].
    apply Qle_bool_iff in E. exfalso. exact (Qlt_not_le _ _ H E).
Qed.

Lemma Qltb_false (a b : Q) : Qltb a b = false <-> b <= a.
Proof.
  unfold Qltb. rewrite negb_false_iff. apply Qle_bool_iff.
Qed.

Lemma py_max_lower (a b : Q) : a <= py_max a b /\ b <= py_max a b.
Proof.
  unfold py_max. destruct (Qltb a b) eqn:E.
  - apply Qltb_true in E. split; [apply Qlt_le_weak; exact E | apply Qle_refl].
  - apply Qltb_false in E. split; [apply Qle_refl | exact E].
Qed.

Lemma py_max_cases (a b : Q) : py_max a b = a \/ py_max a b = b.
Proof. unfold py_max. destruct (Qltb a b); auto. Qed.

Lemma py_min_upper (a b : Q) : py_min a b <= a /\ py_min a b <= b.
Proof.
  unfold py_min. destruct (Qltb b a) eqn:E.
  - apply Qltb_true in E. split; [apply Qlt_le_weak; exact E | apply Qle_refl].
  - apply Qltb_false in E. split; [apply Qle_refl | exact E].
Qed.

Lemma insert_sorted_perm (x : Q) (l : list Q) :
  Permutation (insert_sorted x l) (x :: l).
Proof.
  induction l as [|y l IH]; simpl.
  - apply Permutation_refl.
  - destruct (Qle_bool x y).
    + apply Permutation_refl.
    + eapply perm_trans; [apply perm_skip, IH | apply perm_swap].
Qed.

Lemma sorted_perm (l : list Q) : Permutation (sorted l) l.
Proof.
  induction l as [|x l IH]; simpl.
  - constructor.
  - eapply perm_trans; [apply insert_sorted_perm | apply perm_skip, IH].
Qed.

Lemma sorted_length (l : list Q) : length (sorted l) = length l.
Proof. apply Permutation_length, sorted_perm. Qed.

Lemma insert_sorted_ascending (x : Q) (l : list Q) :
  StronglySorted Qle l -> StronglySorted Qle (insert_sorted x l).
Proof.
  induction 1 as [|y l Hs IH Hall]; simpl.
  - constructor; constructor.
  - destruct (Qle_bool x y) eqn:E.
    + apply Qle_bool_iff in E. constructor.
      * constructor; assumption.
      * constructor; [exact E|].
        eapply Forall_impl; [|exact Hall].
        intros z Hz. eapply Qle_trans; eassumption.
    + constructor; [exact IH|].
      assert (Hyx : y <= x).
      { apply Qlt_le_weak, Qltb_true. unfold Qltb. now rewrite E. }
      eapply Permutation_Forall.
      * apply Permutation_sym, insert_sorted_perm.
      * constructor; assumption.
Qed.

Lemma sorted_ascending (l : list Q) : StronglySorted Qle (sorted l).
Proof.
  induction l as [|x l IH]; simpl.
  - constructor.
  - apply insert_sorted_ascending, IH.
Qed.

Lemma py_index_in_range {A : Type} (l : list A) (i : Z) :
  (0 <= i < Z.of_nat (length l))%Z ->
  exists a, nth_error l (Z.to_nat i) = Some a /\ py_index l i = Ok a.
Proof.
  intros Hi. unfold py_index.
  destruct (Z.ltb_spec i 0); [lia|].
  destruct (Z.ltb_spec i 0); [lia|].
  destruct (nth_error l (Z.to_nat i)) as [a|] eqn:E.
  - exists a. auto.
  - apply nth_error_None in E. lia.
Qed.

(** ** The error monad over lists *)

Lemma bind_ok {A B : Type} (a : A) (k : A -> result B) : bind (Ok a) k = k a.
Proof. reflexivity. Qed.

Lemma mapM_ok_length {A B : Type} (f : A -> result B) (l : list A)
    (out : list B) :
  mapM f l = Ok out -> length out = length l.
Proof.
  revert out. induction l as [|a l IH]; intros out H; simpl in H.
  - injection H as <-. reflexivity.
  - destruct (f a) as [b|e]; simpl in H; [|discriminate].
    destruct (mapM f l) as [bs|e]; simpl in H; [|discriminate].
    injection H as <-. simpl. f_equal. apply IH. reflexivity.
Qed.

Lemma mapM_ok_nth {A B : Type} (f : A -> result B) (l : list A)
    (out : list B) (k : nat) (a : A) :
  mapM f l = Ok out -> nth_error l k = Some a ->
  exists b, nth_error out k = Some b /\ f a = Ok b.
Proof.
  revert out k. induction l as [|x l IH]; intros out k H Hk.
  - destruct k; discriminate.
  - simpl in H. destruct (f x) as [b|e] eqn:Ef; simpl in H; [|discriminate].
    destruct (mapM f l) as [bs|e]; simpl in H; [|discriminate].
    injection H as <-. destruct k as [|k]; simpl in *.
    + injection Hk as <-. exists b. auto.
    + apply IH; auto.
Qed.

Lemma mapM_total {A B : Type} (f : A -> result B) (g : A -> B) (l : list A) :
  (forall a, In a l -> f a = Ok (g a)) -> mapM f l = Ok (map g l).
Proof.
  induction l as [|x l IH]; intros H; simpl.
  - reflexivity.
  - rewrite (H x) by (simpl; auto). simpl.
    rewrite IH by (intros a Ha; apply H; simpl; auto). reflexivity.
Qed.

Lemma mapM_raises {A B : Type} (f : A -> result B) (l : list A) (a : A) :
  In a l -> raises (f a) -> raises (mapM f l).
Proof.
  induction l as [|x l IH]; intros Hin Hr; [contradiction|].
  simpl. destruct (f x) as [b|e] eqn:Ef; simpl; [|eexists; reflexivity].
  destruct Hin as [->|Hin].
  - destruct Hr as (e & He). congruence.
  - destruct (IH Hin Hr) as (e & ->). simpl. eexists; reflexivity.
Qed.

(** ** DynamicRoIHead *)

Module DynamicRoIHeadFacts.
Import DynamicRoIHead.

Lemma window_mean_is_mean (st : state) :
  window_full st -> window_mean st = mean (cur_iou st).
Proof.
  intros (_ & Hlen & _). unfold window_mean, mean. now rewrite Hlen.
Qed.

(** C2 (as the code has it). On a full window with a SmoothL1 loss,
    [update_statistics] returns; the threshold it returns and stores is
    [max(initial_iou, mean(cur_iou))], never below [initial_iou]; the beta it
    returns and stores is [min(initial_beta, kth)] for [kth] the entry at
    index [iteration_count // 2] of the ascending sort of the beta window,
    never above [initial_beta]; both buffers are empty afterwards. *)
Theorem update_statistics_on_full_window (st : state) :
  window_full st ->
  loss_bbox st = SmoothL1Loss ->
  exists kth st',
    nth_error (sorted (cur_beta st)) (Z.to_nat (iteration_count st / 2))
      = Some kth /\
    Permutation (sorted (cur_beta st)) (cur_beta st) /\
    StronglySorted Qle (sorted (cur_beta st)) /\
    let thr := py_max (initial_iou st) (mean (cur_iou st)) in
    let beta := py_min (initial_beta st) kth in
    update_statistics st = (st', Ok (thr, beta)) /\
    initial_iou st <= thr /\
    mean (cur_iou st) <= thr /\
    beta <= initial_beta st /\
    beta <= kth /\
    cur_iou st' = [] /\
    cur_beta st' = [] /\
    pos_iou_thr st' = thr /\
    loss_bbox_beta st' = beta.
Proof.
  intros Hfull Hloss.
  pose proof (window_mean_is_mean st Hfull) as Hmean.
  destruct Hfull as (Hpos & Hiou & Hbeta).
  destruct (py_index_in_range (sorted (cur_beta st)) (iteration_count st / 2))
    as (kth & Hnth & Hidx).
  { rewrite sorted_length, Hbeta. split.
    - apply Z.div_pos; lia.
    - apply Z.div_lt; lia. }
  exists kth.
  eexists. split; [exact Hnth|].
  split; [apply sorted_perm|].
  split; [apply sorted_ascending|].
  cbv zeta. split.
  - unfold update_statistics.
    destruct (Z.eqb_spec (iteration_count st) 0); [lia|].
    rewrite Hidx, Hloss. unfold new_iou_thr. rewrite Hmean. reflexivity.
  - simpl. repeat split;
      try apply py_max_lower; try apply py_min_upper.
Qed.

(** C2, witness: the two-sample window [small_targets]. *)
Lemma update_statistics_on_full_window_witness :
  exists kth st',
    nth_error (sorted (cur_beta small_targets))
              (Z.to_nat (iteration_count small_targets / 2)) = Some kth /\
    Permutation (sorted (cur_beta small_targets)) (cur_beta small_targets) /\
    StronglySorted Qle (sorted (cur_beta small_targets)) /\
    let thr := py_max (initial_iou small_targets)
                      (mean (cur_iou small_targets)) in
    let beta := py_min (initial_beta small_targets) kth in
    update_statistics small_targets = (st', Ok (thr, beta)) /\
    initial_iou small_targets <= thr /\
    mean (cur_iou small_targets) <= thr /\
    beta <= initial_beta small_targets /\
    beta <= kth /\
    cur_iou st' = [] /\
    cur_beta st' = [] /\
    pos_iou_thr st' = thr /\
    loss_bbox_beta st' = beta.
Proof.
  apply (update_statistics_on_full_window small_targets).
  - unfold window_full. simpl. lia.
  - reflexivity.
Defined.

(** C2, counterexample: on the full window [small_targets] the new beta is
    1/2, below the initial beta 1: the beta is not kept from falling below
    its initial value. *)
Lemma update_statistics_beta_falls_below_initial :
  window_full small_targets /\
  snd (update_statistics small_targets) = Ok (140 # 200, 1 # 2) /\
  (1 # 2) < initial_beta small_targets.
Proof.
  split; [unfold window_full; simpl; lia|].
  split; reflexivity.
Qed.

(** C10. Whenever [iteration_count] is not zero, whether the call then
    returns or raises, it leaves the one new threshold in [pos_iou_thr],
    [neg_iou_thr] and [min_pos_iou], so the positive and the negative
    threshold are equal; a call that returns returns that threshold. *)
Theorem update_statistics_writes_three_thresholds (st : state) :
  iteration_count st <> 0%Z ->
  let st' := fst (update_statistics st) in
  pos_iou_thr st' = new_iou_thr st /\
  neg_iou_thr st' = new_iou_thr st /\
  min_pos_iou st' = new_iou_thr st /\
  pos_iou_thr st' = neg_iou_thr st' /\
  (forall thr beta,
      snd (update_statistics st) = Ok (thr, beta) -> thr = new_iou_thr st).
Proof.
  intros Hic. unfold update_statistics.
  destruct (Z.eqb_spec (iteration_count st) 0) as [|_]; [contradiction|].
  destruct (py_index _ _) as [kth|e]; [destruct (loss_bbox st)|]; simpl;
    repeat split; intros thr beta H; congruence.
Qed.

(** C10, witness: [small_targets], whose [iteration_count] is 2. *)
Lemma update_statistics_writes_three_thresholds_witness :
  let st' := fst (update_statistics small_targets) in
  pos_iou_thr st' = new_iou_thr small_targets /\
  neg_iou_thr st' = new_iou_thr small_targets /\
  min_pos_iou st' = new_iou_thr small_targets /\
  pos_iou_thr st' = neg_iou_thr st' /\
  (forall thr beta,
      snd (update_statistics small_targets) = Ok (thr, beta) ->
      thr = new_iou_thr small_targets).
Proof.
  apply (update_statistics_writes_three_thresholds small_targets).
  simpl. lia.
Defined.

(** *** The training step *)

Lemma py_index_last {A : Type} (l : list A) (d : A) :
  l <> [] -> py_index l (-1) = Ok (nth (length l - 1) l d).
Proof.
  intros Hl. unfold py_index.
  assert (Hlen : (0 < length l)%nat) by (destruct l; [congruence | simpl; lia]).
  change (-1 <? 0)%Z with true. cbv iota.
  destruct (Z.ltb_spec (-1 + Z.of_nat (length l)) 0); [lia|].
  replace (Z.to_nat (-1 + Z.of_nat (length l))) with (length l - 1)%nat by lia.
  rewrite (nth_error_nth' l d) by lia. reflexivity.
Qed.

Lemma descending_length (l : list Q) : length (descending l) = length l.
Proof. unfold descending. now rewrite length_rev, sorted_length. Qed.

Lemma topk_last_ok (ov : list Q) (k : Z) :
  ov <> [] -> (1 <= k)%Z ->
  topk_last ov (Z.min k (Z.of_nat (length ov))) = Ok (kth_largest k ov).
Proof.
  intros Hov Hk. unfold topk_last, kth_largest.
  assert (Hlen : (0 < length ov)%nat)
    by (destruct ov; [congruence | simpl; lia]).
  set (k' := Z.min k (Z.of_nat (length ov))).
  assert (Hk' : (1 <= k' <= Z.of_nat (length ov))%Z) by (unfold k'; lia).
  destruct (Z.ltb_spec k' 0); [lia|].
  destruct (Z.ltb_spec (Z.of_nat (length ov)) k'); [lia|]. cbn [orb].
  rewrite (py_index_last _ 0).
  - rewrite length_firstn, descending_length.
    rewrite Nat.min_l by lia.
    rewrite nth_firstn.
    destruct (Nat.ltb_spec (Z.to_nat k' - 1) (Z.to_nat k')); [reflexivity | lia].
  - intros E. apply (f_equal (@length Q)) in E.
    rewrite length_firstn, descending_length in E. simpl in E. lia.
Qed.

Lemma iou_sample_ok (st : state) (b : batch) :
  max_overlaps b <> [] -> Forall (fun ov => ov <> []) (max_overlaps b) ->
  (1 <= k_i st)%Z ->
  iou_sample st b = Ok (iou_of st b).
Proof.
  intros Hne Hall Hk. unfold iou_sample, iou_of, mean.
  rewrite (mapM_total _ (kth_largest (k_i st))).
  - rewrite bind_ok, length_map.
    destruct (Z.eqb_spec (Z.of_nat (length (max_overlaps b))) 0) as [E|E];
      [|reflexivity].
    destruct (max_overlaps b); [congruence | simpl in E; lia].
  - intros ov Hin. rewrite Forall_forall in Hall.
    apply topk_last_ok; [apply Hall, Hin | exact Hk].
Qed.

Lemma pos_inds_in_range (w : list (Q * Q * Q * Q)) (i : nat) :
  In i (pos_inds w) -> (i < length w)%nat.
Proof.
  unfold pos_inds. intros Hin. apply in_map_iff in Hin.
  destruct Hin as ([j x] & <- & Hin). apply filter_In in Hin.
  destruct Hin as [Hin _]. apply in_combine_l in Hin. apply in_seq in Hin.
  simpl. lia.
Qed.

Lemma cur_target_ok (b : batch) :
  length (bbox_targets b) = length (bbox_weights b) ->
  cur_target (bbox_targets b) (pos_inds (bbox_weights b))
  = Ok (positive_targets b).
Proof.
  intros Hlen. unfold cur_target, positive_targets.
  apply mapM_total. intros i Hin. apply pos_inds_in_range in Hin.
  rewrite (nth_error_nth' _ (0, 0, 0, 0)) by lia.
  destruct (nth i (bbox_targets b) (0, 0, 0, 0)) as [[[t0 t1] t2] t3].
  reflexivity.
Qed.

Lemma kthvalue_ok (t : list Q) (k : Z) :
  (1 <= k <= Z.of_nat (length t))%Z ->
  kthvalue t k = Ok (nth (Z.to_nat k - 1) (sorted t) 0).
Proof.
  intros Hk. unfold kthvalue.
  destruct t as [|x t']; [simpl in Hk; lia|]. cbv iota.
  set (t := x :: t') in *.
  destruct (Z.ltb_spec k 1); [lia|].
  destruct (Z.ltb_spec (Z.of_nat (length t)) k); [lia|]. cbn [orb].
  destruct (py_index_in_range (sorted t) (k - 1)) as (a & Ha & ->).
  - rewrite sorted_length. lia.
  - f_equal. replace (Z.to_nat (k - 1)) with (Z.to_nat k - 1)%nat in Ha by lia.
    symmetry. apply nth_error_nth. exact Ha.
Qed.

Lemma beta_sample_ok (st : state) (b : batch) :
  usable st b -> beta_sample st b = Ok (beta_of st b).
Proof.
  intros (Hne & _ & Hpos & Hlen & _ & Hk). unfold beta_sample, beta_of.
  rewrite (cur_target_ok b Hlen), bind_ok.
  apply kthvalue_ok. unfold positive_targets. rewrite length_map.
  assert ((0 < length (max_overlaps b))%nat)
    by (destruct (max_overlaps b); [congruence | simpl; lia]).
  assert ((0 < length (pos_inds (bbox_weights b)))%nat)
    by (destruct (pos_inds (bbox_weights b)); [congruence | simpl; lia]).
  nia.
Qed.

(** [update_statistics] on a full window: the state it leaves, for either
    class of the loss. *)
Lemma update_statistics_full (st : state) :
  (0 < iteration_count st)%Z ->
  Z.of_nat (length (cur_beta st)) = iteration_count st ->
  let thr := new_iou_thr st in
  let beta := py_min (initial_beta st)
                     (nth (Z.to_nat (iteration_count st / 2))
                          (sorted (cur_beta st)) 0) in
  let st2 := set_cur_beta (set_assigner_thr (set_cur_iou st []) thr) [] in
  update_statistics st
  = match loss_bbox st with
    | SmoothL1Loss => (set_loss_beta st2 beta, Ok (thr, beta))
    | OtherLoss => (st2, Raise AssertionError)
    end.
Proof.
  intros Hn Hlen. cbv zeta. unfold update_statistics.
  destruct (Z.eqb_spec (iteration_count st) 0); [lia|].
  destruct (py_index_in_range (sorted (cur_beta st)) (iteration_count st / 2))
    as (kth & Hnth & ->).
  - rewrite sorted_length, Hlen. split.
    + apply Z.div_pos; lia.
    + apply Z.div_lt_upper_bound; lia.
  - rewrite (nth_error_nth _ _ 0 Hnth). reflexivity.
Qed.

Lemma forward_train_appends (with_mask : bool) (st : state) (b : batch) :
  usable st b ->
  let st2 := set_cur_beta (set_cur_iou st (cur_iou st ++ [iou_of st b]))
                          (cur_beta st ++ [beta_of st b]) in
  forward_train true with_mask st b
  = if (iteration_count st =? 0)%Z then (st2, Some (PyExn ZeroDivisionError))
    else if (Z.of_nat (length (cur_iou st ++ [iou_of st b]))
             mod iteration_count st =? 0)%Z
    then match update_statistics st2 with
         | (st3, Ok _) => (st3, None)
         | (st3, Raise e) => (st3, Some (PyExn e))
         end
    else (st2, None).
Proof.
  intros Hu. pose proof Hu as (Hne & Hall & _ & _ & Hki & _).
  cbv zeta. unfold forward_train. cbn [orb].
  rewrite (iou_sample_ok st b Hne Hall Hki), bind_ok.
  rewrite (beta_sample_ok (set_cur_iou st (cur_iou st ++ [iou_of st b])) b)
    by exact Hu.
  rewrite bind_ok. rewrite andb_false_r. reflexivity.
Qed.

(** A step on a usable batch, whether or not it fills the window and
    whatever the class of the loss. *)
Lemma forward_train_usable (with_mask : bool) (st : state) (b : batch) :
  length (cur_beta st) = length (cur_iou st) ->
  (Z.of_nat (length (cur_iou st)) < iteration_count st)%Z ->
  usable st b ->
  let ious := cur_iou st ++ [iou_of st b] in
  let betas := cur_beta st ++ [beta_of st b] in
  let thr := py_max (initial_iou st) (mean ious) in
  let beta := py_min (initial_beta st)
                     (nth (Z.to_nat (iteration_count st / 2))
                          (sorted betas) 0) in
  exists st',
    settings st' = settings st /\
    if (Z.of_nat (length ious) <? iteration_count st)%Z
    then forward_train true with_mask st b = (st', None) /\
         cur_iou st' = ious /\ cur_beta st' = betas /\
         thresholds st' = thresholds st
    else cur_iou st' = [] /\ cur_beta st' = [] /\
         match loss_bbox st with
         | SmoothL1Loss =>
             forward_train true with_mask st b = (st', None) /\
             thresholds st' = (thr, thr, thr, beta)
         | OtherLoss =>
             forward_train true with_mask st b
             = (st', Some (PyExn AssertionError)) /\
             thresholds st' = (thr, thr, thr, loss_bbox_beta st)
         end.
Proof.
  intros Hlen Hj Hu. cbv zeta.
  rewrite (forward_train_appends with_mask st b Hu).
  destruct (Z.eqb_spec (iteration_count st) 0); [lia|].
  set (ious := cur_iou st ++ [iou_of st b]).
  set (betas := cur_beta st ++ [beta_of st b]).
  assert (Hl : Z.of_nat (length ious) = (Z.of_nat (length (cur_iou st)) + 1)%Z)
    by (unfold ious; rewrite length_app; simpl; lia).
  assert (Hlb : length betas = length ious)
    by (unfold ious, betas; rewrite !length_app, Hlen; reflexivity).
  destruct (Z.ltb_spec (Z.of_nat (length ious)) (iteration_count st))
    as [Hlt|Hge].
  - rewrite Z.mod_small by lia.
    destruct (Z.eqb_spec (Z.of_nat (length ious)) 0); [lia|].
    eexists. split; [|split; [reflexivity|]]; repeat split.
  - assert (Hfull : Z.of_nat (length ious) = iteration_count st) by lia.
    rewrite Hfull, Z_mod_same_full. cbn [Z.eqb].
    rewrite update_statistics_full; [| simpl; lia | simpl; fold betas; lia ].
    assert (Hthr : new_iou_thr (set_cur_beta (set_cur_iou st ious) betas)
                   = py_max (initial_iou st) (mean ious)).
    { unfold new_iou_thr, window_mean, mean. cbn. rewrite Hfull. reflexivity. }
    cbn [loss_bbox set_cur_beta set_cur_iou].
    destruct (loss_bbox st) eqn:El.
    + eexists. split; [|split; [|split; [|split; [reflexivity|]]]].
      * unfold settings. cbn. rewrite El. reflexivity.
      * reflexivity.
      * reflexivity.
      * unfold thresholds. cbn.
        fold (set_cur_iou st ious).
        fold (set_cur_beta (set_cur_iou st ious) betas).
        rewrite Hthr. reflexivity.
    + eexists. split; [|split; [|split; [|split; [reflexivity|]]]].
      * unfold settings. cbn. rewrite El. reflexivity.
      * reflexivity.
      * reflexivity.
      * unfold thresholds. cbn.
        fold (set_cur_iou st ious).
        fold (set_cur_beta (set_cur_iou st ious) betas).
        rewrite Hthr. reflexivity.
Qed.

(** X1. One training step of a head with a bbox head, on a usable batch,
    from buffers of one length that is below [iteration_count]. The step
    appends the batch's IoU statistic to [cur_iou] and its beta statistic to
    [cur_beta]. While the window stays short of [iteration_count] the call
    returns and nothing else changes. When the step fills the window, the
    three thresholds become [max(initial_iou, mean of the window)] and both
    buffers are emptied; then a head whose bbox loss is a SmoothL1Loss
    returns with the beta [min(initial_beta, median entry of the sorted beta
    window)], and a head with another loss raises AssertionError with its
    beta unchanged. *)
Theorem forward_train_step (with_mask : bool) (st : state) (b : batch) :
  length (cur_beta st) = length (cur_iou st) ->
  (Z.of_nat (length (cur_iou st)) < iteration_count st)%Z ->
  usable st b ->
  let ious := cur_iou st ++ [iou_of st b] in
  let betas := cur_beta st ++ [beta_of st b] in
  let thr := py_max (initial_iou st) (mean ious) in
  let beta := py_min (initial_beta st)
                     (nth (Z.to_nat (iteration_count st / 2))
                          (sorted betas) 0) in
  exists st',
    settings st' = settings st /\
    if (Z.of_nat (length ious) <? iteration_count st)%Z
    then forward_train true with_mask st b = (st', None) /\
         cur_iou st' = ious /\ cur_beta st' = betas /\
         thresholds st' = thresholds st
    else cur_iou st' = [] /\ cur_beta st' = [] /\
         match loss_bbox st with
         | SmoothL1Loss =>
             forward_train true with_mask st b = (st', None) /\
             thresholds st' = (thr, thr, thr, beta)
         | OtherLoss =>
             forward_train true with_mask st b
             = (st', Some (PyExn AssertionError)) /\
             thresholds st' = (thr, thr, thr, loss_bbox_beta st)
         end.
Proof. exact (forward_train_usable with_mask st b). Qed.

Lemma usable_settings (st st' : state) (b : batch) :
  settings st' = settings st -> usable st b -> usable st' b.
Proof.
  unfold settings, usable. intros E. injection E as -> -> _ _ _ _. auto.
Qed.

Lemma statistics_settings (st st' : state) (b : batch) :
  settings st' = settings st ->
  iou_of st' b = iou_of st b /\ beta_of st' b = beta_of st b.
Proof.
  unfold settings, iou_of, beta_of. intros E. injection E as -> -> _ _ _ _.
  auto.
Qed.

Lemma train_app (wb wm : bool) (bs1 bs2 : list batch) (st : state) :
  train wb wm st (bs1 ++ bs2)
  = match train wb wm st bs1 with
    | (st', None) => train wb wm st' bs2
    | (st', Some e) => (st', Some e)
    end.
Proof.
  revert st. induction bs1 as [|b bs1 IH]; intros st; simpl; [reflexivity|].
  destruct (forward_train wb wm st b) as [st' [e|]]; [reflexivity | apply IH].
Qed.

(** The buffers along a run of usable batches that either stays short of
    the window or goes through a head with a SmoothL1Loss: the run does not
    raise, and both buffers hold, after every step, the number of steps
    taken so far modulo [iteration_count]. *)
Lemma train_invariant (with_mask : bool) (bs : list batch) (st : state) :
  length (cur_beta st) = length (cur_iou st) ->
  (Z.of_nat (length (cur_iou st)) < iteration_count st)%Z ->
  Forall (usable st) bs ->
  loss_bbox st = SmoothL1Loss \/
  (Z.of_nat (length (cur_iou st)) + Z.of_nat (length bs)
   < iteration_count st)%Z ->
  exists st',
    train true with_mask st bs = (st', None) /\
    settings st' = settings st /\
    Z.of_nat (length (cur_iou st'))
    = ((Z.of_nat (length (cur_iou st)) + Z.of_nat (length bs))
       mod iteration_count st)%Z /\
    length (cur_beta st') = length (cur_iou st') /\
    ((Z.of_nat (length (cur_iou st)) + Z.of_nat (length bs)
      < iteration_count st)%Z ->
     cur_iou st' = cur_iou st ++ map (iou_of st) bs /\
     cur_beta st' = cur_beta st ++ map (beta_of st) bs /\
     thresholds st' = thresholds st).
Proof.
  revert st. induction bs as [|b bs IH]; intros st Hlen Hj Hall Hcase0.
  - exists st. simpl. rewrite Z.add_0_r, Z.mod_small, !app_nil_r by lia.
    repeat split; auto.
  - inversion Hall as [|? ? Hb Hrest]; subst.
    destruct (forward_train_usable with_mask st b Hlen Hj Hb)
      as (st1 & Hset & Hcase).
    cbv zeta in Hcase.
    assert (Hset' := Hset). unfold settings in Hset'.
    injection Hset' as Eki Eke En Eii Eib El.
    assert (Hrest1 : Forall (usable st1) bs).
    { eapply Forall_impl; [|exact Hrest].
      intros b'. apply usable_settings. exact Hset. }
    assert (Hl : Z.of_nat (length (cur_iou st ++ [iou_of st b]))
                 = (Z.of_nat (length (cur_iou st)) + 1)%Z)
      by (rewrite length_app; simpl; lia).
    assert (Hstat : forall b', iou_of st1 b' = iou_of st b' /\
                               beta_of st1 b' = beta_of st b')
      by (intros b'; apply statistics_settings; exact Hset).
    cbn [train].
    destruct (Z.ltb_spec (Z.of_nat (length (cur_iou st ++ [iou_of st b])))
                         (iteration_count st)) as [Hlt|Hge].
    + destruct Hcase as (Hstep & Hi & Hb' & Hthr). rewrite Hstep.
      destruct (IH st1) as (st' & Hrun & Hset2 & Hmod & Hlen2 & Hshort).
      { rewrite Hi, Hb', !length_app, Hlen. reflexivity. }
      { rewrite Hi, En. lia. }
      { exact Hrest1. }
      { destruct Hcase0 as [Hloss|Hs]; [left; congruence | right].
        rewrite Hi, Hl, En. simpl length in Hs. lia. }
      exists st'. split; [exact Hrun|]. split; [congruence|].
      split.
      { rewrite Hmod, Hi, Hl, En. f_equal. simpl length. lia. }
      split; [exact Hlen2|].
      intros Hs. destruct Hshort as (H1 & H2 & H3).
      { rewrite Hi, Hl, En. simpl length in Hs. lia. }
      rewrite H1, H2, H3, Hi, Hb', Hthr, <- !app_assoc. simpl.
      repeat split; f_equal; f_equal; apply map_ext; intros b'; apply Hstat.
    + destruct Hcase0 as [Hloss|Hs]; [|simpl length in Hs; lia].
      rewrite Hloss in Hcase. destruct Hcase as (Hi & Hb' & Hstep & _).
      rewrite Hstep.
      destruct (IH st1) as (st' & Hrun & Hset2 & Hmod & Hlen2 & _).
      { now rewrite Hi, Hb'. }
      { rewrite Hi, En. simpl. lia. }
      { exact Hrest1. }
      { left. congruence. }
      exists st'. split; [exact Hrun|]. split; [congruence|].
      split.
      { rewrite Hmod, Hi, En. simpl length.
        replace (Z.of_nat (length (cur_iou st)) + Z.of_nat (S (length bs)))%Z
          with (Z.of_nat 0 + Z.of_nat (length bs) + 1 * iteration_count st)%Z
          by lia.
        now rewrite Z_mod_plus_full. }
      split; [exact Hlen2|].
      intros Hs. simpl length in Hs. lia.
Qed.

(** The run up to the step that fills a window started from empty
    buffers. *)
Lemma train_fills_window (with_mask : bool) (st : state)
    (bs0 : list batch) (b : batch) :
  cur_iou st = [] -> cur_beta st = [] ->
  Forall (usable st) (bs0 ++ [b]) ->
  Z.of_nat (length (bs0 ++ [b])) = iteration_count st ->
  let thr := py_max (initial_iou st) (mean (map (iou_of st) (bs0 ++ [b]))) in
  let beta := py_min (initial_beta st)
                     (nth (Z.to_nat (iteration_count st / 2))
                          (sorted (map (beta_of st) (bs0 ++ [b]))) 0) in
  exists st0 st1,
    train true with_mask st bs0 = (st0, None) /\
    cur_iou st1 = [] /\ cur_beta st1 = [] /\
    match loss_bbox st with
    | SmoothL1Loss =>
        forward_train true with_mask st0 b = (st1, None) /\
        thresholds st1 = (thr, thr, thr, beta)
    | OtherLoss =>
        forward_train true with_mask st0 b
        = (st1, Some (PyExn AssertionError)) /\
        thresholds st1 = (thr, thr, thr, loss_bbox_beta st)
    end.
Proof.
  intros Hi Hb Hall Hfull. cbv zeta.
  rewrite length_app in Hfull. simpl in Hfull.
  apply Forall_app in Hall. destruct Hall as [Hall0 Hlast].
  inversion Hlast as [|? ? Hub _]; subst.
  destruct (train_invariant with_mask bs0 st) as
    (st0 & Hrun0 & Hset0 & _ & _ & Hshort0);
    [now rewrite Hi, Hb | rewrite Hi; simpl; lia | exact Hall0
    | right; rewrite Hi; simpl; lia |].
  rewrite Hi, Hb in Hshort0. simpl in Hshort0.
  destruct Hshort0 as (Hi0 & Hb0 & Hthr0); [lia|].
  assert (Hset0' := Hset0). unfold settings in Hset0'.
  injection Hset0' as Eki Eke En Eii Eib El.
  destruct (forward_train_usable with_mask st0 b) as (st1 & _ & Hcase).
  { now rewrite Hi0, Hb0, !length_map. }
  { rewrite Hi0, length_map. lia. }
  { apply (usable_settings st); assumption. }
  cbv zeta in Hcase.
  destruct (statistics_settings st st0 b Hset0) as [Es Eb].
  rewrite Hi0, Hb0, Es, Eb, En, Eii, Eib, El in Hcase.
  rewrite <- !map_last in Hcase.
  destruct (Z.ltb_spec (Z.of_nat (length (map (iou_of st) (bs0 ++ [b]))))
                       (iteration_count st)) as [Hlt|_].
  { rewrite length_map, length_app in Hlt. simpl in Hlt. lia. }
  destruct Hcase as (Hc1 & Hc2 & Hc3).
  exists st0, st1. split; [exact Hrun0|]. split; [exact Hc1|].
  split; [exact Hc2|].
  assert (Hbeta : loss_bbox_beta st0 = loss_bbox_beta st).
  { unfold thresholds in Hthr0. now injection Hthr0. }
  rewrite Hbeta in Hc3. exact Hc3.
Qed.

Lemma firstn_snoc {A : Type} (l : list A) (k : nat) (d : A) :
  (k < length l)%nat ->
  exists rest, l = (firstn k l ++ [nth k l d]) ++ rest /\
               firstn (S k) l = firstn k l ++ [nth k l d].
Proof.
  revert k. induction l as [|x l IH]; intros k Hk; simpl in Hk; [lia|].
  destruct k as [|k].
  - exists l. split; reflexivity.
  - destruct (IH k) as (rest & E1 & E2); [lia|].
    exists rest.
    change (firstn (S (S k)) (x :: l)) with (x :: firstn (S k) l).
    change (firstn (S k) (x :: l)) with (x :: firstn k l).
    change (nth (S k) (x :: l) d) with (nth k l d).
    split.
    + cbn [app]. f_equal. exact E1.
    + rewrite E2. reflexivity.
Qed.

(** X2. The cadence of the update. From empty buffers, as the constructor
    leaves them, and a positive [iteration_count], a run of usable batches
    through a head with a bbox head. With fewer steps than
    [iteration_count] the run does not raise, the thresholds and the beta
    are untouched and the buffers hold the steps' statistics in order. From
    [iteration_count] steps on, a head whose bbox loss is a SmoothL1Loss
    never raises, both buffers hold as many samples as the number of steps
    modulo [iteration_count], and after exactly [iteration_count] steps the
    three thresholds are [max(initial_iou, mean of the IoU statistics)] and
    the beta is [min(initial_beta, median entry of the sorted beta
    statistics)]; a head with another loss raises AssertionError on the
    step that completes the first window, with the thresholds set, the
    buffers emptied and the beta unchanged. *)
Theorem train_cadence (with_mask : bool) (st : state) (bs : list batch) :
  (0 < iteration_count st)%Z ->
  cur_iou st = [] -> cur_beta st = [] ->
  Forall (usable st) bs ->
  let n := iteration_count st in
  let window := firstn (Z.to_nat n) bs in
  let thr := py_max (initial_iou st) (mean (map (iou_of st) window)) in
  let beta := py_min (initial_beta st)
                     (nth (Z.to_nat (n / 2))
                          (sorted (map (beta_of st) window)) 0) in
  exists st',
    if (Z.of_nat (length bs) <? n)%Z
    then train true with_mask st bs = (st', None) /\
         thresholds st' = thresholds st /\
         cur_iou st' = map (iou_of st) bs /\
         cur_beta st' = map (beta_of st) bs
    else match loss_bbox st with
         | SmoothL1Loss =>
             train true with_mask st bs = (st', None) /\
             Z.of_nat (length (cur_iou st'))
             = (Z.of_nat (length bs) mod n)%Z /\
             length (cur_beta st') = length (cur_iou st') /\
             (Z.of_nat (length bs) = n ->
              thresholds st' = (thr, thr, thr, beta))
         | OtherLoss =>
             train true with_mask st bs
             = (st', Some (PyExn AssertionError)) /\
             cur_iou st' = [] /\ cur_beta st' = [] /\
             thresholds st' = (thr, thr, thr, loss_bbox_beta st)
         end.
Proof.
  intros Hn Hi Hb Hall. cbv zeta.
  destruct (Z.ltb_spec (Z.of_nat (length bs)) (iteration_count st)) as [Hs|Hl].
  - destruct (train_invariant with_mask bs st) as
      (st' & Hrun & _ & _ & _ & Hshort);
      [now rewrite Hi, Hb | rewrite Hi; simpl; lia | exact Hall
      | right; rewrite Hi; simpl; lia |].
    rewrite Hi, Hb in Hshort. simpl in Hshort.
    exists st'. destruct (Hshort Hs) as (H1 & H2 & H3). auto.
  - set (k := (Z.to_nat (iteration_count st) - 1)%nat).
    destruct (firstn_snoc bs k (mkBatch [] [] [])) as (rest & Ebs & Efirst);
      [unfold k; lia|].
    replace (S k) with (Z.to_nat (iteration_count st)) in Efirst
      by (unfold k; lia).
    rewrite Efirst.
    set (bs0 := firstn k bs) in *. set (b := nth k bs (mkBatch [] [] [])) in *.
    assert (Hlen0 : Z.of_nat (length (bs0 ++ [b])) = iteration_count st).
    { rewrite <- Efirst, length_firstn. lia. }
    assert (Hall0 : Forall (usable st) (bs0 ++ [b])).
    { rewrite Ebs in Hall. apply Forall_app in Hall. tauto. }
    destruct (train_fills_window with_mask st bs0 b Hi Hb Hall0 Hlen0)
      as (st0 & st1 & Hrun0 & Hc1 & Hc2 & Hc3).
    cbv zeta in Hc3.
    destruct (loss_bbox st) eqn:El.
    + destruct (train_invariant with_mask bs st) as
        (st' & Hrun & _ & Hmod & Hlen & _);
        [now rewrite Hi, Hb | rewrite Hi; simpl; lia | exact Hall
        | left; exact El |].
      rewrite Hi in Hmod. simpl in Hmod.
      exists st'.
      split; [exact Hrun|]. split; [exact Hmod|]. split; [exact Hlen|].
      intros Hfull.
      assert (Hrest : rest = []).
      { apply (f_equal (@length batch)) in Ebs.
        rewrite length_app in Ebs. destruct rest; [reflexivity|].
        simpl in Ebs. lia. }
      rewrite Hrest, app_nil_r in Ebs.
      destruct Hc3 as (Hstep & Hthr).
      rewrite Ebs, train_app, Hrun0 in Hrun. cbn [train] in Hrun.
      rewrite Hstep in Hrun. injection Hrun as <-. exact Hthr.
    + destruct Hc3 as (Hstep & Hthr).
      exists st1. split; [|auto].
      rewrite Ebs, <- app_assoc, train_app, Hrun0. cbn [app train].
      now rewrite Hstep.
Qed.

(** X3. A batch in which no RoI is positive: the step raises IndexError
    (the [kthvalue] of an empty tensor), after the batch's IoU statistic has
    been appended to [cur_iou] and with [cur_beta] as it was. *)
Theorem forward_train_without_positive (with_mask : bool) (st : state)
    (b : batch) :
  max_overlaps b <> [] ->
  Forall (fun ov => ov <> []) (max_overlaps b) ->
  (1 <= k_i st)%Z ->
  pos_inds (bbox_weights b) = [] ->
  forward_train true with_mask st b
  = (set_cur_iou st (cur_iou st ++ [iou_of st b]), Some (PyExn IndexError)).
Proof.
  intros Hne Hall Hk Hpos. unfold forward_train. cbn [orb].
  rewrite (iou_sample_ok st b Hne Hall Hk), bind_ok.
  unfold beta_sample. rewrite Hpos. cbn [cur_target mapM length].
  rewrite bind_ok. reflexivity.
Qed.

(** X1, witness: the first step of [fresh] on [batch_a], whose second
    largest overlap is 6/10 and whose smallest positive target is 1/8, and
    the step of [other_loss_head], whose window of one step it fills. *)
Lemma forward_train_step_witness :
  (iou_of fresh batch_a == 6 # 10 /\ beta_of fresh batch_a == 1 # 8 /\
   exists st',
     settings st' = settings fresh /\
     forward_train true false fresh batch_a = (st', None) /\
     cur_iou st' = [iou_of fresh batch_a] /\
     cur_beta st' = [beta_of fresh batch_a] /\
     thresholds st' = thresholds fresh) /\
  exists st',
    settings st' = settings other_loss_head /\
    cur_iou st' = [] /\ cur_beta st' = [] /\
    forward_train true false other_loss_head batch_a
    = (st', Some (PyExn AssertionError)) /\
    let thr := py_max (initial_iou other_loss_head)
                      (mean [iou_of other_loss_head batch_a]) in
    thresholds st' = (thr, thr, thr, loss_bbox_beta other_loss_head).
Proof.
  split.
  - split; [reflexivity|]. split; [reflexivity|].
    destruct (forward_train_step false fresh batch_a) as (st' & H1 & H2).
    + reflexivity.
    + reflexivity.
    + unfold usable. repeat split; try discriminate.
      repeat constructor; discriminate.
    + exists st'. split; [exact H1 | exact H2].
  - destruct (forward_train_step false other_loss_head batch_a)
      as (st' & H1 & H2).
    + reflexivity.
    + reflexivity.
    + unfold usable. repeat split; try discriminate.
      repeat constructor; discriminate.
    + exists st'. split; [exact H1 | exact H2].
Defined.

(** X2, witness: three steps of [fresh], whose window is three steps long,
    and two steps of [other_loss_head], whose first step fills its
    window. *)
Lemma train_cadence_witness :
  (exists st',
     train true false fresh [batch_a; batch_b; batch_a] = (st', None) /\
     cur_iou st' = [] /\ cur_beta st' = [] /\
     let bs := [batch_a; batch_b; batch_a] in
     let thr := py_max (initial_iou fresh) (mean (map (iou_of fresh) bs)) in
     thresholds st'
     = (thr, thr, thr,
        py_min (initial_beta fresh)
               (nth (Z.to_nat (iteration_count fresh / 2))
                    (sorted (map (beta_of fresh) bs)) 0))) /\
  exists st',
    train true false other_loss_head [batch_a; batch_b]
    = (st', Some (PyExn AssertionError)) /\
    cur_iou st' = [] /\ cur_beta st' = [] /\
    let thr := py_max (initial_iou other_loss_head)
                      (mean [iou_of other_loss_head batch_a]) in
    thresholds st' = (thr, thr, thr, loss_bbox_beta other_loss_head).
Proof.
  split.
  - destruct (train_cadence false fresh [batch_a; batch_b; batch_a])
      as (st' & Hlong).
    + reflexivity.
    + reflexivity.
    + reflexivity.
    + repeat constructor; try discriminate.
    + destruct Hlong as (Hrun & Hmod & Hlen & Hfull).
      exists st'. split; [exact Hrun|].
      change (Z.of_nat (length (cur_iou st')) = 0%Z) in Hmod.
      assert (Hi : cur_iou st' = [])
        by (destruct (cur_iou st'); [reflexivity | discriminate]).
      rewrite Hi in Hlen.
      assert (Hb : cur_beta st' = [])
        by (destruct (cur_beta st'); [reflexivity | discriminate]).
      split; [exact Hi|]. split; [exact Hb|]. apply Hfull. reflexivity.
  - destruct (train_cadence false other_loss_head [batch_a; batch_b])
      as (st' & Hlong).
    + reflexivity.
    + reflexivity.
    + reflexivity.
    + repeat constructor; try discriminate.
    + exists st'. exact Hlong.
Defined.

(** X3, witness: [batch_without_positive]. *)
Lemma forward_train_without_positive_witness :
  forward_train true false fresh batch_without_positive
  = (set_cur_iou fresh [iou_of fresh batch_without_positive],
     Some (PyExn IndexError)).
Proof.
  apply (forward_train_without_positive false fresh batch_without_positive).
  - discriminate.
  - repeat constructor; discriminate.
  - simpl. lia.
  - reflexivity.
Defined.

End DynamicRoIHeadFacts.

(** ** Lists laid out as flattened tensors *)

Lemma flat_map_uniform_length {A B : Type} (f : A -> list B) (n : nat)
    (l : list A) :
  (forall x, In x l -> length (f x) = n) ->
  length (flat_map f l) = (length l * n)%nat.
Proof.
  induction l as [|x l IH]; intros Hn; simpl.
  - reflexivity.
  - rewrite length_app, (Hn x) by (simpl; auto).
    rewrite IH by (intros y Hy; apply Hn; simpl; auto).
    reflexivity.
Qed.

Lemma nth_error_flat_map_uniform {A B : Type} (f : A -> list B) (n : nat)
    (l : list A) (k i : nat) (x : A) :
  (forall y, In y l -> length (f y) = n) ->
  nth_error l k = Some x ->
  (i < n)%nat ->
  nth_error (flat_map f l) (k * n + i) = nth_error (f x) i.
Proof.
  revert k. induction l as [|y l IH]; intros k Hn Hk Hi.
  - destruct k; discriminate.
  - destruct k as [|k]; simpl in *.
    + injection Hk as ->. apply nth_error_app1.
      rewrite (Hn x) by auto. exact Hi.
    + rewrite nth_error_app2 by (rewrite (Hn y) by auto; lia).
      rewrite (Hn y) by auto.
      replace (n + k * n + i - n)%nat with (k * n + i)%nat by lia.
      apply IH; auto.
Qed.

Lemma tensor_repeat_length {A : Type} (x : list A) (n : nat) :
  length (AnchorGenerator.tensor_repeat x n) = (n * length x)%nat.
Proof.
  unfold AnchorGenerator.tensor_repeat.
  induction n as [|n IH]; simpl.
  - reflexivity.
  - rewrite length_app, IH. reflexivity.
Qed.

Lemma nth_error_tensor_repeat {A : Type} (x : list A) (n k i : nat) :
  (k < n)%nat -> (i < length x)%nat ->
  nth_error (AnchorGenerator.tensor_repeat x n) (k * length x + i)
  = nth_error x i.
Proof.
  unfold AnchorGenerator.tensor_repeat.
  revert k. induction n as [|n IH]; intros k Hk Hi; [lia|].
  simpl. destruct k as [|k]; simpl.
  - apply nth_error_app1. exact Hi.
  - rewrite nth_error_app2 by lia.
    replace (length x + k * length x + i - length x)%nat
      with (k * length x + i)%nat by lia.
    apply IH; lia.
Qed.

Lemma nth_error_combine_some {A B : Type} (l1 : list A) (l2 : list B)
    (k : nat) (a : A) (b : B) :
  nth_error l1 k = Some a -> nth_error l2 k = Some b ->
  nth_error (combine l1 l2) k = Some (a, b).
Proof.
  revert l2 k. induction l1 as [|x l1 IH]; intros [|y l2] [|k] H1 H2;
    simpl in *; try discriminate.
  - congruence.
  - apply IH; assumption.
Qed.

Lemma in_firstn {A : Type} (n : nat) (l : list A) (x : A) :
  In x (firstn n l) -> In x l.
Proof.
  intros H. rewrite <- (firstn_skipn n l). apply in_or_app. auto.
Qed.

Lemma nth_error_seq_lt (start len k : nat) :
  (k < len)%nat -> nth_error (seq start len) k = Some (start + k)%nat.
Proof.
  revert start k. induction len as [|len IH]; intros start k Hk; [lia|].
  destruct k as [|k]; simpl.
  - f_equal. lia.
  - rewrite IH by lia. f_equal. lia.
Qed.

(** ** AnchorGenerator *)

Module AnchorGeneratorFacts.
Import AnchorGenerator.

Lemma outer_length {A B C : Type} (f : A -> B -> C) (xs : list A)
    (ys : list B) :
  length (outer f xs ys) = (length xs * length ys)%nat.
Proof.
  unfold outer. apply flat_map_uniform_length.
  intros x _. apply length_map.
Qed.

Lemma meshgrid_row_major_nth {A : Type} (x y : list A) (i j : nat) (a b : A) :
  nth_error x i = Some a -> nth_error y j = Some b ->
  nth_error (combine (fst (_meshgrid x y true)) (snd (_meshgrid x y true)))
            (j * length x + i) = Some (a, b).
Proof.
  intros Hx Hy. simpl.
  assert (Hi : (i < length x)%nat) by (apply nth_error_Some; congruence).
  assert (Hj : (j < length y)%nat) by (apply nth_error_Some; congruence).
  apply nth_error_combine_some.
  - rewrite nth_error_tensor_repeat by assumption. exact Hx.
  - rewrite (nth_error_flat_map_uniform _ (length x) y j i b);
      [apply nth_error_repeat; exact Hi | | exact Hy | exact Hi].
    intros v _. apply repeat_length.
Qed.

Lemma meshgrid_row_major_length {A : Type} (x y : list A) :
  length (combine (fst (_meshgrid x y true)) (snd (_meshgrid x y true)))
  = (length y * length x)%nat.
Proof.
  simpl. rewrite length_combine, tensor_repeat_length.
  rewrite (flat_map_uniform_length _ (length x))
    by (intros v _; apply repeat_length).
  apply Nat.min_id.
Qed.





Section Torch.

Variable sqrt : Q -> Q.
Variable exp2 : Q -> Q.

Lemma gen_single_level_base_anchors_length (co : Q) (major : bool)
    (base_size : Q) (scales ratios : list Q) (center : option (Q * Q)) :
  length (gen_single_level_base_anchors sqrt co major base_size scales ratios
            center)
  = (length ratios * length scales)%nat.
Proof.
  unfold gen_single_level_base_anchors.
  destruct center as [[cx cy]|]; rewrite length_map, length_combine;
    destruct major; rewrite !outer_length, !length_map; lia.
Qed.

Lemma gen_base_anchors_from_ok (co : Q) (major : bool)
    (scales ratios : list Q) (centers : option (list (Q * Q)))
    (sizes : list Q) (i : nat) :
  match centers with
  | None => True
  | Some cs => (i + length sizes <= length cs)%nat
  end ->
  exists out,
    gen_base_anchors_from sqrt co major scales ratios centers i sizes = Ok out.
Proof.
  revert i. induction sizes as [|size sizes IH]; intros i Hc; simpl.
  - eexists; reflexivity.
  - destruct centers as [cs|].
    + simpl in Hc. destruct (nth_error cs i) as [c|] eqn:E;
        [|apply nth_error_None in E; lia].
      destruct (IH (S i)) as (more & ->); [lia|]. simpl.
      eexists; reflexivity.
    + destruct (IH (S i) I) as (more & ->). simpl. eexists; reflexivity.
Qed.

Lemma gen_base_anchors_from_shape (co : Q) (major : bool)
    (scales ratios : list Q) (centers : option (list (Q * Q)))
    (sizes : list Q) (i : nat) (out : list (list Box)) :
  gen_base_anchors_from sqrt co major scales ratios centers i sizes = Ok out ->
  length out = length sizes /\
  Forall (fun base => length base = (length ratios * length scales)%nat) out.
Proof.
  revert i out. induction sizes as [|size sizes IH]; intros i out H;
    simpl in H.
  - injection H as <-. split; [reflexivity | constructor].
  - destruct (match centers with
              | None => Ok None
              | Some cs => match nth_error cs i with
                           | Some c => Ok (Some c)
                           | None => Raise IndexError
                           end
              end) as [center|e]; simpl in H; [|discriminate].
    destruct (gen_base_anchors_from sqrt co major scales ratios centers (S i)
                sizes) as [more|e] eqn:E; simpl in H; [|discriminate].
    injection H as <-. destruct (IH _ _ E) as [Hlen Hall].
    split; [simpl; now rewrite Hlen|].
    constructor; [apply gen_single_level_base_anchors_length | exact Hall].
Qed.

Lemma octave_scales_length (base : Q) (per_octave : Z) :
  length (octave_scales exp2 base per_octave) = Z.to_nat per_octave.
Proof. unfold octave_scales. rewrite length_map. apply length_seq. Qed.

(** What a successful construction stores. *)
Lemma init_ok_fields (a : init_args) (self : t) :
  init sqrt exp2 a = Ok self ->
  strides self = arg_strides a /\
  ratios self = arg_ratios a /\
  length (base_sizes self) = length (strides self) /\
  gen_base_anchors sqrt (center_offset self) (scale_major self)
    (base_sizes self) (scales self) (ratios self) (centers self)
  = Ok (base_anchors self) /\
  match arg_scales a with
  | Some s => scales self = s
  | None => exists base per_octave,
      arg_octave_base_scale a = Some base /\
      arg_scales_per_octave a = Some per_octave /\
      scales self = octave_scales exp2 base per_octave
  end.
Proof.
  unfold init.
  destruct (negb (Qeq_bool (arg_center_offset a) 0) && is_some (arg_centers a));
    [discriminate|].
  destruct (negb (Qle_bool 0 (arg_center_offset a)
                  && Qle_bool (arg_center_offset a) 1)); [discriminate|].
  set (bs := match arg_base_sizes a with
             | None => map inject_Z (arg_strides a)
             | Some bs => bs
             end).
  destruct (Nat.eqb_spec (length bs) (length (arg_strides a))) as [Hlen|];
    [|discriminate].
  simpl.
  destruct (negb (xorb (is_some (arg_octave_base_scale a)
                        && is_some (arg_scales_per_octave a))
                       (is_some (arg_scales a)))); [discriminate|].
  destruct (arg_scales a) as [s|] eqn:Es.
  - simpl.
    destruct (gen_base_anchors sqrt _ _ bs s _ _) as [anchors|e] eqn:E;
      simpl; [|discriminate].
    intros H. injection H as <-. simpl. auto.
  - destruct (arg_octave_base_scale a) as [base|];
      [destruct (arg_scales_per_octave a) as [per|]|]; simpl;
      try discriminate.
    destruct (gen_base_anchors sqrt _ _ bs _ _ _) as [anchors|e] eqn:E;
      simpl; [|discriminate].
    intros H. injection H as <-. simpl.
    repeat split; auto. exists base, per. auto.
Qed.

Lemma is_some_true {A : Type} (o : option A) : is_some o = true <-> o <> None.
Proof. destruct o; simpl; split; congruence. Qed.

Lemma passes_checks_true (a : init_args) :
  passes_checks a = true <->
  offset_in_range a /\ ~ both_given a /\ ~ neither_given a.
Proof.
  unfold passes_checks, offset_in_range, both_given, neither_given,
    scales_given, octave_given.
  rewrite !andb_true_iff, !Qle_bool_iff.
  destruct (arg_scales a), (arg_octave_base_scale a),
    (arg_scales_per_octave a); simpl; intuition congruence.
Qed.

Lemma init_outcome (a : init_args) :
  shape_consistent a ->
  if passes_checks a then exists self, init sqrt exp2 a = Ok self
  else raises (init sqrt exp2 a).
Proof.
  intros [Hsizes Hcenters]. unfold passes_checks, init.
  assert (Hfirst : negb (Qeq_bool (arg_center_offset a) 0)
                   && is_some (arg_centers a) = false).
  { destruct (arg_centers a) as [cs|]; [|apply andb_false_r].
    destruct Hcenters as [Hz _]. apply Qeq_bool_iff in Hz.
    now rewrite Hz. }
  rewrite Hfirst.
  destruct (Qle_bool 0 (arg_center_offset a)
            && Qle_bool (arg_center_offset a) 1); simpl;
    [|eexists; reflexivity].
  set (bs := match arg_base_sizes a with
             | None => map inject_Z (arg_strides a)
             | Some bs => bs
             end).
  assert (Hlen : length bs = length (arg_strides a)).
  { unfold bs. destruct (arg_base_sizes a); [exact Hsizes | apply length_map]. }
  rewrite Hlen, Nat.eqb_refl. simpl.
  destruct (xorb _ _) eqn:Ex; simpl; [|eexists; reflexivity].
  assert (Hscales : exists s,
             match arg_scales a, arg_octave_base_scale a,
                   arg_scales_per_octave a with
             | Some s, _, _ => Ok s
             | None, Some base, Some per_octave =>
                 Ok (octave_scales exp2 base per_octave)
             | None, _, _ => Raise ValueError
             end = Ok s).
  { destruct (arg_scales a), (arg_octave_base_scale a),
      (arg_scales_per_octave a); simpl in Ex; try discriminate;
      eexists; reflexivity. }
  destruct Hscales as (s & ->). simpl.
  destruct (gen_base_anchors_from_ok (arg_center_offset a) (arg_scale_major a)
              s (arg_ratios a) (arg_centers a) bs 0) as (anchors & Hgen).
  { destruct (arg_centers a); [|exact I]. simpl. rewrite Hlen. tauto. }
  unfold gen_base_anchors. rewrite Hgen. simpl. eexists; reflexivity.
Qed.

(** The constructor's two other assertions: explicit centers with a
    non-zero [center_offset], and base sizes that do not match the strides in
    number, are refused whatever the scales. *)
Lemma init_refuses_centers_with_offset (a : init_args) (cs : list (Q * Q)) :
  arg_centers a = Some cs -> ~ arg_center_offset a == 0 ->
  init sqrt exp2 a = Raise AssertionError.
Proof.
  intros Hc Ho. unfold init. rewrite Hc.
  destruct (Qeq_bool (arg_center_offset a) 0) eqn:E; [|reflexivity].
  apply Qeq_bool_iff in E. contradiction.
Qed.

Lemma init_refuses_mismatched_base_sizes (a : init_args) (bs : list Q) :
  arg_base_sizes a = Some bs -> length bs <> length (arg_strides a) ->
  raises (init sqrt exp2 a).
Proof.
  intros Hb Hlen. unfold init. rewrite Hb.
  destruct (negb (Qeq_bool (arg_center_offset a) 0) && is_some (arg_centers a));
    [eexists; reflexivity|].
  destruct (negb (Qle_bool 0 (arg_center_offset a)
                  && Qle_bool (arg_center_offset a) 1));
    [eexists; reflexivity|].
  destruct (Nat.eqb_spec (length bs) (length (arg_strides a)));
    [contradiction|]. eexists; reflexivity.
Qed.


(** For arguments that agree in shape, construction raises exactly when
    [center_offset] is outside [0, 1], or both [scales] and the octave pair
    are given, or neither is; in every other case it returns a generator. *)
Lemma init_raises_iff_invalid (a : init_args) :
  shape_consistent a ->
  (raises (init sqrt exp2 a) <->
   ~ offset_in_range a \/ both_given a \/ neither_given a) /\
  ((exists self, init sqrt exp2 a = Ok self) <->
   offset_in_range a /\ ~ both_given a /\ ~ neither_given a).
Proof.
  intros Hshape. pose proof (init_outcome a Hshape) as Hout.
  pose proof (passes_checks_true a) as Hchk.
  assert (Hdec : forall P Q R : Prop,
             (P /\ ~ Q /\ ~ R -> False) ->
             (P \/ ~ P) -> (Q \/ ~ Q) -> (R \/ ~ R) -> ~ P \/ Q \/ R)
    by (intros; tauto).
  destruct (passes_checks a).
  - destruct Hout as (self & Hself).
    assert (Hvalid : offset_in_range a /\ ~ both_given a /\ ~ neither_given a)
      by now apply Hchk.
    split; split.
    + intros (e & He). congruence.
    + intros H. exfalso. tauto.
    + intros _. exact Hvalid.
    + intros _. exists self. exact Hself.
  - destruct Hout as (e & He).
    assert (Hinvalid : ~ (offset_in_range a /\ ~ both_given a
                          /\ ~ neither_given a)).
    { intros H. apply Hchk in H. discriminate. }
    split; split.
    + intros _. apply Hdec; [exact Hinvalid | | |].
      * unfold offset_in_range.
        destruct (Qlt_le_dec (arg_center_offset a) 0) as [H0|H0];
          [right; intros [H _]; exact (Qlt_not_le _ _ H0 H)|].
        destruct (Qlt_le_dec 1 (arg_center_offset a)) as [H1|H1];
          [right; intros [_ H]; exact (Qlt_not_le _ _ H1 H)|].
        left. auto.
      * unfold both_given, scales_given, octave_given.
        destruct (arg_scales a), (arg_octave_base_scale a),
          (arg_scales_per_octave a);
          solve [left; repeat split; congruence
                | right; intros [H1 [H2 H3]]; congruence].
      * unfold neither_given, scales_given, octave_given.
        destruct (arg_scales a), (arg_octave_base_scale a),
          (arg_scales_per_octave a);
          solve [left; split; [congruence | intros [H2 H3]; congruence]
                | right; intros [H1 H2]; apply H1; congruence
                | right; intros [H1 H2]; apply H2; split; congruence].
    + intros _. exists e. exact He.
    + intros (self & Hself). congruence.
    + intros H. exfalso. exact (Hinvalid H).
Qed.

Lemma gen_base_anchors_from_raises (co : Q) (major : bool)
    (scales ratios : list Q) (cs : list (Q * Q)) (sizes : list Q) (i : nat) :
  (i <= length cs)%nat ->
  (length cs < i + length sizes)%nat ->
  raises (gen_base_anchors_from sqrt co major scales ratios (Some cs) i sizes).
Proof.
  revert i. induction sizes as [|size sizes IH]; intros i Hle Hlt;
    simpl in *.
  - lia.
  - destruct (nth_error cs i) as [c|] eqn:E; simpl;
      [|eexists; reflexivity].
    assert (Hi : (i < length cs)%nat) by (apply nth_error_Some; congruence).
    destruct (IH (S i)) as (e & ->); [lia | lia|]. simpl.
    eexists; reflexivity.
Qed.

Lemma init_outcome_full (a : init_args) :
  if passes_all_checks a then exists self, init sqrt exp2 a = Ok self
  else raises (init sqrt exp2 a).
Proof.
  unfold passes_all_checks, passes_checks, init.
  destruct (negb (Qeq_bool (arg_center_offset a) 0) && is_some (arg_centers a));
    cbn [negb andb]; [eexists; reflexivity|].
  set (bs := match arg_base_sizes a with
             | None => map inject_Z (arg_strides a)
             | Some bs => bs
             end).
  assert (Hsz : match arg_base_sizes a with
                | Some bs => Nat.eqb (length bs) (length (arg_strides a))
                | None => true
                end = Nat.eqb (length bs) (length (arg_strides a))).
  { unfold bs. destruct (arg_base_sizes a); [reflexivity|].
    now rewrite length_map, Nat.eqb_refl. }
  rewrite Hsz.
  destruct (Qle_bool 0 (arg_center_offset a)
            && Qle_bool (arg_center_offset a) 1); cbn [negb andb].
  2:{ rewrite andb_false_r. cbn [andb]. eexists; reflexivity. }
  destruct (Nat.eqb_spec (length bs) (length (arg_strides a))) as [Hlen|Hlen];
    cbn [negb andb]; [|eexists; reflexivity].
  destruct (xorb _ _) eqn:Ex; cbn [negb andb]; [|eexists; reflexivity].
  assert (Hscales : exists s,
             match arg_scales a, arg_octave_base_scale a,
                   arg_scales_per_octave a with
             | Some s, _, _ => Ok s
             | None, Some base, Some per_octave =>
                 Ok (octave_scales exp2 base per_octave)
             | None, _, _ => Raise ValueError
             end = Ok s).
  { destruct (arg_scales a), (arg_octave_base_scale a),
      (arg_scales_per_octave a); simpl in Ex; try discriminate;
      eexists; reflexivity. }
  destruct Hscales as (s & ->). rewrite bind_ok. unfold gen_base_anchors.
  destruct (arg_centers a) as [cs|].
  - destruct (Nat.leb_spec (length (arg_strides a)) (length cs)) as [Hc|Hc].
    + destruct (gen_base_anchors_from_ok (arg_center_offset a)
                  (arg_scale_major a) s (arg_ratios a) (Some cs) bs 0)
        as (anchors & ->); [simpl; lia|].
      rewrite bind_ok. eexists; reflexivity.
    + destruct (gen_base_anchors_from_raises (arg_center_offset a)
                  (arg_scale_major a) s (arg_ratios a) cs bs 0)
        as (e & ->); [lia | simpl; lia|].
      eexists; reflexivity.
  - destruct (gen_base_anchors_from_ok (arg_center_offset a)
                (arg_scale_major a) s (arg_ratios a) None bs 0 I)
      as (anchors & ->).
    rewrite bind_ok. eexists; reflexivity.
Qed.

Lemma offset_in_range_dec (a : init_args) :
  offset_in_range a \/ ~ offset_in_range a.
Proof.
  unfold offset_in_range.
  destruct (Qlt_le_dec (arg_center_offset a) 0) as [H0|H0];
    [right; intros [H _]; exact (Qlt_not_le _ _ H0 H)|].
  destruct (Qlt_le_dec 1 (arg_center_offset a)) as [H1|H1];
    [right; intros [_ H]; exact (Qlt_not_le _ _ H1 H)|].
  left. auto.
Qed.

Lemma scales_choice_dec (a : init_args) :
  (both_given a \/ ~ both_given a) /\ (neither_given a \/ ~ neither_given a).
Proof.
  unfold both_given, neither_given, scales_given, octave_given.
  destruct (arg_scales a), (arg_octave_base_scale a),
    (arg_scales_per_octave a); split;
    solve [left; repeat split; congruence
          | left; split; [congruence | intros [H2 H3]; congruence]
          | right; intros [H1 [H2 H3]]; congruence
          | right; intros [H1 H2]; apply H1; congruence
          | right; intros [H1 H2]; apply H2; split; congruence].
Qed.

Lemma passes_checks_false (a : init_args) :
  passes_checks a = false <->
  ~ offset_in_range a \/ both_given a \/ neither_given a.
Proof.
  pose proof (passes_checks_true a) as Ht.
  pose proof (offset_in_range_dec a) as Ho.
  pose proof (scales_choice_dec a) as [Hb Hn].
  destruct (passes_checks a); split; intros H; try discriminate;
    try reflexivity.
  - exfalso. assert (Hv : offset_in_range a /\ ~ both_given a
                          /\ ~ neither_given a) by now apply Ht.
    tauto.
  - assert (Hv : ~ (offset_in_range a /\ ~ both_given a /\ ~ neither_given a))
      by (intros Hv; apply Ht in Hv; discriminate).
    tauto.
Qed.

Lemma passes_all_checks_false (a : init_args) :
  passes_all_checks a = false <->
  ~ offset_in_range a \/ both_given a \/ neither_given a \/
  centers_with_offset a \/ sizes_mismatch a \/ centers_too_few a.
Proof.
  unfold passes_all_checks.
  rewrite !andb_false_iff, passes_checks_false, negb_false_iff,
    andb_true_iff, negb_true_iff.
  unfold centers_with_offset, sizes_mismatch, centers_too_few.
  assert (H1 : Qeq_bool (arg_center_offset a) 0 = false
               /\ is_some (arg_centers a) = true <->
               arg_centers a <> None /\ ~ arg_center_offset a == 0).
  { rewrite is_some_true. split.
    - intros [Hq Hc]. split; [exact Hc | now apply Qeq_bool_neq].
    - intros [Hc Hq]. split; [|exact Hc].
      destruct (Qeq_bool (arg_center_offset a) 0) eqn:E; [|reflexivity].
      apply Qeq_bool_iff in E. contradiction. }
  assert (H2 : match arg_base_sizes a with
               | Some bs => Nat.eqb (length bs) (length (arg_strides a))
               | None => true
               end = false <->
               match arg_base_sizes a with
               | Some bs => length bs <> length (arg_strides a)
               | None => False
               end).
  { destruct (arg_base_sizes a) as [bs|].
    - apply Nat.eqb_neq.
    - split; [discriminate | contradiction]. }
  assert (H3 : match arg_centers a with
               | Some cs => (length (arg_strides a) <=? length cs)%nat
               | None => true
               end = false <->
               match arg_centers a with
               | Some cs => (length cs < length (arg_strides a))%nat
               | None => False
               end).
  { destruct (arg_centers a) as [cs|].
    - apply Nat.leb_gt.
    - split; [discriminate | contradiction]. }
  rewrite H1, H2, H3. tauto.
Qed.

(** C6 (as the code has it). Construction raises exactly when one of its
    checks fails: [center_offset] outside [0, 1]; both or neither of [scales]
    and the octave pair given; explicit centers next to a non-zero
    [center_offset]; base sizes that differ in number from the strides;
    fewer centers than levels. Every other set of arguments constructs a
    generator. *)
Theorem init_raises_iff_a_check_fails (a : init_args) :
  (raises (init sqrt exp2 a) <->
   ~ offset_in_range a \/ both_given a \/ neither_given a \/
   centers_with_offset a \/ sizes_mismatch a \/ centers_too_few a) /\
  ((exists self, init sqrt exp2 a = Ok self) <->
   ~ (~ offset_in_range a \/ both_given a \/ neither_given a \/
      centers_with_offset a \/ sizes_mismatch a \/ centers_too_few a)).
Proof.
  pose proof (init_outcome_full a) as Hout.
  pose proof (passes_all_checks_false a) as Hf.
  destruct (passes_all_checks a).
  - destruct Hout as (self & Hself).
    assert (Hno : ~ (~ offset_in_range a \/ both_given a \/ neither_given a \/
                     centers_with_offset a \/ sizes_mismatch a \/
                     centers_too_few a))
      by (intros H; apply Hf in H; discriminate).
    split; split.
    + intros (e & He). congruence.
    + intros H. contradiction.
    + intros _. exact Hno.
    + intros _. exists self. exact Hself.
  - destruct Hout as (e & He).
    assert (Hyes : ~ offset_in_range a \/ both_given a \/ neither_given a \/
                   centers_with_offset a \/ sizes_mismatch a \/
                   centers_too_few a) by now apply Hf.
    split; split.
    + intros _. exact Hyes.
    + intros _. exists e. exact He.
    + intros (self & Hself). congruence.
    + intros H. contradiction.
Qed.

End Torch.


(** [octave_args] gives the octave pair only and a center offset of 1/2; it
    is valid and constructs. *)
Lemma init_raises_iff_invalid_example :
  (raises (init sqrt_q exp2_q octave_args) <->
   ~ offset_in_range octave_args \/ both_given octave_args
   \/ neither_given octave_args) /\
  ((exists self, init sqrt_q exp2_q octave_args = Ok self) <->
   offset_in_range octave_args /\ ~ both_given octave_args
   /\ ~ neither_given octave_args).
Proof.
  apply (init_raises_iff_invalid sqrt_q exp2_q octave_args).
  unfold shape_consistent. simpl. auto.
Defined.

(** C6, counterexample: three sets of arguments with a [center_offset] in
    [0, 1] and [scales] alone, which construction refuses all the same:
    centers next to a non-zero offset, one base size for two strides, one
    center for two levels. *)
Lemma init_refuses_some_valid_scales :
  (offset_in_range centers_and_offset_args /\
   ~ both_given centers_and_offset_args /\
   ~ neither_given centers_and_offset_args /\
   init sqrt_q exp2_q centers_and_offset_args = Raise AssertionError) /\
  (offset_in_range one_base_size_args /\
   ~ both_given one_base_size_args /\
   ~ neither_given one_base_size_args /\
   init sqrt_q exp2_q one_base_size_args = Raise AssertionError) /\
  (offset_in_range one_center_args /\
   ~ both_given one_center_args /\
   ~ neither_given one_center_args /\
   init sqrt_q exp2_q one_center_args = Raise IndexError).
Proof.
  unfold offset_in_range, both_given, neither_given, scales_given,
    octave_given.
  repeat split; simpl;
    try (intros H; decompose [and] H; congruence);
    try (intros [H _]; apply H; discriminate);
    try (unfold Qle; simpl; lia).
Qed.

(** *** Valid flags *)

Lemma slice_stop_in_range (n : nat) (stop : Z) :
  (0 <= stop <= Z.of_nat n)%Z -> slice_stop n stop = Z.to_nat stop.
Proof.
  intros H. unfold slice_stop. destruct (Z.ltb_spec stop 0); [lia|].
  f_equal. lia.
Qed.

Lemma ones_to_length (n : nat) (stop : Z) : length (ones_to n stop) = n.
Proof. unfold ones_to. now rewrite length_map, length_seq. Qed.

Lemma ones_to_nth (n : nat) (stop : Z) (i : nat) :
  (0 <= stop <= Z.of_nat n)%Z -> (i < n)%nat ->
  nth_error (ones_to n stop) i = Some (Z.of_nat i <? stop)%Z.
Proof.
  intros Hs Hi. unfold ones_to.
  rewrite nth_error_map, nth_error_seq_lt by exact Hi. simpl.
  rewrite slice_stop_in_range by exact Hs. f_equal.
  destruct (Nat.ltb_spec i (Z.to_nat stop)); destruct (Z.ltb_spec (Z.of_nat i) stop);
    try reflexivity; lia.
Qed.

(** The flags of one level, for a valid size inside the feature map. *)
Lemma single_level_valid_flags_inside (feat_h feat_w : nat)
    (valid_h valid_w : Z) (A : nat) :
  (0 <= valid_h <= Z.of_nat feat_h)%Z -> (0 <= valid_w <= Z.of_nat feat_w)%Z ->
  exists flags,
    single_level_valid_flags (feat_h, feat_w) (valid_h, valid_w) A
    = Ok flags /\
    length flags = (feat_h * feat_w * A)%nat /\
    forall y x k, (y < feat_h)%nat -> (x < feat_w)%nat -> (k < A)%nat ->
      nth_error flags ((y * feat_w + x) * A + k)
      = Some ((Z.of_nat x <? valid_w) && (Z.of_nat y <? valid_h))%Z.
Proof.
  intros Hh Hw. unfold single_level_valid_flags.
  destruct (Z.leb_spec valid_h (Z.of_nat feat_h)) as [Hvh|]; [|lia].
  destruct (Z.leb_spec valid_w (Z.of_nat feat_w)) as [Hvw|]; [|lia].
  cbn [andb].
  set (vx := ones_to feat_w valid_w). set (vy := ones_to feat_h valid_h).
  destruct (_meshgrid vx vy true) as [xx yy] eqn:Hmesh.
  assert (Hxx : xx = fst (_meshgrid vx vy true)) by now rewrite Hmesh.
  assert (Hyy : yy = snd (_meshgrid vx vy true)) by now rewrite Hmesh.
  eexists. split; [reflexivity|].
  assert (Hrep : forall v : bool,
             In v (map (fun p : bool * bool => fst p && snd p) (combine xx yy)) ->
             length (repeat v A) = A) by (intros; apply repeat_length).
  split.
  - rewrite (flat_map_uniform_length _ A) by exact Hrep.
    rewrite length_map, Hxx, Hyy, meshgrid_row_major_length.
    unfold vx, vy. now rewrite !ones_to_length.
  - intros y x k Hy Hx Hk.
    rewrite (nth_error_flat_map_uniform _ A _ _ _
               ((Z.of_nat x <? valid_w) && (Z.of_nat y <? valid_h))%Z Hrep);
      [apply nth_error_repeat; exact Hk | | exact Hk].
    rewrite nth_error_map, Hxx, Hyy.
    replace feat_w with (length vx) at 1 by (unfold vx; apply ones_to_length).
    rewrite (meshgrid_row_major_nth vx vy x y (Z.of_nat x <? valid_w)%Z
               (Z.of_nat y <? valid_h)%Z).
    + reflexivity.
    + apply ones_to_nth; [lia | exact Hx].
    + apply ones_to_nth; [lia | exact Hy].
Qed.

(** X4. [single_level_valid_flags] with a valid size inside the feature
    map returns one flag per anchor, [feat_h * feat_w * num_base_anchors] in
    all, laid out like the anchors of the level: the flag of grid cell (y, x)
    and base anchor [k] is at index [(y * feat_w + x) * num_base_anchors + k],
    and it is set exactly when [x < valid_w] and [y < valid_h]. A valid size
    beyond the feature map is refused by the assertion. *)
Theorem single_level_valid_flags_layout (feat_h feat_w : nat)
    (valid_h valid_w : Z) (A : nat) :
  (0 <= valid_h)%Z -> (0 <= valid_w)%Z ->
  if ((valid_h <=? Z.of_nat feat_h) && (valid_w <=? Z.of_nat feat_w))%Z
  then exists flags,
      single_level_valid_flags (feat_h, feat_w) (valid_h, valid_w) A
      = Ok flags /\
      length flags = (feat_h * feat_w * A)%nat /\
      forall y x k, (y < feat_h)%nat -> (x < feat_w)%nat -> (k < A)%nat ->
        nth_error flags ((y * feat_w + x) * A + k)
        = Some ((Z.of_nat x <? valid_w) && (Z.of_nat y <? valid_h))%Z
  else single_level_valid_flags (feat_h, feat_w) (valid_h, valid_w) A
       = Raise AssertionError.
Proof.
  intros Hh Hw.
  destruct (Z.leb_spec valid_h (Z.of_nat feat_h)) as [Hvh|Hvh].
  - destruct (Z.leb_spec valid_w (Z.of_nat feat_w)) as [Hvw|Hvw]; cbn [andb].
    + apply single_level_valid_flags_inside; lia.
    + unfold single_level_valid_flags.
      destruct (Z.leb_spec valid_w (Z.of_nat feat_w)); [lia|].
      now rewrite andb_false_r.
  - cbn [andb]. unfold single_level_valid_flags.
    destruct (Z.leb_spec valid_h (Z.of_nat feat_h)); [lia | reflexivity].
Qed.

(** X4, witness: a 2 x 3 feature map of which one row and two columns are
    valid, and a valid height beyond the feature map. *)
Lemma single_level_valid_flags_layout_witness :
  (exists flags,
     single_level_valid_flags (2, 3)%nat (1, 2)%Z 2 = Ok flags /\
     length flags = (2 * 3 * 2)%nat /\
     forall y x k, (y < 2)%nat -> (x < 3)%nat -> (k < 2)%nat ->
       nth_error flags ((y * 3 + x) * 2 + k)
       = Some ((Z.of_nat x <? 2) && (Z.of_nat y <? 1))%Z) /\
  single_level_valid_flags (2, 3)%nat (3, 2)%Z 2 = Raise AssertionError.
Proof.
  split.
  - apply (single_level_valid_flags_layout 2 3 1 2 2); lia.
  - apply (single_level_valid_flags_layout 2 3 3 2 2); lia.
Defined.

Lemma lt_ceiling (x : Z) (q : Q) : (x < Qceiling q)%Z <-> inject_Z x < q.
Proof.
  split.
  - intros H. apply Qle_lt_trans with (inject_Z (Qceiling q - 1)).
    + rewrite <- Zle_Qle. lia.
    + apply Qceiling_lt.
  - intros H. rewrite Zlt_Qlt.
    eapply Qlt_le_trans; [exact H | apply Qle_ceiling].
Qed.

Lemma lt_ceil_div (x w s : Z) :
  (0 < s)%Z ->
  (x <? Qceiling (inject_Z w / inject_Z s))%Z = (x * s <? w)%Z.
Proof.
  intros Hs.
  assert (Hq : 0 < inject_Z s)
    by (change 0 with (inject_Z 0); now rewrite <- Zlt_Qlt).
  destruct (Z.ltb_spec (x * s) w) as [H|H].
  - apply Z.ltb_lt, lt_ceiling. apply Qlt_shift_div_l; [exact Hq|].
    rewrite <- inject_Z_mult, <- Zlt_Qlt. exact H.
  - apply Z.ltb_ge. apply Z.nlt_ge. intros Hlt. apply lt_ceiling in Hlt.
    apply (Qmult_lt_r _ _ (inject_Z s) Hq) in Hlt.
    unfold Qdiv in Hlt. rewrite <- Qmult_assoc in Hlt.
    rewrite (Qmult_comm (/ inject_Z s)), Qmult_inv_r, Qmult_1_r in Hlt
      by (intros E; rewrite E in Hq; discriminate).
    rewrite <- inject_Z_mult, <- Zlt_Qlt in Hlt. lia.
Qed.

Lemma ceil_div_nonneg (w s : Z) :
  (0 <= w)%Z -> (0 < s)%Z -> (0 <= Qceiling (inject_Z w / inject_Z s))%Z.
Proof.
  intros Hw Hs. change 0%Z with (Qceiling 0). apply Qceiling_resp_le.
  apply Qle_shift_div_l.
  - change 0 with (inject_Z 0). now rewrite <- Zlt_Qlt.
  - rewrite Qmult_0_l. change 0 with (inject_Z 0). now rewrite <- Zle_Qle.
Qed.

(** The levels of [valid_flags]: with positive strides and a non-negative
    padded shape, the flag of a cell says whether the cell's origin lies in
    the padded image. *)
Lemma valid_flags_from_levels (self : t) (h w : Z)
    (sizes : list (nat * nat)) (i : nat) :
  (0 <= h)%Z -> (0 <= w)%Z ->
  (i + length sizes <= length (strides self))%nat ->
  length (num_base_anchors self) = length (strides self) ->
  Forall (fun s => 0 < s)%Z (strides self) ->
  exists flags,
    valid_flags_from self (h, w) i sizes = Ok flags /\
    length flags = length sizes /\
    forall lvl feat_h feat_w,
      nth_error sizes lvl = Some (feat_h, feat_w) ->
      exists stride n fl,
        nth_error (strides self) (i + lvl) = Some stride /\
        nth_error (num_base_anchors self) (i + lvl) = Some n /\
        nth_error flags lvl = Some fl /\
        length fl = (feat_h * feat_w * n)%nat /\
        forall y x k, (y < feat_h)%nat -> (x < feat_w)%nat -> (k < n)%nat ->
          nth_error fl ((y * feat_w + x) * n + k)
          = Some ((Z.of_nat x * stride <? w) && (Z.of_nat y * stride <? h))%Z.
Proof.
  intros Hh Hw. revert i.
  induction sizes as [|[feat_h feat_w] sizes IH]; intros i Hlen Hn Hpos.
  - exists []. simpl. repeat split. intros [|lvl] ? ? H; discriminate.
  - simpl in Hlen. cbn [valid_flags_from].
    destruct (nth_error (strides self) i) as [s|] eqn:Es;
      [|apply nth_error_None in Es; lia].
    destruct (nth_error (num_base_anchors self) i) as [n|] eqn:En;
      [|apply nth_error_None in En; lia].
    assert (Hs : (0 < s)%Z).
    { rewrite Forall_forall in Hpos. apply Hpos.
      eapply nth_error_In; exact Es. }
    rewrite bind_ok. unfold ceil_div.
    destruct (Z.eqb_spec s 0); [lia|]. rewrite !bind_ok.
    pose proof (ceil_div_nonneg h s Hh Hs) as Hch.
    pose proof (ceil_div_nonneg w s Hw Hs) as Hcw.
    set (vh := Z.min (Qceiling (inject_Z h / inject_Z s)) (Z.of_nat feat_h)).
    set (vw := Z.min (Qceiling (inject_Z w / inject_Z s)) (Z.of_nat feat_w)).
    destruct (single_level_valid_flags_inside feat_h feat_w vh vw n)
      as (fl & Hfl & Lfl & Nfl); [unfold vh; lia | unfold vw; lia |].
    rewrite Hfl, bind_ok.
    destruct (IH (S i)) as (more & Hmore & Lmore & Nmore); [lia | exact Hn | exact Hpos |].
    rewrite Hmore, bind_ok. eexists. split; [reflexivity|].
    split; [simpl; now rewrite Lmore|].
    intros [|lvl] fh fw Hsz; simpl in Hsz.
    + injection Hsz as <- <-. exists s, n, fl. rewrite Nat.add_0_r.
      split; [exact Es|]. split; [exact En|]. split; [reflexivity|].
      split; [exact Lfl|].
      intros y x k Hy Hx Hk. rewrite (Nfl y x k Hy Hx Hk). f_equal.
      rewrite <- (lt_ceil_div (Z.of_nat x) w s Hs).
      rewrite <- (lt_ceil_div (Z.of_nat y) h s Hs).
      unfold vw, vh.
      destruct (Z.ltb_spec (Z.of_nat x) (Qceiling (inject_Z w / inject_Z s)));
        destruct (Z.ltb_spec (Z.of_nat x)
                    (Z.min (Qceiling (inject_Z w / inject_Z s)) (Z.of_nat feat_w)));
        destruct (Z.ltb_spec (Z.of_nat y) (Qceiling (inject_Z h / inject_Z s)));
        destruct (Z.ltb_spec (Z.of_nat y)
                    (Z.min (Qceiling (inject_Z h / inject_Z s)) (Z.of_nat feat_h)));
        try reflexivity; lia.
    + destruct (Nmore lvl fh fw Hsz) as (s' & n' & fl' & H1 & H2 & H3 & H4).
      exists s', n', fl'.
      replace (i + S lvl)%nat with (S i + lvl)%nat by lia. auto.
Qed.

(** Inside [valid_flags] the valid size is cut to the feature map, so the
    assertion of [single_level_valid_flags] holds. *)
Lemma single_level_valid_flags_min (feat_h feat_w : nat) (ch cw : Z) (n : nat) :
  exists fl,
    single_level_valid_flags (feat_h, feat_w)
      (Z.min ch (Z.of_nat feat_h), Z.min cw (Z.of_nat feat_w)) n = Ok fl.
Proof.
  unfold single_level_valid_flags.
  destruct (Z.leb_spec (Z.min ch (Z.of_nat feat_h)) (Z.of_nat feat_h)); [|lia].
  destruct (Z.leb_spec (Z.min cw (Z.of_nat feat_w)) (Z.of_nat feat_w)); [|lia].
  cbn [andb]. destruct (_meshgrid _ _ true) as [xx yy].
  eexists; reflexivity.
Qed.

Lemma valid_flags_from_ok_inv (self : t) (pad : Z * Z)
    (sizes : list (nat * nat)) (i : nat) (flags : list (list bool)) :
  valid_flags_from self pad i sizes = Ok flags ->
  length flags = length sizes /\
  forall lvl, (lvl < length sizes)%nat ->
    exists s, nth_error (strides self) (i + lvl) = Some s /\ s <> 0%Z.
Proof.
  destruct pad as [h w]. revert i flags.
  induction sizes as [|[feat_h feat_w] sizes IH]; intros i flags H.
  - injection H as <-. split; [reflexivity|]. intros lvl Hl. simpl in Hl. lia.
  - cbn [valid_flags_from] in H.
    destruct (nth_error (strides self) i) as [s|] eqn:Es; [|discriminate].
    rewrite bind_ok in H. unfold ceil_div in H.
    destruct (Z.eqb_spec s 0) as [|Hs]; [discriminate|].
    rewrite !bind_ok in H.
    destruct (nth_error (num_base_anchors self) i) as [n|]; [|discriminate].
    rewrite bind_ok in H.
    destruct (single_level_valid_flags _ _ n) as [fl|e]; [|discriminate].
    rewrite bind_ok in H.
    destruct (valid_flags_from self (h, w) (S i) sizes) as [more|e] eqn:Em;
      [|discriminate].
    injection H as <-. destruct (IH _ _ Em) as [Hlen Hall].
    split; [simpl; now rewrite Hlen|].
    intros [|lvl] Hl.
    + exists s. rewrite Nat.add_0_r. auto.
    + replace (i + S lvl)%nat with (S i + lvl)%nat by lia.
      apply Hall. simpl in Hl. lia.
Qed.

Lemma valid_flags_from_ok (self : t) (pad : Z * Z)
    (sizes : list (nat * nat)) (i : nat) :
  length (num_base_anchors self) = length (strides self) ->
  (forall lvl, (lvl < length sizes)%nat ->
     exists s, nth_error (strides self) (i + lvl) = Some s /\ s <> 0%Z) ->
  exists flags, valid_flags_from self pad i sizes = Ok flags.
Proof.
  intros Hn. destruct pad as [h w]. revert i.
  induction sizes as [|[feat_h feat_w] sizes IH]; intros i Hall.
  - exists []. reflexivity.
  - cbn [valid_flags_from].
    destruct (Hall 0%nat) as (s & Es & Hs); [simpl; lia|].
    rewrite Nat.add_0_r in Es. rewrite Es, bind_ok. unfold ceil_div.
    destruct (Z.eqb_spec s 0); [contradiction|]. rewrite !bind_ok.
    destruct (nth_error (num_base_anchors self) i) as [nb|] eqn:En.
    2:{ apply nth_error_None in En.
        assert (H : nth_error (strides self) i <> None) by congruence.
        apply nth_error_Some in H. lia. }
    rewrite bind_ok.
    destruct (single_level_valid_flags_min feat_h feat_w
                (Qceiling (inject_Z h / inject_Z s))
                (Qceiling (inject_Z w / inject_Z s)) nb) as (fl & ->).
    rewrite bind_ok.
    destruct (IH (S i)) as (more & ->).
    { intros lvl Hl. replace (S i + lvl)%nat with (i + S lvl)%nat by lia.
      apply Hall. simpl. lia. }
    rewrite bind_ok. eexists; reflexivity.
Qed.

Lemma valid_flags_from_error (self : t) (pad : Z * Z)
    (sizes : list (nat * nat)) (i : nat) (e : exn) :
  valid_flags_from self pad i sizes = Raise e ->
  e = IndexError \/ e = ZeroDivisionError.
Proof.
  destruct pad as [h w]. revert i.
  induction sizes as [|[feat_h feat_w] sizes IH]; intros i H.
  - discriminate.
  - cbn [valid_flags_from] in H.
    destruct (nth_error (strides self) i) as [s|];
      [|injection H as <-; now left].
    rewrite bind_ok in H. unfold ceil_div in H.
    destruct (Z.eqb_spec s 0) as [|Hs]; [injection H as <-; now right|].
    rewrite !bind_ok in H.
    destruct (nth_error (num_base_anchors self) i) as [nb|];
      [|injection H as <-; now left].
    rewrite bind_ok in H.
    destruct (single_level_valid_flags_min feat_h feat_w
                (Qceiling (inject_Z h / inject_Z s))
                (Qceiling (inject_Z w / inject_Z s)) nb) as (fl & Hfl).
    rewrite Hfl, bind_ok in H.
    destruct (valid_flags_from self (h, w) (S i) sizes) as [more|e'] eqn:Em;
      [discriminate|].
    injection H as <-. apply (IH (S i)). exact Em.
Qed.

Section ValidFlags.

Variable sqrt : Q -> Q.
Variable exp2 : Q -> Q.

(** A constructed generator has, on every level, as many base anchors as
    there are pairs of a ratio and a scale. *)
Lemma init_num_base_anchors (a : init_args) (self : t) :
  init sqrt exp2 a = Ok self ->
  num_base_anchors self
  = repeat (length (ratios self) * length (scales self))%nat
           (length (strides self)).
Proof.
  intros Hinit.
  destruct (init_ok_fields sqrt exp2 a self Hinit) as (_ & _ & Hlen & Hgen & _).
  unfold gen_base_anchors in Hgen.
  apply gen_base_anchors_from_shape in Hgen. destruct Hgen as [Hl Hall].
  unfold num_base_anchors. rewrite <- Hlen, <- Hl.
  clear Hl. induction Hall as [|base l Hb _ IH]; simpl; [reflexivity|].
  now rewrite Hb, IH.
Qed.

(** X5. The valid flags of a constructed generator with positive strides,
    for a non-negative padded shape [(h, w)] and at most as many feature maps
    as levels: [valid_flags] returns one flag tensor per feature map, of
    [feat_h * feat_w * num_base_anchors] flags laid out like the anchors of
    the level, and the flag of grid cell (y, x) is set exactly when the
    cell's origin [(x * stride, y * stride)] lies inside the padded image. *)
Theorem valid_flags_layout (a : init_args) (self : t)
    (featmap_sizes : list (nat * nat)) (h w : Z) :
  init sqrt exp2 a = Ok self ->
  (length featmap_sizes <= length (strides self))%nat ->
  Forall (fun s => 0 < s)%Z (strides self) ->
  (0 <= h)%Z -> (0 <= w)%Z ->
  let A := (length (ratios self) * length (scales self))%nat in
  exists flags,
    valid_flags self featmap_sizes (h, w) = Ok flags /\
    length flags = length featmap_sizes /\
    forall lvl feat_h feat_w,
      nth_error featmap_sizes lvl = Some (feat_h, feat_w) ->
      exists stride fl,
        nth_error (strides self) lvl = Some stride /\
        nth_error flags lvl = Some fl /\
        length fl = (feat_h * feat_w * A)%nat /\
        forall y x k, (y < feat_h)%nat -> (x < feat_w)%nat -> (k < A)%nat ->
          nth_error fl ((y * feat_w + x) * A + k)
          = Some ((Z.of_nat x * stride <? w) && (Z.of_nat y * stride <? h))%Z.
Proof.
  intros Hinit Hlen Hpos Hh Hw A.
  pose proof (init_num_base_anchors a self Hinit) as Hn. fold A in Hn.
  destruct (valid_flags_from_levels self h w featmap_sizes 0 Hh Hw)
    as (flags & Hflags & Lflags & Hlevels).
  - simpl. exact Hlen.
  - rewrite Hn. apply repeat_length.
  - exact Hpos.
  - exists flags. split; [exact Hflags|]. split; [exact Lflags|].
    intros lvl feat_h feat_w Hsz.
    destruct (Hlevels lvl feat_h feat_w Hsz)
      as (stride & n & fl & Hs & Hnb & Hfl & Lfl & Nfl).
    simpl in Hs, Hnb. rewrite Hn in Hnb.
    assert (n = A).
    { apply nth_error_In, repeat_spec in Hnb. exact Hnb. }
    subst n. exists stride, fl. auto.
Qed.

(** X6. What [valid_flags] of a constructed generator can end with. It
    returns exactly when every feature map has a level whose stride is not
    zero; otherwise it raises IndexError (more feature maps than levels) or
    ZeroDivisionError (a zero stride). It never raises the AssertionError of
    [single_level_valid_flags], and, unlike [grid_anchors], it accepts fewer
    feature maps than levels. *)
Theorem valid_flags_outcome (a : init_args) (self : t)
    (featmap_sizes : list (nat * nat)) (pad_shape : Z * Z) :
  init sqrt exp2 a = Ok self ->
  ((exists flags, valid_flags self featmap_sizes pad_shape = Ok flags /\
                  length flags = length featmap_sizes) <->
   (forall lvl, (lvl < length featmap_sizes)%nat ->
      exists s, nth_error (strides self) lvl = Some s /\ s <> 0%Z)) /\
  (forall e, valid_flags self featmap_sizes pad_shape = Raise e ->
             e = IndexError \/ e = ZeroDivisionError) /\
  ((length featmap_sizes < length (strides self))%nat ->
   grid_anchors self featmap_sizes = Raise AssertionError).
Proof.
  intros Hinit.
  pose proof (init_num_base_anchors a self Hinit) as Hn.
  assert (Hlen : length (num_base_anchors self) = length (strides self))
    by (rewrite Hn; apply repeat_length).
  unfold valid_flags. split; [split|split].
  - intros (flags & Hf & _).
    apply (valid_flags_from_ok_inv self pad_shape featmap_sizes 0 flags Hf).
  - intros Hall.
    destruct (valid_flags_from_ok self pad_shape featmap_sizes 0 Hlen Hall)
      as (flags & Hf).
    exists flags. split; [exact Hf|].
    apply (valid_flags_from_ok_inv self pad_shape featmap_sizes 0 flags Hf).
  - intros e. apply valid_flags_from_error.
  - intros Hlt. unfold grid_anchors.
    destruct (Nat.eqb_spec (length featmap_sizes) (length (strides self)));
      [lia | reflexivity].
Qed.

End ValidFlags.

(** X5, witness: the two levels of [two_level_generator] (strides 8 and 16,
    six base anchors) under a padded image of 20 rows and 30 columns. *)
Lemma valid_flags_layout_witness :
  exists flags,
    valid_flags two_level_generator [(3, 4); (2, 2)]%nat (20, 30)%Z = Ok flags /\
    length flags = 2%nat /\
    forall lvl feat_h feat_w,
      nth_error [(3, 4); (2, 2)]%nat lvl = Some (feat_h, feat_w) ->
      exists stride fl,
        nth_error (strides two_level_generator) lvl = Some stride /\
        nth_error flags lvl = Some fl /\
        length fl = (feat_h * feat_w * 6)%nat /\
        forall y x k, (y < feat_h)%nat -> (x < feat_w)%nat -> (k < 6)%nat ->
          nth_error fl ((y * feat_w + x) * 6 + k)
          = Some ((Z.of_nat x * stride <? 30) && (Z.of_nat y * stride <? 20))%Z.
Proof.
  apply (valid_flags_layout sqrt_q exp2_q two_level_args two_level_generator
           [(3, 4); (2, 2)]%nat 20 30).
  - reflexivity.
  - simpl. lia.
  - repeat constructor.
  - lia.
  - lia.
Defined.

(** X6, witness: [two_level_generator] with one, two and three feature
    maps. *)
Lemma valid_flags_outcome_witness :
  (exists flags,
     valid_flags two_level_generator [(3, 4)]%nat (20, 30)%Z = Ok flags /\
     length flags = 1%nat) /\
  grid_anchors two_level_generator [(3, 4)]%nat = Raise AssertionError /\
  valid_flags two_level_generator [(3, 4); (2, 2); (1, 1)]%nat (20, 30)%Z
  = Raise IndexError.
Proof.
  destruct (valid_flags_outcome sqrt_q exp2_q two_level_args
              two_level_generator [(3, 4)]%nat (20, 30)%Z)
    as ((_ & Hok) & _ & Hgrid); [reflexivity|].
  split; [|split].
  - apply Hok. intros [|lvl] Hl; [|simpl in Hl; lia].
    exists 8%Z. split; [reflexivity | discriminate].
  - apply Hgrid. simpl. lia.
  - reflexivity.
Defined.

(** *** The geometry of the base anchors *)

Lemma outer_nth {A B C : Type} (f : A -> B -> C) (xs : list A) (ys : list B)
    (i j : nat) (x : A) (y : B) :
  nth_error xs i = Some x -> nth_error ys j = Some y ->
  nth_error (outer f xs ys) (i * length ys + j) = Some (f x y).
Proof.
  intros Hx Hy. unfold outer.
  rewrite (nth_error_flat_map_uniform _ (length ys) xs i j x).
  - rewrite nth_error_map, Hy. reflexivity.
  - intros x' _. apply length_map.
  - exact Hx.
  - apply nth_error_Some. congruence.
Qed.

Section Geometry.

Variable sqrt : Q -> Q.

(** The anchor of ratio [ri] and scale [si], with its width and height. *)
Lemma base_anchor_at (co : Q) (major : bool) (base_size : Q)
    (scales ratios : list Q) (center : option (Q * Q)) (ri si : nat) (r s : Q) :
  nth_error ratios ri = Some r -> nth_error scales si = Some s ->
  let '(xc, yc) := anchor_center co base_size center in
  exists ws hs,
    ws == base_size * (1 / sqrt r) * s /\ hs == base_size * sqrt r * s /\
    nth_error (gen_single_level_base_anchors sqrt co major base_size scales
                 ratios center)
              (anchor_index major (length ratios) (length scales) ri si)
    = Some (mkBox (xc - (1 # 2) * ws) (yc - (1 # 2) * hs)
                  (xc + (1 # 2) * ws) (yc + (1 # 2) * hs)).
Proof.
  intros Hr Hs.
  assert (Hgen : forall xc yc,
             anchor_center co base_size center = (xc, yc) ->
             exists ws hs,
               ws == base_size * (1 / sqrt r) * s /\
               hs == base_size * sqrt r * s /\
               nth_error (gen_single_level_base_anchors sqrt co major base_size
                            scales ratios center)
                         (anchor_index major (length ratios) (length scales)
                                       ri si)
               = Some (mkBox (xc - (1 # 2) * ws) (yc - (1 # 2) * hs)
                             (xc + (1 # 2) * ws) (yc + (1 # 2) * hs)));
    [|destruct (anchor_center co base_size center) as [xc yc];
      now apply Hgen].
  intros xc yc Hc.
  unfold gen_single_level_base_anchors, anchor_index.
  unfold anchor_center in Hc. rewrite Hc.
  assert (Hh : nth_error (map sqrt ratios) ri = Some (sqrt r))
    by (rewrite nth_error_map, Hr; reflexivity).
  assert (Hw : nth_error (map (fun r => 1 / r) (map sqrt ratios)) ri
               = Some (1 / sqrt r))
    by (rewrite nth_error_map, Hh; reflexivity).
  destruct major.
  - exists (base_size * (1 / sqrt r) * s), (base_size * sqrt r * s).
    split; [reflexivity|]. split; [reflexivity|].
    rewrite nth_error_map.
    rewrite (nth_error_combine_some _ _ _ (base_size * (1 / sqrt r) * s)
               (base_size * sqrt r * s)); [reflexivity | |].
    + apply (outer_nth (fun r s => base_size * r * s)); assumption.
    + apply (outer_nth (fun r s => base_size * r * s)); assumption.
  - exists (base_size * s * (1 / sqrt r)), (base_size * s * sqrt r).
    split; [ring|]. split; [ring|].
    rewrite nth_error_map.
    rewrite (nth_error_combine_some _ _ _ (base_size * s * (1 / sqrt r))
               (base_size * s * sqrt r)); [reflexivity | |].
    + replace (length ratios)
        with (length (map (fun r => 1 / r) (map sqrt ratios)))
        by (now rewrite !length_map).
      apply (outer_nth (fun s r => base_size * s * r)); assumption.
    + replace (length ratios) with (length (map sqrt ratios))
        by (now rewrite !length_map).
      apply (outer_nth (fun s r => base_size * s * r)); assumption.
Qed.

(** X7. The geometry of a level's base anchors, for a square root that is
    exact on the ratio: the anchor of ratio [r] and scale [s] stands at index
    [ri * num_scales + si] when [scale_major] is set and at
    [si * num_ratios + ri] otherwise; it is centered on the given center, or
    on [center_offset * base_size] in both directions without one; its
    height is [r] times its width, and its area is [(base_size * s)^2]
    whatever the ratio. *)
Theorem base_anchor_geometry (co : Q) (major : bool) (base_size : Q)
    (scales ratios : list Q) (center : option (Q * Q)) (ri si : nat) (r s : Q) :
  nth_error ratios ri = Some r -> nth_error scales si = Some s ->
  sqrt r * sqrt r == r -> ~ sqrt r == 0 ->
  exists b,
    nth_error (gen_single_level_base_anchors sqrt co major base_size scales
                 ratios center)
              (anchor_index major (length ratios) (length scales) ri si)
    = Some b /\
    fst (box_center b) == fst (anchor_center co base_size center) /\
    snd (box_center b) == snd (anchor_center co base_size center) /\
    box_height b == r * box_width b /\
    box_width b * box_height b == (base_size * s) * (base_size * s).
Proof.
  intros Hr Hs Hsq Hnz.
  pose proof (base_anchor_at co major base_size scales ratios center ri si r s
                Hr Hs) as H.
  destruct (anchor_center co base_size center) as [xc yc].
  destruct H as (ws & hs & Hws & Hhs & Hnth).
  eexists. split; [exact Hnth|].
  unfold box_center, box_width, box_height. cbn [fst snd bx1 bx2 by1 by2].
  split; [field|]. split; [field|].
  assert (Hw : xc + (1 # 2) * ws - (xc - (1 # 2) * ws) == ws) by ring.
  assert (Hh : yc + (1 # 2) * hs - (yc - (1 # 2) * hs) == hs) by ring.
  rewrite Hw, Hh, Hws, Hhs. split.
  - rewrite <- Hsq at 2. field. exact Hnz.
  - field. exact Hnz.
Qed.

End Geometry.

(** X7, witness: ratio 4 and scale 2 on a base size of 8, where the stand-in
    square root is exact: the anchor is 8 wide and 32 high. *)
Lemma base_anchor_geometry_witness :
  exists b,
    nth_error (gen_single_level_base_anchors sqrt_q 0 true 8 [1; 2]
                 [1 # 4; 1; 4] None) 5 = Some b /\
    fst (box_center b) == 0 /\ snd (box_center b) == 0 /\
    box_height b == 4 * box_width b /\
    box_width b * box_height b == (8 * 2) * (8 * 2).
Proof.
  apply (base_anchor_geometry sqrt_q 0 true 8 [1; 2] [1 # 4; 1; 4] None
           2 1 4 2); try reflexivity.
  discriminate.
Defined.

(** *** The base anchors of the SSD generator *)

Lemma ssd_indices_length (n : nat) : length (ssd_indices n) = S n.
Proof.
  unfold ssd_indices, list_insert.
  rewrite length_app, length_firstn. cbn [length].
  rewrite length_skipn, length_seq. lia.
Qed.

Lemma ssd_indices_nth (n j : nat) :
  (1 <= n)%nat -> (j <= n)%nat ->
  nth_error (ssd_indices n) j
  = Some (match j with
          | 0 => 0
          | 1 => n
          | S (S k) => S k
          end)%nat.
Proof.
  intros Hn Hj. unfold ssd_indices, list_insert.
  destruct n as [|n]; [lia|]. cbn [seq firstn skipn app].
  destruct j as [|[|k]]; [reflexivity | reflexivity |].
  cbn [nth_error]. rewrite nth_error_seq_lt by lia. reflexivity.
Qed.

Lemma index_select_ok {A : Type} (t : list A) (indices : list nat) :
  Forall (fun i => (i < length t)%nat) indices ->
  exists sel,
    index_select t indices = Ok sel /\
    length sel = length indices /\
    forall j i, nth_error indices j = Some i ->
                nth_error sel j = nth_error t i.
Proof.
  intros Hall. induction Hall as [|i indices Hi _ IH].
  - exists []. repeat split. intros [|j] i H; discriminate.
  - destruct IH as (sel & Hsel & Hlen & Hnth).
    unfold index_select in *. cbn [mapM].
    destruct (nth_error t i) as [a|] eqn:Ea;
      [|apply nth_error_None in Ea; lia].
    rewrite bind_ok, Hsel, bind_ok. exists (a :: sel).
    split; [reflexivity|]. split; [simpl; now rewrite Hlen|].
    intros [|j] i' H; simpl in H.
    + injection H as <-. simpl. now rewrite Ea.
    + simpl. apply Hnth. exact H.
Qed.

Section SSD.

Variable sqrt : Q -> Q.

Lemma ssd_gen_base_anchors_from_levels (self : ssd) (sizes : list Q) (i : nat) :
  (i + length sizes <= length (ssd_scales self))%nat ->
  (i + length sizes <= length (ssd_ratios self))%nat ->
  (i + length sizes <= length (ssd_centers self))%nat ->
  Forall (fun s => (2 <= length s)%nat) (ssd_scales self) ->
  Forall (fun r => (1 <= length r)%nat) (ssd_ratios self) ->
  exists out,
    ssd_gen_base_anchors_from sqrt self i sizes = Ok out /\
    length out = length sizes /\
    forall lvl base_size, nth_error sizes lvl = Some base_size ->
      exists scales ratios center sel,
        nth_error (ssd_scales self) (i + lvl) = Some scales /\
        nth_error (ssd_ratios self) (i + lvl) = Some ratios /\
        nth_error (ssd_centers self) (i + lvl) = Some center /\
        nth_error out lvl = Some sel /\
        length sel = S (length ratios) /\
        let full := gen_single_level_base_anchors sqrt (ssd_center_offset self)
                      (ssd_scale_major self) base_size scales ratios
                      (Some center) in
        nth_error sel 0 = nth_error full 0 /\
        nth_error sel 1 = nth_error full (length ratios) /\
        forall j, (1 <= j < length ratios)%nat ->
                  nth_error sel (S j) = nth_error full j.
Proof.
  intros Hs Hr Hc Hs2 Hr1. revert i Hs Hr Hc.
  induction sizes as [|base_size sizes IH]; intros i Hs Hr Hc.
  - exists []. repeat split. intros [|lvl] ? H; discriminate.
  - simpl in Hs, Hr, Hc. cbn [ssd_gen_base_anchors_from].
    destruct (nth_error (ssd_scales self) i) as [sc|] eqn:Esc;
      [|apply nth_error_None in Esc; lia].
    destruct (nth_error (ssd_ratios self) i) as [rs|] eqn:Ers;
      [|apply nth_error_None in Ers; lia].
    destruct (nth_error (ssd_centers self) i) as [c|] eqn:Ec;
      [|apply nth_error_None in Ec; lia].
    rewrite !bind_ok.
    assert (Hsc : (2 <= length sc)%nat).
    { rewrite Forall_forall in Hs2. apply Hs2.
      eapply nth_error_In; exact Esc. }
    assert (Hrs : (1 <= length rs)%nat).
    { rewrite Forall_forall in Hr1. apply Hr1.
      eapply nth_error_In; exact Ers. }
    set (full := gen_single_level_base_anchors sqrt (ssd_center_offset self)
                   (ssd_scale_major self) base_size sc rs (Some c)).
    assert (Lfull : length full = (length rs * length sc)%nat)
      by apply gen_single_level_base_anchors_length.
    destruct (index_select_ok full (ssd_indices (length rs)))
      as (sel & Hsel & Lsel & Nsel).
    { apply Forall_forall. intros k Hk.
      apply In_nth_error in Hk. destruct Hk as (j & Hj).
      assert (Hjl : (j < length (ssd_indices (length rs)))%nat)
        by (apply nth_error_Some; congruence).
      rewrite ssd_indices_length in Hjl.
      rewrite ssd_indices_nth in Hj by lia. injection Hj as <-.
      rewrite Lfull. destruct j as [|[|j]]; nia. }
    rewrite Hsel, bind_ok.
    destruct (IH (S i)) as (more & Hmore & Lmore & Nmore); [lia | lia | lia |].
    rewrite Hmore, bind_ok. eexists. split; [reflexivity|].
    split; [simpl; now rewrite Lmore|].
    intros [|lvl] bs Hbs; simpl in Hbs.
    + injection Hbs as <-. exists sc, rs, c, sel. rewrite Nat.add_0_r.
      split; [exact Esc|]. split; [exact Ers|]. split; [exact Ec|].
      split; [reflexivity|].
      split; [rewrite Lsel; apply ssd_indices_length|].
      cbv zeta. fold full.
      split; [apply Nsel; apply ssd_indices_nth; lia|].
      split; [apply Nsel; apply ssd_indices_nth; lia|].
      intros j Hj. apply Nsel.
      rewrite ssd_indices_nth by lia. destruct j; [lia | reflexivity].
    + destruct (Nmore lvl bs Hbs) as (sc' & rs' & c' & sel' & H).
      exists sc', rs', c', sel'.
      replace (i + S lvl)%nat with (S i + lvl)%nat by lia. exact H.
Qed.

(** X21. Which base anchors the SSD generator keeps. With scales, ratios
    and a center for every level, two scales and at least one ratio per
    level, [gen_base_anchors] returns one set per level, of
    [len(ratios) + 1] anchors out of the [len(ratios) * len(scales)] that
    [gen_single_level_base_anchors] makes for the level: the first of them,
    then the one at index [len(ratios)], then those at indices 1 to
    [len(ratios) - 1]. *)
Theorem ssd_base_anchors_selection (self : ssd) :
  ssd_levels_complete self ->
  exists out,
    ssd_gen_base_anchors sqrt self = Ok out /\
    length out = length (ssd_base_sizes self) /\
    forall lvl base_size,
      nth_error (ssd_base_sizes self) lvl = Some base_size ->
      exists scales ratios center sel,
        nth_error (ssd_scales self) lvl = Some scales /\
        nth_error (ssd_ratios self) lvl = Some ratios /\
        nth_error (ssd_centers self) lvl = Some center /\
        nth_error out lvl = Some sel /\
        length sel = S (length ratios) /\
        let full := gen_single_level_base_anchors sqrt (ssd_center_offset self)
                      (ssd_scale_major self) base_size scales ratios
                      (Some center) in
        nth_error sel 0 = nth_error full 0 /\
        nth_error sel 1 = nth_error full (length ratios) /\
        forall j, (1 <= j < length ratios)%nat ->
                  nth_error sel (S j) = nth_error full j.
Proof.
  intros (Hs & Hr & Hc & Hs2 & Hr1).
  apply (ssd_gen_base_anchors_from_levels self (ssd_base_sizes self) 0);
    simpl; assumption.
Qed.

End SSD.

(** X21, witness: [ssd_example], with three ratios on the first level and
    five on the second: four and six anchors. *)
Lemma ssd_base_anchors_selection_witness :
  exists out,
    ssd_gen_base_anchors sqrt_q ssd_example = Ok out /\
    map (@length Box) out = [4; 6]%nat /\
    forall lvl base_size,
      nth_error (ssd_base_sizes ssd_example) lvl = Some base_size ->
      exists scales ratios center sel,
        nth_error (ssd_scales ssd_example) lvl = Some scales /\
        nth_error (ssd_ratios ssd_example) lvl = Some ratios /\
        nth_error (ssd_centers ssd_example) lvl = Some center /\
        nth_error out lvl = Some sel /\
        length sel = S (length ratios) /\
        let full := gen_single_level_base_anchors sqrt_q
                      (ssd_center_offset ssd_example)
                      (ssd_scale_major ssd_example) base_size scales ratios
                      (Some center) in
        nth_error sel 0 = nth_error full 0 /\
        nth_error sel 1 = nth_error full (length ratios) /\
        forall j, (1 <= j < length ratios)%nat ->
                  nth_error sel (S j) = nth_error full j.
Proof.
  destruct (ssd_base_anchors_selection sqrt_q ssd_example)
    as (out & Hout & Hlen & Hlv).
  - unfold ssd_levels_complete. simpl.
    repeat split; try lia; repeat constructor.
  - exists out. split; [exact Hout|]. split; [|exact Hlv].
    vm_compute in Hout. injection Hout as <-. reflexivity.
Defined.

End AnchorGeneratorFacts.

(** ** Anchor utilities *)

Module AnchorUtilsFacts.
Import AnchorGenerator AnchorUtils.

Lemma tensor_and_same (a b : list bool) :
  length a = length b ->
  tensor_and a b = Ok (map (fun p : bool * bool => fst p && snd p) (combine a b)).
Proof. intros H. unfold tensor_and. now rewrite H, Nat.eqb_refl. Qed.

Lemma combine_map_r {A B C : Type} (f : B -> C) (l1 : list A) (l2 : list B) :
  combine l1 (map f l2) = map (fun p => (fst p, f (snd p))) (combine l1 l2).
Proof.
  revert l2. induction l1 as [|x l1 IH]; intros [|y l2]; simpl; try reflexivity.
  now rewrite IH.
Qed.

Lemma combine_map_l {A B C : Type} (f : A * B -> C) (l1 : list A) (l2 : list B) :
  length l1 = length l2 ->
  combine (map f (combine l1 l2)) l2
  = map (fun p => (f p, snd p)) (combine l1 l2).
Proof.
  revert l2. induction l1 as [|x l1 IH]; intros [|y l2] H; simpl in *;
    try reflexivity; try discriminate.
  rewrite IH by lia. reflexivity.
Qed.

(** One more test chained onto flags computed from the anchors. *)
Lemma tensor_and_test (g : bool * Box -> bool) (c : Box -> bool)
    (v : list bool) (anchors : list Box) :
  length v = length anchors ->
  tensor_and (map g (combine v anchors)) (map c anchors)
  = Ok (map (fun p => g p && c (snd p)) (combine v anchors)).
Proof.
  intros H. rewrite tensor_and_same
    by (rewrite !length_map, length_combine; lia).
  rewrite combine_map_r, map_map, combine_map_l by exact H.
  rewrite map_map. reflexivity.
Qed.

(** With a flag per anchor and a non-negative border, the four tests are
    taken anchor by anchor. *)
Lemma anchor_inside_flags_pointwise (anchors : list Box) (v : list bool)
    (img_h img_w border : Z) :
  length v = length anchors -> (0 <= border)%Z ->
  anchor_inside_flags anchors v (img_h, img_w) border
  = Ok (map (fun p : bool * Box =>
               fst p
               && Qle_bool (inject_Z (- border)) (bx1 (snd p))
               && Qle_bool (inject_Z (- border)) (by1 (snd p))
               && Qltb (bx2 (snd p)) (inject_Z (img_w + border))
               && Qltb (by2 (snd p)) (inject_Z (img_h + border)))
            (combine v anchors)).
Proof.
  intros H Hb. unfold anchor_inside_flags.
  destruct (Z.leb_spec 0 border); [|lia].
  rewrite tensor_and_same by (now rewrite length_map).
  rewrite combine_map_r, map_map, bind_ok. cbn [fst snd].
  rewrite (tensor_and_test
             (fun p => fst p && Qle_bool (inject_Z (- border)) (bx1 (snd p))))
    by exact H.
  rewrite bind_ok.
  rewrite (tensor_and_test
             (fun p => fst p && Qle_bool (inject_Z (- border)) (bx1 (snd p))
                       && Qle_bool (inject_Z (- border)) (by1 (snd p))))
    by exact H.
  rewrite bind_ok.
  rewrite (tensor_and_test
             (fun p => fst p && Qle_bool (inject_Z (- border)) (bx1 (snd p))
                       && Qle_bool (inject_Z (- border)) (by1 (snd p))
                       && Qltb (bx2 (snd p)) (inject_Z (img_w + border))))
    by exact H.
  reflexivity.
Qed.

Lemma inside_image_tests (img_h img_w border : Z) (b : Box) :
  Qle_bool (inject_Z (- border)) (bx1 b)
  && Qle_bool (inject_Z (- border)) (by1 b)
  && Qltb (bx2 b) (inject_Z (img_w + border))
  && Qltb (by2 b) (inject_Z (img_h + border)) = true
  <-> inside_image (img_h, img_w) border b.
Proof.
  unfold inside_image. cbn [fst snd].
  rewrite !andb_true_iff, !Qle_bool_iff, !Qltb_true. tauto.
Qed.

(** The flag of every anchor, for either sign of the border. *)
Lemma anchor_inside_flags_per_anchor (flat_anchors : list Box)
    (valid_flags : list bool) (img_shape : Z * Z) (allowed_border : Z) :
  length valid_flags = length flat_anchors ->
  exists flags,
    anchor_inside_flags flat_anchors valid_flags img_shape allowed_border
    = Ok flags /\
    length flags = length flat_anchors /\
    forall i b v,
      nth_error flat_anchors i = Some b -> nth_error valid_flags i = Some v ->
      exists f,
        nth_error flags i = Some f /\
        (f = true <->
         v = true /\
         ((0 <= allowed_border)%Z -> inside_image img_shape allowed_border b)).
Proof.
  intros Hlen. destruct img_shape as [img_h img_w].
  destruct (Z.leb_spec 0 allowed_border) as [Hb|Hb].
  - rewrite anchor_inside_flags_pointwise by assumption.
    eexists. split; [reflexivity|]. split.
    + rewrite length_map, length_combine. lia.
    + intros i b v Hi Hv. eexists. split.
      * rewrite nth_error_map,
          (nth_error_combine_some _ _ _ _ _ Hv Hi). reflexivity.
      * cbn [fst snd]. rewrite <- !andb_assoc, andb_true_iff, !andb_assoc.
        rewrite inside_image_tests. tauto.
  - exists valid_flags. unfold anchor_inside_flags.
    destruct (Z.leb_spec 0 allowed_border); [lia|].
    split; [reflexivity|]. split; [exact Hlen|].
    intros i b v _ Hv. exists v. split; [exact Hv|].
    split; [intros ->; split; [reflexivity | lia] | tauto].
Qed.

(** X9. [anchor_inside_flags] with a flag per anchor returns a flag per
    anchor, and never sets one that [valid_flags] does not set: with a
    non-negative border the flag of an anchor is set exactly when its valid
    flag is set and the anchor lies inside the image widened by the border
    ([-border <= x1], [-border <= y1], [x2 < img_w + border],
    [y2 < img_h + border]); with a negative border the valid flags come back
    as they are. *)
Theorem anchor_inside_flags_meaning (flat_anchors : list Box)
    (valid_flags : list bool) (img_shape : Z * Z) (allowed_border : Z) :
  length valid_flags = length flat_anchors ->
  exists flags,
    anchor_inside_flags flat_anchors valid_flags img_shape allowed_border
    = Ok flags /\
    length flags = length flat_anchors /\
    forall i b v,
      nth_error flat_anchors i = Some b -> nth_error valid_flags i = Some v ->
      exists f,
        nth_error flags i = Some f /\
        (f = true <->
         v = true /\
         ((0 <= allowed_border)%Z -> inside_image img_shape allowed_border b)).
Proof.
  exact (anchor_inside_flags_per_anchor flat_anchors valid_flags img_shape
           allowed_border).
Qed.

(** X9, witness: two anchors in a 10 x 10 image, the second one reaching
    out of it, with and without a border of 5. *)
Lemma anchor_inside_flags_meaning_witness :
  exists flags,
    anchor_inside_flags [mkBox 0 0 4 4; mkBox 6 6 12 12] [true; true]
                        (10, 10)%Z 0 = Ok flags /\
    length flags = 2%nat /\
    forall i b v,
      nth_error [mkBox 0 0 4 4; mkBox 6 6 12 12] i = Some b ->
      nth_error [true; true] i = Some v ->
      exists f,
        nth_error flags i = Some f /\
        (f = true <->
         v = true /\ ((0 <= 0)%Z -> inside_image (10, 10)%Z 0 b)).
Proof.
  apply (anchor_inside_flags_meaning [mkBox 0 0 4 4; mkBox 6 6 12 12]
           [true; true] (10, 10)%Z 0).
  reflexivity.
Defined.


Section Pipeline.

Variable sqrt : Q -> Q.
Variable exp2 : Q -> Q.


End Pipeline.


(** *** The per-level split *)

Lemma slice_stop_nat (n k : nat) :
  slice_stop n (Z.of_nat k) = Nat.min k n.
Proof.
  unfold slice_stop. destruct (Z.ltb_spec (Z.of_nat k) 0); lia.
Qed.

(** The slice that starts after a prefix and is as long as the piece that
    follows it is that piece. *)
Lemma py_slice_piece {A : Type} (pre piece post : list A) :
  py_slice (pre ++ piece ++ post) (Z.of_nat (length pre))
           (Z.of_nat (length pre) + Z.of_nat (length piece))
  = piece.
Proof.
  unfold py_slice. rewrite <- Nat2Z.inj_add, !slice_stop_nat.
  rewrite !length_app.
  rewrite Nat.min_l by lia. rewrite Nat.min_l by lia.
  rewrite skipn_app, skipn_all, Nat.sub_diag. simpl.
  replace (length pre + length piece - length pre)%nat with (length piece)
    by lia.
  rewrite firstn_app, firstn_all, Nat.sub_diag. simpl. apply app_nil_r.
Qed.

Lemma levels_from_pieces {A : Type} (counts : list nat) :
  forall (off : nat) (rows : list (list A * list (list A))),
    (forall r, In r rows ->
       length (fst r) = off /\ map (@length A) (snd r) = counts) ->
    levels_from (map (fun r => fst r ++ concat (snd r)) rows) (Z.of_nat off)
                (map Z.of_nat counts)
    = map (fun l => map (fun r => nth l (snd r) []) rows)
          (seq 0 (length counts)).
Proof.
  induction counts as [|c counts IH]; intros off rows Hrows; [reflexivity|].
  cbn [map levels_from length seq]. f_equal.
  - rewrite map_map. apply map_ext_in. intros [pre pieces] Hin.
    destruct (Hrows _ Hin) as [Hoff Hlen]. cbn [fst snd] in *.
    destruct pieces as [|p ps]; [discriminate|]. simpl in Hlen.
    injection Hlen as Hp _. subst off c. cbn [concat nth].
    apply py_slice_piece.
  - rewrite <- seq_shift, map_map.
    specialize (IH (off + c)%nat
                  (map (fun r => (fst r ++ hd [] (snd r), tl (snd r))) rows)).
    rewrite map_map in IH. cbn [fst snd] in IH.
    rewrite Nat2Z.inj_add in IH.
    replace (map (fun r : list A * list (list A) => fst r ++ concat (snd r)) rows)
      with (map (fun x : list A * list (list A) =>
                   (fst x ++ hd [] (snd x)) ++ concat (tl (snd x))) rows).
    + rewrite IH.
      * apply map_ext. intros l. rewrite map_map. apply map_ext.
        intros [pre pieces]. cbn [fst snd].
        destruct pieces; [now destruct l | reflexivity].
      * intros r Hin. apply in_map_iff in Hin.
        destruct Hin as ([pre pieces] & <- & Hin).
        destruct (Hrows _ Hin) as [Hoff Hlen]. cbn [fst snd] in *.
        destruct pieces as [|p ps]; [discriminate|]. simpl in Hlen.
        injection Hlen as Hp Hps. cbn [hd tl].
        rewrite length_app. split; [lia | exact Hps].
    + apply map_ext_in. intros [pre pieces] Hin.
      destruct (Hrows _ Hin) as [_ Hlen]. cbn [fst snd] in *.
      destruct pieces as [|p ps]; [discriminate|]. cbn [hd tl concat].
      now rewrite app_assoc.
Qed.

Lemma concat_length_counts {A : Type} (pieces : list (list A)) :
  length (concat pieces) = list_sum (map (@length A) pieces).
Proof.
  induction pieces as [|p ps IH]; simpl; [reflexivity|].
  now rewrite length_app, IH.
Qed.

(** X11. [images_to_levels] undoes the concatenation of the levels. When
    the target of every image is the concatenation of its per-level pieces,
    and the pieces of level [l] hold [counts[l]] entries in every image, the
    call on the concatenated targets and on [counts] returns one tensor per
    level, whose row for an image is that image's piece of the level. An
    empty batch is refused. *)
Theorem images_to_levels_splits {A : Type} (imgs : list (list (list A)))
    (counts : list nat) :
  imgs <> [] ->
  (forall img, In img imgs -> map (@length A) img = counts) ->
  images_to_levels (map (@concat A) imgs) (map Z.of_nat counts)
  = Ok (map (fun l => map (fun img => nth l img []) imgs)
            (seq 0 (length counts))) /\
  images_to_levels (@nil (list A)) (map Z.of_nat counts) = Raise RuntimeError.
Proof.
  intros Hne Hall. split; [|reflexivity].
  unfold images_to_levels.
  assert (Hstack : stack (map (@concat A) imgs) = Ok (map (@concat A) imgs)).
  { destruct imgs as [|img0 imgs']; [congruence|]. cbn [map stack].
    assert (H : forallb (fun u => Nat.eqb (length u) (length (concat img0)))
                        (map (@concat A) imgs') = true).
    { apply forallb_forall. intros u Hu. apply in_map_iff in Hu.
      destruct Hu as (img & <- & Hin). apply Nat.eqb_eq.
      rewrite !concat_length_counts, (Hall img), (Hall img0);
        simpl; auto. }
    now rewrite H. }
  rewrite Hstack, bind_ok. f_equal.
  pose proof (levels_from_pieces counts 0
                (map (fun img : list (list A) => ([], img)) imgs)) as H.
  rewrite map_map in H. cbn [fst snd app] in H.
  change (Z.of_nat 0) with 0%Z in H.
  etransitivity; [apply H|].
  - intros r Hin. apply in_map_iff in Hin. destruct Hin as (img & <- & Hin).
    split; [reflexivity | apply Hall, Hin].
  - apply map_ext. intros l. now rewrite map_map.
Qed.

(** X11, witness: two images over levels of two and one entries. *)
Lemma images_to_levels_splits_witness :
  images_to_levels [[1; 2; 3]; [4; 5; 6]]%Z [2; 1]%Z
  = Ok [[[1; 2]; [4; 5]]; [[3]; [6]]]%Z /\
  images_to_levels (@nil (list Z)) [2; 1]%Z = Raise RuntimeError.
Proof.
  apply (images_to_levels_splits two_images [2; 1]%nat).
  - discriminate.
  - intros img [<-|[<-|[]]]; reflexivity.
Defined.

End AnchorUtilsFacts.

(** ** UniformAssigner *)

Module UniformAssignerFacts.
Import UniformAssigner.

(** *** [topk]: the [k] nearest *)

Lemma insert_by_cost_perm (x : Q * nat) (l : list (Q * nat)) :
  Permutation (insert_by_cost x l) (x :: l).
Proof.
  induction l as [|y l IH]; simpl; [apply Permutation_refl|].
  destruct (Qle_bool (fst x) (fst y)); [apply Permutation_refl|].
  eapply perm_trans; [apply perm_skip, IH | apply perm_swap].
Qed.

Lemma sort_by_cost_perm (l : list (Q * nat)) : Permutation (sort_by_cost l) l.
Proof.
  induction l as [|x l IH]; simpl; [constructor|].
  eapply perm_trans; [apply insert_by_cost_perm | apply perm_skip, IH].
Qed.

Lemma insert_by_cost_sorted (x : Q * nat) (l : list (Q * nat)) :
  StronglySorted by_cost l -> StronglySorted by_cost (insert_by_cost x l).
Proof.
  induction 1 as [|y l Hs IH Hall]; simpl.
  - constructor; constructor.
  - destruct (Qle_bool (fst x) (fst y)) eqn:E.
    + apply Qle_bool_iff in E. constructor; [constructor; assumption|].
      constructor; [exact E|].
      eapply Forall_impl; [|exact Hall].
      intros z Hz. unfold by_cost in *. eapply Qle_trans; eassumption.
    + constructor; [exact IH|].
      assert (Hyx : by_cost y x).
      { unfold by_cost. apply Qlt_le_weak, Qltb_true. unfold Qltb.
        now rewrite E. }
      eapply Permutation_Forall;
        [apply Permutation_sym, insert_by_cost_perm|].
      constructor; assumption.
Qed.

Lemma sort_by_cost_sorted (l : list (Q * nat)) :
  StronglySorted by_cost (sort_by_cost l).
Proof.
  induction l as [|x l IH]; simpl; [constructor|].
  apply insert_by_cost_sorted, IH.
Qed.

Lemma sorted_app_le {A : Type} (R : A -> A -> Prop) (l1 l2 : list A) :
  StronglySorted R (l1 ++ l2) ->
  forall x y, In x l1 -> In y l2 -> R x y.
Proof.
  induction l1 as [|a l1 IH]; intros Hs x y Hx Hy; [contradiction|].
  simpl in Hs. inversion Hs as [|? ? Hs' Hall]; subst.
  destruct Hx as [->|Hx].
  - rewrite Forall_forall in Hall. apply Hall, in_or_app. auto.
  - apply IH; assumption.
Qed.

Lemma in_combine_seq (col : list Q) (s : nat) (c : Q) (i : nat) :
  In (c, i) (combine col (seq s (length col))) <->
  (s <= i)%nat /\ nth_error col (i - s) = Some c.
Proof.
  revert s. induction col as [|x col IH]; intros s; simpl.
  - split; [contradiction|]. intros [_ H]. destruct (i - s)%nat; discriminate.
  - rewrite IH. split.
    + intros [H|[Hle Hn]].
      * injection H as -> ->. rewrite Nat.sub_diag. simpl. auto.
      * split; [lia|]. replace (i - s)%nat with (S (i - S s)) by lia.
        exact Hn.
    + intros [Hle Hn]. destruct (Nat.eq_dec s i) as [->|Hne].
      * rewrite Nat.sub_diag in Hn. simpl in Hn. left. congruence.
      * right. split; [lia|].
        replace (i - s)%nat with (S (i - S s)) in Hn by lia. exact Hn.
Qed.

Lemma map_snd_combine_seq (col : list Q) (s : nat) :
  map snd (combine col (seq s (length col))) = seq s (length col).
Proof.
  revert s. induction col as [|x col IH]; intros s; simpl; [reflexivity|].
  now rewrite IH.
Qed.

Lemma argsort_perm (col : list Q) :
  Permutation (argsort col) (seq 0 (length col)).
Proof.
  unfold argsort.
  rewrite <- (map_snd_combine_seq col 0) at 2.
  apply Permutation_map, sort_by_cost_perm.
Qed.

Lemma argsort_length (col : list Q) : length (argsort col) = length col.
Proof.
  rewrite (Permutation_length (argsort_perm col)). apply length_seq.
Qed.

Lemma topk_smallest_nearest (k : nat) (col : list Q) :
  (k <= length col)%nat ->
  exists sel, topk_smallest k col = Ok sel /\ k_nearest k col sel.
Proof.
  intros Hk. unfold topk_smallest.
  destruct (Nat.ltb_spec (length col) k) as [|_]; [lia|].
  eexists. split; [reflexivity|].
  pose proof (argsort_perm col) as Hperm.
  assert (Hnd : NoDup (argsort col)).
  { eapply Permutation_NoDup; [apply Permutation_sym, Hperm | apply seq_NoDup]. }
  unfold k_nearest. split; [|split; [|split]].
  - rewrite length_firstn, argsort_length. lia.
  - rewrite <- (firstn_skipn k (argsort col)) in Hnd.
    apply NoDup_app_remove_r in Hnd. exact Hnd.
  - intros i Hi. apply in_firstn in Hi.
    apply (Permutation_in _ Hperm), in_seq in Hi. lia.
  - intros i j Hi Hj Hnj.
    set (L := sort_by_cost (combine col (seq 0 (length col)))) in *.
    assert (HL : Permutation L (combine col (seq 0 (length col))))
      by apply sort_by_cost_perm.
    unfold argsort in Hi, Hnj. fold L in Hi, Hnj.
    rewrite firstn_map in Hi, Hnj.
    apply in_map_iff in Hi. destruct Hi as ([c i'] & Heq & Hin).
    simpl in Heq. subst i'.
    assert (Hc : nth i col 0 = c).
    { apply in_firstn in Hin. apply (Permutation_in _ HL) in Hin.
      apply in_combine_seq in Hin. destruct Hin as [_ Hn].
      rewrite Nat.sub_0_r in Hn. now apply nth_error_nth. }
    assert (HjL : In (nth j col 0, j) L).
    { apply (Permutation_in _ (Permutation_sym HL)).
      apply in_combine_seq. split; [lia|]. rewrite Nat.sub_0_r.
      now apply nth_error_nth'. }
    rewrite <- (firstn_skipn k L) in HjL. apply in_app_or in HjL.
    destruct HjL as [HjL|HjL].
    + exfalso. apply Hnj. apply in_map_iff.
      exists (nth j col 0, j). auto.
    + rewrite Hc. change (by_cost (c, i) (nth j col 0, j)).
      apply (sorted_app_le by_cost (firstn k L) (skipn k L)
               ltac:(rewrite firstn_skipn; apply sort_by_cost_sorted)
               (c, i) (nth j col 0, j) Hin HjL).
Qed.

Lemma topk_smallest_raises (k : nat) (col : list Q) :
  (length col < k)%nat -> topk_smallest k col = Raise RuntimeError.
Proof.
  intros Hk. unfold topk_smallest.
  destruct (Nat.ltb_spec (length col) k); [reflexivity | lia].
Qed.

(** *** Tensor bookkeeping *)

Lemma combine_app_same {A B : Type} (l1 l2 : list A) (m1 m2 : list B) :
  length l1 = length m1 ->
  combine (l1 ++ l2) (m1 ++ m2) = combine l1 m1 ++ combine l2 m2.
Proof.
  revert m1. induction l1 as [|x l1 IH]; intros [|y m1] H; simpl in *;
    try discriminate; [reflexivity|].
  f_equal. apply IH. lia.
Qed.

Lemma map_via_seq {A B : Type} (f : A -> B) (l : list A) (d : A) :
  map f l = map (fun g => f (nth g l d)) (seq 0 (length l)).
Proof.
  induction l as [|x l IH]; simpl; [reflexivity|].
  f_equal. rewrite <- seq_shift, map_map. exact IH.
Qed.

Lemma combine_map_seq {A : Type} (h : nat -> A) (s : list nat) :
  combine (map h s) s = map (fun g => (h g, g)) s.
Proof.
  induction s as [|x s IH]; simpl; [reflexivity|]. now rewrite IH.
Qed.

Lemma index_row_via_seq (index : list (list nat)) (r : nat) :
  index_row index r
  = map (fun g => nth r (nth g index []) 0%nat) (seq 0 (length index)).
Proof.
  unfold index_row. apply (map_via_seq (fun col => nth r col 0%nat) index []).
Qed.

Lemma combine_rows_with_ranges (index index1 : list (list nat))
    (rs : list nat) :
  length index1 = length index ->
  combine (flat_map (fun r => index_row index r ++ index_row index1 r) rs)
          (concat (repeat (seq 0 (length index)) (2 * length rs)))
  = flat_map
      (fun r =>
         map (fun g => (nth r (nth g index []) 0%nat, g))
             (seq 0 (length index))
         ++ map (fun g => (nth r (nth g index1 []) 0%nat, g))
                (seq 0 (length index))) rs.
Proof.
  intros Hlen. induction rs as [|r rs IH]; [reflexivity|].
  replace (2 * length (r :: rs))%nat with (S (S (2 * length rs)))
    by (simpl; lia).
  set (m := (2 * length rs)%nat) in *.
  simpl. rewrite app_assoc.
  rewrite combine_app_same
    by (rewrite !length_app; unfold index_row;
        rewrite !length_map, !length_seq; lia).
  rewrite combine_app_same
    by (unfold index_row; rewrite length_map, length_seq; reflexivity).
  rewrite IH.
  rewrite (index_row_via_seq index), (index_row_via_seq index1), Hlen.
  now rewrite !combine_map_seq.
Qed.

(** The flat index tensor and the repeated ground-truth range pair up as
    [entries] lists them. *)
Lemma combine_indexes_pos_gt_index (k : nat) (index index1 : list (list nat)) :
  length index1 = length index ->
  combine (cat_reshape k index index1)
          (arange_repeat (length index) (k * 2))
  = entries k (length index) index index1.
Proof.
  intros Hlen. unfold cat_reshape, arange_repeat, entries.
  replace (k * 2)%nat with (2 * length (seq 0 k))%nat
    by (rewrite length_seq; lia).
  apply combine_rows_with_ranges. exact Hlen.
Qed.

Lemma mapM_seq_spec {B : Type} (f : nat -> result B) (P : nat -> B -> Prop)
    (d : B) (n s : nat) :
  (forall g, (s <= g < s + n)%nat -> exists b, f g = Ok b /\ P g b) ->
  exists out,
    mapM f (seq s n) = Ok out /\
    length out = n /\
    forall i, (i < n)%nat -> P (s + i)%nat (nth i out d).
Proof.
  revert s. induction n as [|n IH]; intros s H; simpl.
  - exists []. repeat split. intros i Hi. lia.
  - destruct (H s) as (b & Hb & HP); [lia|].
    destruct (IH (S s)) as (out & Hout & Hlen & Hnth).
    { intros g Hg. apply H. lia. }
    rewrite Hb, Hout. simpl. exists (b :: out).
    split; [reflexivity|]. split; [simpl; now rewrite Hlen|].
    intros [|i] Hi; simpl.
    + now rewrite Nat.add_0_r.
    + replace (s + S i)%nat with (S s + i)%nat by lia. apply Hnth. lia.
Qed.

(** Column [g] of the cost matrix lists the costs of ground truth [g]. *)
Lemma column_costs (boxes gts : list Box) (g : nat) :
  (g < length gts)%nat ->
  column g (cdist (map bbox_xyxy_to_cxcywh boxes)
                  (map bbox_xyxy_to_cxcywh gts))
  = map (fun b => cost b (nth g gts box0)) boxes.
Proof.
  intros Hg. unfold column, cdist. rewrite !map_map.
  apply map_ext. intros b. unfold cost.
  rewrite (nth_indep _ 0 (l1_dist (bbox_xyxy_to_cxcywh b)
                                  (bbox_xyxy_to_cxcywh box0)))
    by (rewrite !length_map; exact Hg).
  rewrite (map_nth (l1_dist (bbox_xyxy_to_cxcywh b))).
  now rewrite (map_nth bbox_xyxy_to_cxcywh).
Qed.

(** Column [g] of an overlap matrix lists the overlaps with ground truth
    [g]. *)
Lemma column_overlaps (self : t) (boxes gts : list Box) (g : nat) :
  (g < length gts)%nat ->
  column g (iou_calculator self boxes gts)
  = map (fun b => iou self b (nth g gts box0)) boxes.
Proof.
  intros Hg. unfold column, iou_calculator. rewrite map_map.
  apply map_ext. intros b.
  rewrite (nth_indep _ 0 (iou self b box0)) by (rewrite length_map; exact Hg).
  apply map_nth.
Qed.

(** [topk] along dimension 0 of a cost matrix: for every ground truth the
    [k] nearest of the boxes. *)
Lemma topk_dim0_nearest (k : nat) (boxes gts : list Box) :
  (k <= length boxes)%nat ->
  exists index,
    topk_dim0 k (cdist (map bbox_xyxy_to_cxcywh boxes)
                       (map bbox_xyxy_to_cxcywh gts)) (length gts)
    = Ok index /\
    length index = length gts /\
    forall g, (g < length gts)%nat ->
      k_nearest k (map (fun b => cost b (nth g gts box0)) boxes)
                (nth g index []).
Proof.
  intros Hk. unfold topk_dim0.
  apply (mapM_seq_spec _
           (fun g sel => k_nearest k (map (fun b => cost b (nth g gts box0))
                                          boxes) sel) [] (length gts) 0).
  intros g Hg. rewrite column_costs by lia.
  apply topk_smallest_nearest. now rewrite length_map.
Qed.

Lemma k_nearest_nth (k : nat) (col : list Q) (sel : list nat) (r : nat) :
  k_nearest k col sel -> (r < k)%nat -> (nth r sel 0 < length col)%nat.
Proof.
  intros (Hlen & _ & Hin & _) Hr. apply Hin, nth_In. lia.
Qed.

(** *** Maxima *)

Lemma fold_py_max_is_max (l : list Q) (x : Q) :
  is_max (fold_left py_max l x) (x :: l).
Proof.
  revert x. induction l as [|y l IH]; intros x; simpl.
  - split; [simpl; auto|]. intros z [<-|[]]. apply Qle_refl.
  - destruct (IH (py_max x y)) as [Hin Hle]. split.
    + destruct Hin as [Hin|Hin]; [|right; right; exact Hin].
      destruct (py_max_cases x y) as [E|E].
      * left. transitivity (py_max x y); [symmetry; exact E | exact Hin].
      * right. left.
        transitivity (py_max x y); [symmetry; exact E | exact Hin].
    + intros z [Hz|[Hz|Hz]].
      * subst z. eapply Qle_trans; [apply (py_max_lower x y)|].
        apply Hle. left. reflexivity.
      * subst z. eapply Qle_trans; [apply (py_max_lower x y)|].
        apply Hle. left. reflexivity.
      * apply Hle. right. exact Hz.
Qed.

Lemma max_list_is_max (l : list Q) :
  l <> [] -> exists m, max_list l = Ok m /\ is_max m l.
Proof.
  destruct l as [|x l]; [congruence|]. intros _.
  eexists. split; [reflexivity | apply fold_py_max_is_max].
Qed.

(** The per-candidate maximum over the ground truths. *)
Lemma max_dim1_overlaps (self : t) (boxes gts : list Box) :
  gts <> [] ->
  exists ms,
    max_dim1 (iou_calculator self boxes gts) = Ok ms /\
    length ms = length boxes /\
    forall c, (c < length boxes)%nat ->
      is_max (nth c ms 0) (map (iou self (nth c boxes box0)) gts).
Proof.
  intros Hg. unfold max_dim1, iou_calculator.
  induction boxes as [|b boxes IH]; simpl.
  - exists []. split; [reflexivity|]. split; [reflexivity|].
    intros c Hc. simpl in Hc. lia.
  - destruct (max_list_is_max (map (iou self b) gts)) as (m & Hm & Hmax).
    { destruct gts; [congruence | discriminate]. }
    destruct IH as (ms & Hms & Hlen & Hnth).
    rewrite Hm, Hms. simpl. exists (m :: ms).
    split; [reflexivity|]. split; [simpl; now rewrite Hlen|].
    intros [|c] Hc; simpl; [exact Hmax|]. apply Hnth. lia.
Qed.

(** The per-ground-truth maximum over the anchors. *)
Lemma max_dim0_overlaps (self : t) (boxes gts : list Box) :
  boxes <> [] ->
  exists ms,
    max_dim0 (iou_calculator self boxes gts) (length gts) = Ok ms /\
    length ms = length gts /\
    forall g, (g < length gts)%nat ->
      is_max (nth g ms 0) (map (fun b => iou self b (nth g gts box0)) boxes).
Proof.
  intros Hb. unfold max_dim0.
  apply (mapM_seq_spec _
           (fun g m => is_max m (map (fun b => iou self b (nth g gts box0))
                                     boxes)) 0 (length gts) 0).
  intros g Hg. rewrite column_overlaps by lia.
  apply max_list_is_max. destruct boxes; [congruence | discriminate].
Qed.

(** *** Writes *)

Lemma neg_ignore_values (self : t) (ms : list Q) :
  neg_ignore self ms (repeat 0%Z (length ms))
  = map (fun m => if Qltb (neg_ignore_thr self) m then (-1)%Z else 0%Z) ms.
Proof.
  unfold neg_ignore, masked_fill.
  induction ms as [|m ms IH]; simpl; [reflexivity|]. now rewrite IH.
Qed.

Lemma replace_at_length (a : list Z) (i : nat) (v : Z) :
  (i < length a)%nat -> length (firstn i a ++ v :: skipn (S i) a) = length a.
Proof.
  intros Hi. rewrite length_app, length_firstn. cbn [length].
  rewrite length_skipn. lia.
Qed.

Lemma replace_at_nth (a : list Z) (i : nat) (v : Z) (c : nat) :
  (i < length a)%nat ->
  nth c (firstn i a ++ v :: skipn (S i) a) 0%Z
  = if Nat.eqb i c then v else nth c a 0%Z.
Proof.
  intros Hi. destruct (Nat.eqb_spec i c) as [->|Hne].
  - rewrite app_nth2 by (rewrite length_firstn; lia).
    rewrite length_firstn, Nat.min_l by lia. now rewrite Nat.sub_diag.
  - destruct (Nat.lt_ge_cases c i) as [Hlt|Hge].
    + rewrite app_nth1 by (rewrite length_firstn; lia).
      rewrite <- (firstn_skipn i a) at 2.
      now rewrite app_nth1 by (rewrite length_firstn; lia).
    + rewrite app_nth2 by (rewrite length_firstn; lia).
      rewrite length_firstn, Nat.min_l by lia.
      destruct (c - i)%nat as [|d] eqn:Ed; [lia|]. cbn [nth].
      rewrite <- (firstn_skipn (S i) a) at 2.
      rewrite app_nth2 by (rewrite length_firstn; lia).
      rewrite length_firstn, Nat.min_l by lia. f_equal. lia.
Qed.

Lemma write_length (a : list Z) (i : nat) (v : Z) (a' : list Z) :
  write a i v = Ok a' -> length a' = length a /\ (i < length a)%nat.
Proof.
  unfold write. destruct (Nat.ltb_spec i (length a)) as [Hi|]; [|discriminate].
  intros H. injection H as <-. split; [|exact Hi].
  apply replace_at_length. exact Hi.
Qed.

Lemma write_nth (a : list Z) (i : nat) (v : Z) (c : nat) :
  (i < length a)%nat ->
  exists a', write a i v = Ok a' /\
             nth c a' 0%Z = if Nat.eqb i c then v else nth c a 0%Z.
Proof.
  intros Hi. unfold write.
  destruct (Nat.ltb_spec i (length a)) as [_|]; [|lia].
  eexists. split; [reflexivity|]. apply replace_at_nth. exact Hi.
Qed.

(** [index_put] returns when every index is in range; each place then holds
    the value of the last write to it, or its old value when there is
    none. *)
Lemma index_put_last_write (writes : list (nat * Z)) (a : list Z) :
  Forall (fun w => (fst w < length a)%nat) writes ->
  exists a',
    index_put a writes = Ok a' /\
    length a' = length a /\
    forall c, nth c a' 0%Z = match last_write writes c with
                             | Some v => v
                             | None => nth c a 0%Z
                             end.
Proof.
  revert a. induction writes as [|[i v] writes IH]; intros a Hall; simpl.
  - exists a. auto.
  - inversion Hall as [|? ? Hi Hrest]; subst. simpl in Hi.
    destruct (write_nth a i v 0 Hi) as (a1 & Ha1 & _).
    rewrite Ha1. simpl.
    destruct (write_length _ _ _ _ Ha1) as [Hlen _].
    destruct (IH a1) as (a' & Ha' & Hlen' & Hnth).
    { rewrite Hlen. exact Hrest. }
    exists a'. split; [exact Ha'|]. split; [congruence|].
    intros c. rewrite Hnth.
    destruct (last_write writes c); [reflexivity|].
    destruct (write_nth a i v c Hi) as (a2 & Ha2 & Hc).
    assert (a2 = a1) by congruence. subst a2. rewrite Hc.
    destruct (Nat.eqb i c); reflexivity.
Qed.


Lemma last_write_in (writes : list (nat * Z)) (c : nat) (v : Z) :
  last_write writes c = Some v -> In (c, v) writes.
Proof.
  induction writes as [|[i w] writes IH]; simpl; [discriminate|].
  destruct (last_write writes c) as [u|].
  - intros H. right. apply IH. exact H.
  - destruct (Nat.eqb_spec i c) as [->|]; [|discriminate].
    intros H. injection H as ->. left. reflexivity.
Qed.

Lemma last_write_some (writes : list (nat * Z)) (c : nat) (v : Z) :
  In (c, v) writes -> exists w, last_write writes c = Some w.
Proof.
  induction writes as [|[i u] writes IH]; simpl; [contradiction|].
  intros [H|H].
  - injection H as -> ->. destruct (last_write writes c); [eauto|].
    rewrite Nat.eqb_refl. eauto.
  - destruct (IH H) as (w & ->). eauto.
Qed.

Lemma last_write_none (writes : list (nat * Z)) (c : nat) :
  last_write writes c = None <-> ~ In c (map fst writes).
Proof.
  induction writes as [|[i u] writes IH]; simpl; [tauto|].
  destruct (last_write writes c) as [w|].
  - split; [discriminate|]. intros H. exfalso.
    assert (Hn : ~ In c (map fst writes)) by tauto.
    apply IH in Hn. discriminate.
  - destruct (Nat.eqb_spec i c) as [->|Hne].
    + split; [discriminate|]. tauto.
    + split; [|reflexivity]. intros _ [H|H]; [congruence|].
      now apply (proj1 IH).
Qed.

(** The last write to [c] in a list ending with a write to [c] is that
    write. *)
Lemma last_write_app (w1 w2 : list (nat * Z)) (c : nat) :
  last_write (w1 ++ w2) c = match last_write w2 c with
                            | Some v => Some v
                            | None => last_write w1 c
                            end.
Proof.
  induction w1 as [|[i u] w1 IH]; simpl.
  - destruct (last_write w2 c); reflexivity.
  - rewrite IH. destruct (last_write w2 c); reflexivity.
Qed.

(** *** Gathering *)

Lemma gather2_overlaps (self : t) (boxes gts : list Box)
    (es : list (nat * nat)) :
  Forall (fun e => (fst e < length boxes)%nat /\ (snd e < length gts)%nat) es ->
  gather2 (iou_calculator self boxes gts) (map fst es) (map snd es)
  = Ok (map (fun e => iou self (nth (fst e) boxes box0)
                               (nth (snd e) gts box0)) es).
Proof.
  intros Hall. unfold gather2.
  replace (combine (map fst es) (map snd es)) with es.
  2:{ clear Hall. induction es as [|[c g] es IH]; simpl; [reflexivity|].
      now rewrite <- IH. }
  apply mapM_total. intros [c g] Hin. rewrite Forall_forall in Hall.
  destruct (Hall _ Hin) as [Hc Hg]. simpl in *.
  unfold getitem, iou_calculator.
  rewrite nth_error_map, (nth_error_nth' boxes box0 Hc). simpl.
  rewrite nth_error_map, (nth_error_nth' gts box0 Hg). reflexivity.
Qed.

Lemma getitem_map {A : Type} (a : list A) (d : A) (idx : list nat) :
  Forall (fun i => (i < length a)%nat) idx ->
  mapM (getitem a) idx = Ok (map (fun i => nth i a d) idx).
Proof.
  intros Hall. apply mapM_total. intros i Hi.
  rewrite Forall_forall in Hall. unfold getitem.
  now rewrite (nth_error_nth' a d (Hall i Hi)).
Qed.

(** *** The selected pairs *)

Lemma entries_in (k G : nat) (index index1 : list (list nat)) (e : nat * nat) :
  In e (entries k G index index1) <->
  exists r, (r < k)%nat /\ (snd e < G)%nat /\
            (fst e = nth r (nth (snd e) index []) 0%nat \/
             fst e = nth r (nth (snd e) index1 []) 0%nat).
Proof.
  unfold entries. rewrite in_flat_map. split.
  - intros (r & Hr & Hin). apply in_seq in Hr. exists r.
    apply in_app_or in Hin.
    destruct Hin as [Hin|Hin]; apply in_map_iff in Hin;
      destruct Hin as (g & <- & Hg); apply in_seq in Hg; simpl;
      (split; [lia|]); (split; [lia|]); auto.
  - intros (r & Hr & Hg & Hc). exists r. split; [apply in_seq; lia|].
    apply in_or_app. destruct e as [c g]. simpl in *.
    destruct Hc as [->| ->]; [left | right]; apply in_map_iff;
      exists g; (split; [reflexivity | apply in_seq; lia]).
Qed.

Lemma entries_length (k G : nat) (index index1 : list (list nat)) :
  length (entries k G index index1) = (k * 2 * G)%nat.
Proof.
  unfold entries. rewrite (flat_map_uniform_length _ (2 * G)).
  - rewrite length_seq. lia.
  - intros r _. rewrite length_app, !length_map, !length_seq. lia.
Qed.

Lemma combine_split_maps {A B : Type} (l1 : list A) (l2 : list B)
    (es : list (A * B)) :
  combine l1 l2 = es -> length l1 = length l2 ->
  l1 = map fst es /\ l2 = map snd es.
Proof.
  intros <-. revert l2. induction l1 as [|x l1 IH]; intros [|y l2] H;
    simpl in *; try discriminate; [auto|].
  destruct (IH l2) as [H1 H2]; [lia|]. split; f_equal; assumption.
Qed.

Lemma cat_reshape_length (k : nat) (index index1 : list (list nat)) :
  length (cat_reshape k index index1)
  = (k * (length index + length index1))%nat.
Proof.
  unfold cat_reshape.
  rewrite (flat_map_uniform_length _ (length index + length index1)).
  - now rewrite length_seq.
  - intros r _. unfold index_row. now rewrite length_app, !length_map.
Qed.

Lemma arange_repeat_length (n times : nat) :
  length (arange_repeat n times) = (times * n)%nat.
Proof.
  unfold arange_repeat. induction times as [|m IH]; simpl; [reflexivity|].
  now rewrite length_app, length_seq, IH.
Qed.

Lemma with_ignore_map {E : Type} (es : list E) (g : E -> nat) (f : E -> bool) :
  with_ignore (map g es) (map f es)
  = map (fun e => if f e then (-1)%Z else (Z.of_nat (g e) + 1)%Z) es.
Proof.
  unfold with_ignore. induction es as [|e es IH]; simpl; [reflexivity|].
  now rewrite IH.
Qed.

Lemma combine_map_map {E A B : Type} (es : list E) (f : E -> A) (g : E -> B) :
  combine (map f es) (map g es) = map (fun e => (f e, g e)) es.
Proof.
  induction es as [|e es IH]; simpl; [reflexivity|]. now rewrite IH.
Qed.

(** The selected pairs name existing candidates and ground truths. *)
Lemma entries_in_range (k G N : nat) (index index1 : list (list nat))
    (cols cols1 : nat -> list Q) :
  (forall g, (g < G)%nat -> length (cols g) = N /\ length (cols1 g) = N) ->
  (forall g, (g < G)%nat ->
             k_nearest k (cols g) (nth g index []) /\
             k_nearest k (cols1 g) (nth g index1 [])) ->
  Forall (fun e => (fst e < N)%nat /\ (snd e < G)%nat)
         (entries k G index index1).
Proof.
  intros Hlen Hnear. apply Forall_forall. intros [c g] Hin.
  apply entries_in in Hin. destruct Hin as (r & Hr & Hg & Hc). simpl in *.
  split; [|exact Hg].
  destruct (Hnear g Hg) as [H0 H1]. destruct (Hlen g Hg) as [L0 L1].
  destruct Hc as [->| ->].
  - rewrite <- L0. eapply k_nearest_nth; eassumption.
  - rewrite <- L1. eapply k_nearest_nth; eassumption.
Qed.

(** Every value [index_put] leaves is an old value or a written one. *)
Lemma entry_value_cases (self : t) (anchor gts : list Box) (e : nat * nat) :
  entry_value self anchor gts e = (-1)%Z \/
  entry_value self anchor gts e = (Z.of_nat (snd e) + 1)%Z.
Proof. unfold entry_value. destruct (Qltb _ _); auto. Qed.

Lemma assign_labels_ok (ginds gl : list Z) (G : nat) :
  length gl = G ->
  Forall (fun v => (v <= Z.of_nat G)%Z) ginds ->
  exists lbls, assign_labels ginds gl = Ok lbls /\ length lbls = length ginds.
Proof.
  intros Hgl Hall.
  exists (map (fun v => if (0 <? v)%Z then nth (Z.to_nat (v - 1)) gl 0%Z
                        else (-1)%Z) ginds).
  split; [|apply length_map].
  apply mapM_total. intros v Hv. rewrite Forall_forall in Hall.
  specialize (Hall v Hv). destruct (Z.ltb_spec 0 v); [|reflexivity].
  unfold getitem. rewrite (nth_error_nth' gl 0%Z); [reflexivity | lia].
Qed.

Lemma neg_ignore_cases (self : t) (ms : list Q) (N : nat) :
  length ms = N ->
  Forall (fun v => v = (-1)%Z \/ v = 0%Z)
         (neg_ignore self ms (repeat 0%Z N)).
Proof.
  intros <-. rewrite neg_ignore_values, Forall_map.
  apply Forall_forall. intros m _. destruct (Qltb _ _); auto.
Qed.

(** *** The main path of [assign] *)

Lemma assign_main_path (self : t) (bbox_pred anchor gts : list Box)
    (gt_labels : option (list Z)) :
  main_path_inputs self bbox_pred anchor gts gt_labels ->
  exists index index1 pred_max anchor_max ginds lbls,
    let G := length gts in
    let N := length bbox_pred in
    let T := match_times self in
    let es := entries T G index index1 in
    topk_dim0 T (costs_to gts bbox_pred) G = Ok index /\
    topk_dim0 T (costs_to gts anchor) G = Ok index1 /\
    length index = G /\ length index1 = G /\
    (forall g, (g < G)%nat ->
       k_nearest T (map (fun b => cost b (nth g gts box0)) bbox_pred)
                 (nth g index []) /\
       k_nearest T (map (fun b => cost b (nth g gts box0)) anchor)
                 (nth g index1 [])) /\
    select_indexes self bbox_pred anchor gts = Ok (map fst es) /\
    Forall (fun e => (fst e < N)%nat /\ (snd e < G)%nat) es /\
    max_dim1 (iou_calculator self bbox_pred gts) = Ok pred_max /\
    length pred_max = N /\
    (forall c, (c < N)%nat ->
       is_max (nth c pred_max 0) (map (iou self (nth c bbox_pred box0)) gts)) /\
    max_dim0 (iou_calculator self anchor gts) G = Ok anchor_max /\
    length anchor_max = G /\
    index_put (neg_ignore self pred_max (repeat 0%Z N))
              (map (fun e => (fst e, entry_value self anchor gts e)) es)
    = Ok ginds /\
    length ginds = N /\
    match gt_labels with
    | Some gl => exists l, assign_labels ginds gl = Ok l /\ lbls = Some l
    | None => lbls = None
    end /\
    assign self bbox_pred anchor gts gt_labels
    = Ok (mkAssignResult G ginds (Some anchor_max) lbls
            (map (fun e => negb (Qltb (anchor_iou self anchor gts e)
                                      (pos_ignore_thr self))) es)
            (map (fun e => nth (fst e) bbox_pred box0) es)
            (map (fun e => nth (snd e) gts box0) es)).
Proof.
  intros (Hg & Hn & HT & Ha & Hl).
  set (G := length gts). set (N := length bbox_pred).
  set (T := match_times self).
  destruct (topk_dim0_nearest T bbox_pred gts HT) as (index & Hi & Li & Ki).
  destruct (topk_dim0_nearest T anchor gts) as (index1 & Hi1 & Li1 & Ki1);
    [rewrite Ha; exact HT|].
  destruct (max_dim1_overlaps self bbox_pred gts Hg) as (pm & Hpm & Lpm & Mpm).
  destruct (max_dim0_overlaps self anchor gts) as (am & Ham & Lam & _).
  { intros ->. destruct bbox_pred; [congruence | discriminate]. }
  set (es := entries T G index index1).
  assert (Hcomb : cat_reshape T index index1 = map fst es /\
                  arange_repeat G (T * 2) = map snd es).
  { apply combine_split_maps.
    - unfold es, G. rewrite <- Li. apply combine_indexes_pos_gt_index.
      congruence.
    - rewrite cat_reshape_length, arange_repeat_length, Li, Li1.
      fold G. lia. }
  destruct Hcomb as [Hcat Hrep].
  assert (Hrange : Forall (fun e => (fst e < N)%nat /\ (snd e < G)%nat) es).
  { apply (entries_in_range T G N index index1
             (fun g => map (fun b => cost b (nth g gts box0)) bbox_pred)
             (fun g => map (fun b => cost b (nth g gts box0)) anchor)).
    - intros g _. rewrite !length_map. auto.
    - intros g Hlt. split; [apply Ki | apply Ki1]; exact Hlt. }
  assert (Hsel : select_indexes self bbox_pred anchor gts = Ok (map fst es)).
  { unfold select_indexes. fold T. unfold costs_to in Hi, Hi1.
    rewrite Hi, bind_ok, Hi1, bind_ok. now rewrite Hcat. }
  set (writes := map (fun e => (fst e, entry_value self anchor gts e)) es).
  destruct (index_put_last_write writes (neg_ignore self pm (repeat 0%Z N)))
    as (ginds & Hput & Lg & Vg).
  { unfold N. rewrite <- Lpm, neg_ignore_values, length_map.
    unfold writes. rewrite Forall_map. simpl. rewrite Lpm. fold N.
    eapply Forall_impl; [|exact Hrange]. intros e [H _]. exact H. }
  assert (Lg' : length ginds = N).
  { rewrite Lg. unfold N. rewrite <- Lpm, neg_ignore_values, length_map.
    reflexivity. }
  assert (Hbound : Forall (fun v => (v <= Z.of_nat G)%Z) ginds).
  { apply Forall_forall. intros v Hv.
    destruct (In_nth _ _ 0%Z Hv) as (c & Hc & <-). rewrite Vg.
    destruct (last_write writes c) as [w|] eqn:Ew.
    - apply last_write_in in Ew. unfold writes in Ew.
      apply in_map_iff in Ew. destruct Ew as (e & He & Hin).
      injection He as _ <-. rewrite Forall_forall in Hrange.
      destruct (Hrange e Hin) as [_ Hsnd].
      destruct (entry_value_cases self anchor gts e) as [-> | ->]; lia.
    - pose proof (neg_ignore_cases self pm N Lpm) as Hbase.
      rewrite Forall_forall in Hbase.
      destruct (Hbase (nth c (neg_ignore self pm (repeat 0%Z N)) 0%Z))
        as [-> | ->]; [apply nth_In; lia | lia | lia]. }
  assert (Hlbl : exists lbls,
             match gt_labels with
             | Some gl => exists l, assign_labels ginds gl = Ok l /\
                                    lbls = Some l
             | None => lbls = None
             end).
  { destruct gt_labels as [gl|]; [|eauto].
    destruct (assign_labels_ok ginds gl G Hl Hbound) as (l & Hl' & _). eauto. }
  destruct Hlbl as (lbls & Hlbls).
  exists index, index1, pm, am, ginds, lbls. cbv zeta.
  fold G N T es writes.
  split; [exact Hi|]. split; [exact Hi1|].
  split; [exact Li|]. split; [exact Li1|].
  split. { intros g Hlt. split; [apply Ki | apply Ki1]; exact Hlt. }
  split; [exact Hsel|]. split; [exact Hrange|].
  split; [exact Hpm|]. split; [exact Lpm|]. split; [exact Mpm|].
  split; [exact Ham|]. split; [exact Lam|].
  split; [exact Hput|]. split; [exact Lg'|]. split; [exact Hlbls|].
  unfold assign. subst G N T.
  assert (Hdeg : Nat.eqb (length gts) 0 || Nat.eqb (length bbox_pred) 0
                 = false).
  { destruct gts; [congruence|].
    destruct bbox_pred; [congruence | reflexivity]. }
  rewrite Hdeg, Hsel, bind_ok, Hpm, bind_ok, Ham, bind_ok.
  rewrite Hrep.
  rewrite (gather2_overlaps self anchor gts es), bind_ok
    by (rewrite Ha; exact Hrange).
  rewrite map_map, with_ignore_map, combine_map_map.
  change (map (fun e => (fst e,
                         if Qltb (iou self (nth (fst e) anchor box0)
                                           (nth (snd e) gts box0))
                                 (pos_ignore_thr self)
                         then (-1)%Z else (Z.of_nat (snd e) + 1)%Z)) es)
    with writes.
  rewrite Hput, bind_ok.
  assert (Hlab : match gt_labels with
                 | Some gl => l <- assign_labels ginds gl ;; Ok (Some l)
                 | None => Ok None
                 end = Ok lbls).
  { destruct gt_labels as [gl|].
    - destruct Hlbls as (l & Hl' & ->). now rewrite Hl'.
    - now subst lbls. }
  rewrite Hlab, bind_ok.
  rewrite (getitem_map bbox_pred box0 (map fst es)), bind_ok
    by (rewrite Forall_map; eapply Forall_impl; [|exact Hrange];
        intros e [H _]; exact H).
  rewrite (getitem_map gts box0 (map snd es)), bind_ok
    by (rewrite Forall_map; eapply Forall_impl; [|exact Hrange];
        intros e [_ H]; exact H).
  rewrite !map_map. reflexivity.
Qed.


Lemma nth_error_split_at {A : Type} (l : list A) (p : nat) (x : A) :
  nth_error l p = Some x -> l = firstn p l ++ x :: skipn (S p) l.
Proof.
  revert p. induction l as [|y l IH]; intros [|p] H; simpl in *;
    try discriminate.
  - congruence.
  - f_equal. apply IH. exact H.
Qed.

Lemma in_skipn_position {A : Type} (l : list A) (p : nat) (x : A) :
  In x (skipn p l) -> exists q, (p <= q)%nat /\ nth_error l q = Some x.
Proof.
  revert p. induction l as [|y l IH]; intros [|p] H; simpl in *;
    try contradiction.
  - destruct H as [->|H].
    + exists 0%nat. split; [lia | reflexivity].
    + destruct (IH 0%nat H) as (q & _ & Hq). exists (S q).
      split; [lia | exact Hq].
  - destruct (IH p H) as (q & Hle & Hq). exists (S q).
    split; [lia | exact Hq].
Qed.

Lemma last_write_cons (i : nat) (v : Z) (rest : list (nat * Z)) (c : nat) :
  last_write ((i, v) :: rest) c
  = match last_write rest c with
    | Some w => Some w
    | None => if Nat.eqb i c then Some v else None
    end.
Proof. reflexivity. Qed.

(** The last of the writes to a place decides its value. *)
Lemma last_write_at_last_position (es : list (nat * nat)) (f : nat * nat -> Z)
    (p c g : nat) :
  nth_error es p = Some (c, g) ->
  (forall q c' g', (p < q)%nat -> nth_error es q = Some (c', g') -> c' <> c) ->
  last_write (map (fun e => (fst e, f e)) es) c = Some (f (c, g)).
Proof.
  intros Hp Hlast.
  assert (Hnone : last_write
                    (map (fun e => (fst e, f e)) (skipn (S p) es)) c = None).
  { apply last_write_none. rewrite map_map. intros Hin.
    apply in_map_iff in Hin. destruct Hin as ([c' g'] & Hc & Hin).
    cbn [fst] in Hc. subst c'.
    destruct (in_skipn_position es (S p) (c, g') Hin) as (q & Hq & Hnth).
    apply (Hlast q c g'); [lia | exact Hnth | reflexivity]. }
  rewrite (nth_error_split_at es p (c, g) Hp) at 1.
  rewrite map_app, last_write_app, map_cons, last_write_cons, Hnone.
  cbn [fst]. now rewrite Nat.eqb_refl.
Qed.

Lemma select_indexes_raises (self : t) (bbox_pred anchor gts : list Box) :
  gts <> [] ->
  (length bbox_pred < match_times self)%nat ->
  select_indexes self bbox_pred anchor gts = Raise RuntimeError.
Proof.
  intros Hg Hk. unfold select_indexes, topk_dim0.
  destruct gts as [|g gts]; [congruence|]. simpl.
  rewrite topk_smallest_raises; [reflexivity|].
  unfold column, cdist. now rewrite !length_map.
Qed.

(** With fewer candidates than [match_times], and at least one ground truth
    and one candidate, [assign] raises. *)
Lemma assign_raises_on_few_candidates (self : t)
    (bbox_pred anchor gts : list Box) (gt_labels : option (list Z)) :
  gts <> [] -> bbox_pred <> [] ->
  (length bbox_pred < match_times self)%nat ->
  assign self bbox_pred anchor gts gt_labels = Raise RuntimeError.
Proof.
  intros Hg Hn Hk. unfold assign.
  rewrite select_indexes_raises by assumption.
  destruct gts; [congruence|]. destruct bbox_pred; [congruence|].
  reflexivity.
Qed.




(** C3. On the main path, a selected pair (candidate [c], ground truth [g])
    at position [p] of the selection whose anchor IoU is below
    [pos_ignore_thr] is written as -1 and masked out of [pos_idx]; the
    candidate is never left assigned to [g], and when the pair is the last
    one naming [c] the candidate ends as ignore. *)
Theorem selected_pair_below_threshold_is_ignored (self : t)
    (bbox_pred anchor gts : list Box) (gt_labels : option (list Z)) :
  main_path_inputs self bbox_pred anchor gts gt_labels ->
  exists r index index1,
    assign self bbox_pred anchor gts gt_labels = Ok r /\
    topk_dim0 (match_times self) (costs_to gts bbox_pred) (length gts)
    = Ok index /\
    topk_dim0 (match_times self) (costs_to gts anchor) (length gts)
    = Ok index1 /\
    let es := entries (match_times self) (length gts) index index1 in
    select_indexes self bbox_pred anchor gts = Ok (map fst es) /\
    forall p c g,
      nth_error es p = Some (c, g) ->
      anchor_iou self anchor gts (c, g) < pos_ignore_thr self ->
      entry_value self anchor gts (c, g) = (-1)%Z /\
      nth_error (pos_idx r) p = Some false /\
      nth c (gt_inds r) 0%Z <> (Z.of_nat g + 1)%Z /\
      ((forall q c' g', (p < q)%nat -> nth_error es q = Some (c', g') ->
                        c' <> c) ->
       nth c (gt_inds r) 0%Z = (-1)%Z).
Proof.
  intros Hin.
  destruct (assign_main_path self bbox_pred anchor gts gt_labels Hin)
    as (index & index1 & pm & am & ginds & lbls & H).
  cbv zeta in H.
  destruct H as (Hi & Hi1 & _ & _ & _ & Hsel & Hrange & _ & Lpm & _ & _ & _
                 & Hput & _ & _ & Hassign).
  eexists. exists index, index1.
  split; [exact Hassign|]. split; [exact Hi|]. split; [exact Hi1|].
  cbv zeta. split; [exact Hsel|].
  set (es := entries (match_times self) (length gts) index index1) in *.
  set (writes := map (fun e => (fst e, entry_value self anchor gts e)) es)
    in *.
  destruct (index_put_last_write writes
              (neg_ignore self pm (repeat 0%Z (length bbox_pred))))
    as (a' & Ha' & _ & Hnth).
  { rewrite <- Lpm, neg_ignore_values, length_map, Lpm.
    unfold writes. rewrite Forall_map. simpl.
    eapply Forall_impl; [|exact Hrange]. intros e [H _]. exact H. }
  assert (a' = ginds) by congruence. subst a'.
  intros p c g Hp Hlow. simpl.
  assert (Hval : entry_value self anchor gts (c, g) = (-1)%Z).
  { unfold entry_value. apply Qltb_true in Hlow. now rewrite Hlow. }
  split; [exact Hval|]. split.
  { rewrite nth_error_map, Hp. simpl. apply Qltb_true in Hlow.
    now rewrite Hlow. }
  split.
  - rewrite Hnth.
    assert (Hw : In (c, entry_value self anchor gts (c, g)) writes).
    { unfold writes. apply in_map_iff. exists (c, g).
      split; [reflexivity|]. eapply nth_error_In; exact Hp. }
    destruct (last_write_some _ _ _ Hw) as (w & Ew). rewrite Ew.
    apply last_write_in in Ew. unfold writes in Ew.
    apply in_map_iff in Ew. destruct Ew as ([c' g'] & He & _).
    injection He as -> <-.
    destruct (entry_value_cases self anchor gts (c, g')) as [E|E];
      rewrite E; simpl; [lia|].
    intros Heq. assert (g' = g) by lia. subst g'. rewrite Hval in E. lia.
  - intros Hlast. rewrite Hnth. unfold writes.
    rewrite (last_write_at_last_position es _ p c g Hp Hlast).
    exact Hval.
Qed.

(** C3, witness: in [five_preds], [match_times = 4] selects for every ground
    truth candidates that lie on the other one. *)
Lemma selected_pair_below_threshold_is_ignored_witness :
  exists r index index1,
    assign five_self five_preds five_anchors swap_gts None = Ok r /\
    topk_dim0 (match_times five_self) (costs_to swap_gts five_preds)
              (length swap_gts) = Ok index /\
    topk_dim0 (match_times five_self) (costs_to swap_gts five_anchors)
              (length swap_gts) = Ok index1 /\
    let es := entries (match_times five_self) (length swap_gts) index index1 in
    select_indexes five_self five_preds five_anchors swap_gts
    = Ok (map fst es) /\
    forall p c g,
      nth_error es p = Some (c, g) ->
      anchor_iou five_self five_anchors swap_gts (c, g)
      < pos_ignore_thr five_self ->
      entry_value five_self five_anchors swap_gts (c, g) = (-1)%Z /\
      nth_error (pos_idx r) p = Some false /\
      nth c (gt_inds r) 0%Z <> (Z.of_nat g + 1)%Z /\
      ((forall q c' g', (p < q)%nat -> nth_error es q = Some (c', g') ->
                        c' <> c) ->
       nth c (gt_inds r) 0%Z = (-1)%Z).
Proof.
  apply (selected_pair_below_threshold_is_ignored five_self five_preds
           five_anchors swap_gts None).
  unfold main_path_inputs. simpl.
  repeat split; try discriminate; lia.
Defined.

(** [max_overlaps] on the main path: one entry per ground truth, the largest
    IoU of an anchor with it. *)
Lemma max_overlaps_per_ground_truth (self : t)
    (bbox_pred anchor gts : list Box) (gt_labels : option (list Z)) :
  main_path_inputs self bbox_pred anchor gts gt_labels ->
  exists r am,
    assign self bbox_pred anchor gts gt_labels = Ok r /\
    max_overlaps r = Some am /\
    length am = length gts /\
    length (gt_inds r) = length bbox_pred /\
    forall g, (g < length gts)%nat ->
      is_max (nth g am 0) (map (fun b => iou self b (nth g gts box0)) anchor).
Proof.
  intros Hin.
  destruct (assign_main_path self bbox_pred anchor gts gt_labels Hin)
    as (index & index1 & pm & am & ginds & lbls & H).
  cbv zeta in H.
  destruct H as (_ & _ & _ & _ & _ & _ & _ & _ & _ & _ & Ham & Lam
                 & _ & Lg & _ & Hassign).
  destruct Hin as (_ & Hn & _ & Ha & _).
  destruct (max_dim0_overlaps self anchor gts) as (am' & Ham' & _ & Hmax).
  { intros ->. destruct bbox_pred; [congruence | discriminate]. }
  assert (am' = am) by congruence. subst am'.
  eexists. exists am. split; [exact Hassign|]. simpl. auto.
Qed.

(** C9, at the failing input: one ground truth and two candidates. The
    result has two entries in [gt_inds] and a single entry in
    [max_overlaps]. *)
Theorem max_overlaps_has_one_entry_per_ground_truth :
  exists r am,
    assign swap_self two_preds two_anchors one_gt None = Ok r /\
    length (gt_inds r) = 2%nat /\
    max_overlaps r = Some am /\
    length am = 1%nat.
Proof.
  eexists. eexists.
  split; [vm_compute; reflexivity|].
  split; [reflexivity|]. split; reflexivity.
Qed.

(** C4. Without ground truths every candidate is background (0), none is
    ignored (-1), and the call returns; without candidates the call returns
    the empty assignment. *)
Theorem assign_degenerate_inputs (self : t) (bbox_pred anchor gts : list Box)
    (gt_labels : option (list Z)) :
  (assign self bbox_pred anchor [] gt_labels
   = Ok (mkAssignResult 0 (repeat 0%Z (length bbox_pred)) None
           (Some (repeat (-1)%Z (length bbox_pred))) [] [] []) /\
   Forall (fun v => v = 0%Z) (repeat 0%Z (length bbox_pred)) /\
   ~ In (-1)%Z (repeat 0%Z (length bbox_pred))) /\
  assign self [] anchor gts gt_labels
  = Ok (mkAssignResult (length gts) [] None (Some []) [] [] []).
Proof.
  split; [split; [reflexivity | split]|].
  - apply Forall_forall. intros v Hv. now apply repeat_spec in Hv.
  - intros Hv. apply repeat_spec in Hv. discriminate.
  - unfold assign. simpl. now rewrite orb_true_r.
Qed.

(** *** Outcomes, labels and the aligned outputs *)

(** The main path once more, with the value of every entry of
    [gt_inds]. *)
Lemma assign_main_path_values (self : t) (bbox_pred anchor gts : list Box)
    (gt_labels : option (list Z)) :
  main_path_inputs self bbox_pred anchor gts gt_labels ->
  exists index index1 pred_max r,
    let G := length gts in
    let T := match_times self in
    let es := entries T G index index1 in
    let writes := map (fun e => (fst e, entry_value self anchor gts e)) es in
    length index = G /\ length index1 = G /\
    (forall g, (g < G)%nat ->
       k_nearest T (map (fun b => cost b (nth g gts box0)) bbox_pred)
                 (nth g index []) /\
       k_nearest T (map (fun b => cost b (nth g gts box0)) anchor)
                 (nth g index1 [])) /\
    select_indexes self bbox_pred anchor gts = Ok (map fst es) /\
    Forall (fun e => (fst e < length bbox_pred)%nat /\ (snd e < G)%nat) es /\
    length pred_max = length bbox_pred /\
    assign self bbox_pred anchor gts gt_labels = Ok r /\
    num_gts r = G /\
    length (gt_inds r) = length bbox_pred /\
    (forall c, nth c (gt_inds r) 0%Z
               = match last_write writes c with
                 | Some v => v
                 | None => nth c (neg_ignore self pred_max
                                    (repeat 0%Z (length bbox_pred))) 0%Z
                 end) /\
    match gt_labels with
    | Some gl => exists l, assign_labels (gt_inds r) gl = Ok l /\
                           labels r = Some l
    | None => labels r = None
    end /\
    pos_idx r = map (fun e => negb (Qltb (anchor_iou self anchor gts e)
                                         (pos_ignore_thr self))) es /\
    pos_predicted_boxes r = map (fun e => nth (fst e) bbox_pred box0) es /\
    target_boxes r = map (fun e => nth (snd e) gts box0) es.
Proof.
  intros Hin.
  destruct (assign_main_path self bbox_pred anchor gts gt_labels Hin)
    as (index & index1 & pm & am & ginds & lbls & H).
  cbv zeta in H.
  destruct H as (_ & _ & Li & Li1 & Hk & Hsel & Hrange & _ & Lpm & _ & _ & _
                 & Hput & Lg & Hlbl & Hassign).
  exists index, index1, pm. eexists. cbv zeta.
  split; [exact Li|]. split; [exact Li1|]. split; [exact Hk|].
  split; [exact Hsel|]. split; [exact Hrange|]. split; [exact Lpm|].
  split; [exact Hassign|]. cbn [num_gts gt_inds labels pos_idx
                                pos_predicted_boxes target_boxes].
  split; [reflexivity|]. split; [exact Lg|]. split.
  - destruct (index_put_last_write
                (map (fun e => (fst e, entry_value self anchor gts e))
                     (entries (match_times self) (length gts) index index1))
                (neg_ignore self pm (repeat 0%Z (length bbox_pred))))
      as (a' & Ha' & _ & Hnth).
    { rewrite <- Lpm, neg_ignore_values, length_map, Forall_map.
      eapply Forall_impl; [|exact Hrange]. intros e [H _]. cbn [fst].
      now rewrite Lpm. }
    assert (a' = ginds) by congruence. subst a'. exact Hnth.
  - split; [|auto].
    destruct gt_labels as [gl|]; [|exact Hlbl].
    destruct Hlbl as (l & Hl & ->). eauto.
Qed.

Lemma entries_rank (index index1 : list (list nat)) (rk g : nat) :
  (rk < 4)%nat -> (g < 2)%nat ->
  nth (4 * rk + g) (map fst (entries 4 2 index index1)) 0%nat
  = nth rk (nth g index []) 0%nat /\
  nth (4 * rk + 2 + g) (map fst (entries 4 2 index index1)) 0%nat
  = nth rk (nth g index1 []) 0%nat.
Proof.
  intros Hrk Hg.
  do 4 (destruct rk as [|rk];
        [do 2 (destruct g as [|g]; [split; reflexivity|]); lia|]).
  lia.
Qed.

Lemma list_of_four {A : Type} (sel : list A) (d : A) :
  length sel = 4%nat -> map (fun rk => nth rk sel d) (seq 0 4) = sel.
Proof.
  intros H. do 4 (destruct sel as [|? sel]; [discriminate|]).
  destruct sel; [reflexivity | discriminate].
Qed.

(** The [k] nearest of a column of costs, in terms of the boxes. *)
Lemma k_nearest_boxes (k : nat) (boxes : list Box) (gt : Box)
    (sel : list nat) :
  k_nearest k (map (fun b => cost b gt) boxes) sel ->
  length sel = k /\ NoDup sel /\
  (forall i, In i sel -> (i < length boxes)%nat) /\
  (forall i j, In i sel -> (j < length boxes)%nat -> ~ In j sel ->
     cost (nth i boxes box0) gt <= cost (nth j boxes box0) gt).
Proof.
  intros (Hl & Hn & Hr & Hm). rewrite length_map in Hr, Hm.
  split; [exact Hl|]. split; [exact Hn|]. split; [exact Hr|].
  intros i j Hi Hj Hnj. specialize (Hm i j Hi Hj Hnj).
  rewrite (nth_indep _ 0 (cost box0 gt)) in Hm
    by (rewrite length_map; apply Hr, Hi).
  rewrite (nth_indep _ 0 (cost box0 gt)) in Hm
    by (rewrite length_map; exact Hj).
  now rewrite !(map_nth (fun b => cost b gt)) in Hm.
Qed.

(** C8 (as the code has it). With [match_times = 4], two ground truths and
    at least four candidates, each with its anchor, [assign] returns and
    sixteen candidate indices are selected, as many as the entries of
    [pos_idx], [pos_predicted_boxes] and [target_boxes]. For row
    [rk = 0 .. 3] of the concatenated index tensor and ground truth
    [g = 0, 1], position [4 * rk + g] of [indexes] holds a selection among
    the predictions for [g] and position [4 * rk + 2 + g] a selection among
    the anchors for [g]. Each of the two selections for a ground truth holds
    four distinct candidates within the candidates' range, and no
    candidate left out is strictly nearer to the ground truth than a
    selected one, the distance of two boxes being the sum of the absolute
    differences of their centers (cx, cy) and of their sizes (w, h).
    Position [p] gives [pos_predicted_boxes[p]], the prediction of candidate
    [indexes[p]], and [target_boxes[p]], ground truth [p mod 2]; and a
    candidate that ends with a positive [gt_inds] is one of the sixteen. *)
Theorem sixteen_selected_entries (self : t) (bbox_pred anchor gts : list Box)
    (gt_labels : option (list Z)) :
  match_times self = 4%nat ->
  length gts = 2%nat ->
  main_path_inputs self bbox_pred anchor gts gt_labels ->
  exists r indexes,
    let d := fun b g : Box =>
      Qabs ((bx1 b + bx2 b) / 2 - (bx1 g + bx2 g) / 2)
      + Qabs ((by1 b + by2 b) / 2 - (by1 g + by2 g) / 2)
      + Qabs ((bx2 b - bx1 b) - (bx2 g - bx1 g))
      + Qabs ((by2 b - by1 b) - (by2 g - by1 g)) in
    let nearest := fun (boxes : list Box) (g : Box) (sel : list nat) =>
      length sel = 4%nat /\ NoDup sel /\
      (forall i, In i sel -> (i < length boxes)%nat) /\
      (forall i j, In i sel -> (j < length boxes)%nat -> ~ In j sel ->
         d (nth i boxes box0) g <= d (nth j boxes box0) g) in
    assign self bbox_pred anchor gts gt_labels = Ok r /\
    select_indexes self bbox_pred anchor gts = Ok indexes /\
    length indexes = 16%nat /\
    length (pos_idx r) = 16%nat /\
    length (pos_predicted_boxes r) = 16%nat /\
    length (target_boxes r) = 16%nat /\
    (forall g, (g < 2)%nat ->
       nearest bbox_pred (nth g gts box0)
               (map (fun rk => nth (4 * rk + g) indexes 0%nat) (seq 0 4)) /\
       nearest anchor (nth g gts box0)
               (map (fun rk => nth (4 * rk + 2 + g) indexes 0%nat)
                    (seq 0 4))) /\
    (forall p, (p < 16)%nat ->
       nth p (pos_predicted_boxes r) box0
       = nth (nth p indexes 0%nat) bbox_pred box0 /\
       nth p (target_boxes r) box0 = nth (p mod 2) gts box0) /\
    (forall c, (0 < nth c (gt_inds r) 0%Z)%Z -> In c indexes).
Proof.
  intros HT HG Hin.
  destruct (assign_main_path_values self bbox_pred anchor gts gt_labels Hin)
    as (index & index1 & pm & r & H).
  cbv zeta in H. rewrite HT, HG in H.
  destruct H as (Li & Li1 & Hk & Hsel & Hrange & Lpm & Hr & _ & Lg & Hval
                 & _ & Hpos & Hpred & Htgt).
  exists r, (map fst (entries 4 2 index index1)). intros d nearest.
  split; [exact Hr|]. split; [exact Hsel|].
  rewrite Hpos, Hpred, Htgt, !length_map, entries_length.
  do 4 (split; [reflexivity|]).
  split; [|split].
  - intros g Hg. destruct (Hk g Hg) as [Kp Ka].
    apply k_nearest_boxes in Kp, Ka.
    split.
    + rewrite (map_ext_in _ (fun rk => nth rk (nth g index []) 0%nat)).
      * rewrite list_of_four by apply Kp. exact Kp.
      * intros rk Hrk. apply in_seq in Hrk.
        apply (entries_rank index index1 rk g); lia.
    + rewrite (map_ext_in _ (fun rk => nth rk (nth g index1 []) 0%nat)).
      * rewrite list_of_four by apply Ka. exact Ka.
      * intros rk Hrk. apply in_seq in Hrk.
        apply (entries_rank index index1 rk g); lia.
  - intros p Hp.
    do 16 (destruct p as [|p]; [split; reflexivity|]). lia.
  - intros c Hc. rewrite Hval in Hc.
    destruct (last_write _ c) as [v|] eqn:Ew.
    + apply last_write_in in Ew. apply in_map_iff in Ew.
      destruct Ew as (e & He & Hin'). injection He as <- _.
      apply in_map. exact Hin'.
    + exfalso.
      pose proof (neg_ignore_cases self pm (length bbox_pred) Lpm) as Hbase.
      rewrite Forall_forall in Hbase.
      destruct (Nat.lt_ge_cases c (length bbox_pred)) as [Hlt|Hge].
      * destruct (Hbase (nth c (neg_ignore self pm
                                  (repeat 0%Z (length bbox_pred))) 0%Z))
          as [E|E]; [|rewrite E in Hc; lia | rewrite E in Hc; lia].
        apply nth_In.
        rewrite <- Lpm, neg_ignore_values, length_map. lia.
      * rewrite nth_overflow in Hc; [lia|].
        rewrite <- Lpm, neg_ignore_values, length_map. lia.
Qed.

(** C8, witness: five candidates, two ground truths, [match_times = 4]. *)
Lemma sixteen_selected_entries_witness :
  exists r indexes,
    let d := fun b g : Box =>
      Qabs ((bx1 b + bx2 b) / 2 - (bx1 g + bx2 g) / 2)
      + Qabs ((by1 b + by2 b) / 2 - (by1 g + by2 g) / 2)
      + Qabs ((bx2 b - bx1 b) - (bx2 g - bx1 g))
      + Qabs ((by2 b - by1 b) - (by2 g - by1 g)) in
    let nearest := fun (boxes : list Box) (g : Box) (sel : list nat) =>
      length sel = 4%nat /\ NoDup sel /\
      (forall i, In i sel -> (i < length boxes)%nat) /\
      (forall i j, In i sel -> (j < length boxes)%nat -> ~ In j sel ->
         d (nth i boxes box0) g <= d (nth j boxes box0) g) in
    assign five_self five_preds five_anchors swap_gts (Some [7; 9]%Z) = Ok r /\
    select_indexes five_self five_preds five_anchors swap_gts = Ok indexes /\
    length indexes = 16%nat /\
    length (pos_idx r) = 16%nat /\
    length (pos_predicted_boxes r) = 16%nat /\
    length (target_boxes r) = 16%nat /\
    (forall g, (g < 2)%nat ->
       nearest five_preds (nth g swap_gts box0)
               (map (fun rk => nth (4 * rk + g) indexes 0%nat) (seq 0 4)) /\
       nearest five_anchors (nth g swap_gts box0)
               (map (fun rk => nth (4 * rk + 2 + g) indexes 0%nat)
                    (seq 0 4))) /\
    (forall p, (p < 16)%nat ->
       nth p (pos_predicted_boxes r) box0
       = nth (nth p indexes 0%nat) five_preds box0 /\
       nth p (target_boxes r) box0 = nth (p mod 2) swap_gts box0) /\
    (forall c, (0 < nth c (gt_inds r) 0%Z)%Z -> In c indexes).
Proof.
  apply (sixteen_selected_entries five_self five_preds five_anchors swap_gts
           (Some [7; 9]%Z)).
  - reflexivity.
  - reflexivity.
  - unfold main_path_inputs. simpl. repeat split; try discriminate; lia.
Defined.

(** C8, counterexample: [match_times = 4] and two ground truths, but three
    candidates: [torch.topk] raises, so no entry is selected and the call
    raises; and without any candidate the call returns early with empty
    [pos_idx], [pos_predicted_boxes] and [target_boxes]. *)
Lemma three_candidates_select_nothing :
  match_times five_self = 4%nat /\ length swap_gts = 2%nat /\
  length three_preds = 3%nat /\ length three_anchors = 3%nat /\
  select_indexes five_self three_preds three_anchors swap_gts
  = Raise RuntimeError /\
  assign five_self three_preds three_anchors swap_gts None
  = Raise RuntimeError /\
  assign five_self [] [] swap_gts None
  = Ok (mkAssignResult 2 [] None (Some []) [] [] []).
Proof.
  repeat split.
Qed.

(** X12. When [assign] returns. With an anchor per candidate and a label
    per ground truth, the call returns except in one case: there are a
    ground truth and a candidate, but fewer candidates than [match_times];
    then [torch.topk] raises RuntimeError. A returned result counts the
    ground truths and has one [gt_inds] entry per candidate. *)
Theorem assign_outcome (self : t) (bbox_pred anchor gts : list Box)
    (gt_labels : option (list Z)) :
  length anchor = length bbox_pred ->
  match gt_labels with
  | Some gl => length gl = length gts
  | None => True
  end ->
  if Nat.eqb (length gts) 0 || Nat.eqb (length bbox_pred) 0
     || (match_times self <=? length bbox_pred)%nat
  then exists r,
      assign self bbox_pred anchor gts gt_labels = Ok r /\
      num_gts r = length gts /\
      length (gt_inds r) = length bbox_pred
  else assign self bbox_pred anchor gts gt_labels = Raise RuntimeError.
Proof.
  intros Ha Hl.
  destruct (Nat.eqb (length gts) 0 || Nat.eqb (length bbox_pred) 0) eqn:Edeg.
  - cbn [orb]. unfold assign. rewrite Edeg. eexists. split; [reflexivity|].
    cbn [num_gts gt_inds]. split; [reflexivity | apply repeat_length].
  - cbn [orb]. apply orb_false_iff in Edeg. destruct Edeg as [Eg En].
    apply Nat.eqb_neq in Eg, En.
    assert (Hg : gts <> []) by (intros ->; apply Eg; reflexivity).
    assert (Hn : bbox_pred <> []) by (intros ->; apply En; reflexivity).
    destruct (Nat.leb_spec (match_times self) (length bbox_pred)) as [Hk|Hk].
    + destruct (assign_main_path_values self bbox_pred anchor gts gt_labels)
        as (index & index1 & pm & r & H).
      { unfold main_path_inputs. auto. }
      cbv zeta in H.
      destruct H as (_ & _ & _ & _ & _ & _ & Hr & Hnum & Hlen & _).
      exists r. auto.
    + apply assign_raises_on_few_candidates; assumption.
Qed.

(** X12, witness: two candidates with [match_times] 1, 4 and no ground
    truth. *)
Lemma assign_outcome_witness :
  (exists r, assign swap_self swap_preds swap_anchors swap_gts None = Ok r /\
             num_gts r = 2%nat /\ length (gt_inds r) = 2%nat) /\
  assign five_self swap_preds swap_anchors swap_gts None = Raise RuntimeError /\
  (exists r, assign five_self swap_preds swap_anchors [] None = Ok r /\
             num_gts r = 0%nat /\ length (gt_inds r) = 2%nat).
Proof.
  split; [|split].
  - apply (assign_outcome swap_self swap_preds swap_anchors swap_gts None);
      [reflexivity | exact I].
  - apply (assign_outcome five_self swap_preds swap_anchors swap_gts None);
      [reflexivity | exact I].
  - apply (assign_outcome five_self swap_preds swap_anchors [] None);
      [reflexivity | exact I].
Defined.

(** X13. A positive assignment is sound. On the main path, a candidate [c]
    that ends assigned to ground truth [g] ([gt_inds[c] = g + 1]) is one of
    the [match_times] nearest predictions to [g] or one of the [match_times]
    nearest anchors to [g], and the IoU of its anchor with [g] is not below
    [pos_ignore_thr]. *)
Theorem positive_assignment_is_sound (self : t)
    (bbox_pred anchor gts : list Box) (gt_labels : option (list Z)) :
  main_path_inputs self bbox_pred anchor gts gt_labels ->
  exists r,
    assign self bbox_pred anchor gts gt_labels = Ok r /\
    forall c g, nth c (gt_inds r) 0%Z = (Z.of_nat g + 1)%Z ->
      (c < length bbox_pred)%nat /\ (g < length gts)%nat /\
      pos_ignore_thr self <= anchor_iou self anchor gts (c, g) /\
      exists sel,
        In c sel /\
        (k_nearest (match_times self)
                   (map (fun b => cost b (nth g gts box0)) bbox_pred) sel \/
         k_nearest (match_times self)
                   (map (fun b => cost b (nth g gts box0)) anchor) sel).
Proof.
  intros Hin.
  destruct (assign_main_path_values self bbox_pred anchor gts gt_labels Hin)
    as (index & index1 & pm & r & H).
  cbv zeta in H.
  destruct H as (Li & Li1 & Hk & _ & Hrange & Lpm & Hr & _ & Lg & Hval & _).
  exists r. split; [exact Hr|]. intros c g Hc.
  rewrite Hval in Hc.
  destruct (last_write _ c) as [v|] eqn:Ew.
  - subst v. apply last_write_in in Ew. apply in_map_iff in Ew.
    destruct Ew as ([c' g'] & He & Hin'). cbn [fst] in He.
    injection He as -> Hv.
    rewrite Forall_forall in Hrange.
    destruct (Hrange _ Hin') as [Hc Hg']. cbn [fst snd] in Hc, Hg'.
    unfold entry_value in Hv. cbn [snd] in Hv.
    destruct (Qltb (anchor_iou self anchor gts (c, g')) (pos_ignore_thr self))
      eqn:Et; [lia|].
    assert (g' = g) by lia. subst g'.
    split; [exact Hc|]. split; [exact Hg'|].
    split; [apply Qltb_false; exact Et|].
    apply entries_in in Hin'. destruct Hin' as (rk & Hrk & _ & Hsel).
    cbn [fst snd] in Hsel. destruct (Hk g Hg') as [Kp Ka].
    destruct Hsel as [->| ->].
    + exists (nth g index []). split; [|left; exact Kp].
      apply nth_In. destruct Kp as [-> _]. exact Hrk.
    + exists (nth g index1 []). split; [|right; exact Ka].
      apply nth_In. destruct Ka as [-> _]. exact Hrk.
  - exfalso. rewrite <- Lpm, neg_ignore_values in Hc.
    destruct (Nat.lt_ge_cases c (length pm)) as [Hlt|Hge].
    + rewrite (nth_indep _ 0%Z (if Qltb (neg_ignore_thr self) 0
                                then (-1)%Z else 0%Z)) in Hc
        by (rewrite length_map; exact Hlt).
      rewrite (map_nth (fun m => if Qltb (neg_ignore_thr self) m
                                 then (-1)%Z else 0%Z)) in Hc.
      destruct (Qltb _ _); lia.
    + rewrite nth_overflow in Hc by (rewrite length_map; exact Hge). lia.
Qed.

(** X13, witness: the two swapped candidates; candidate 0 ends on ground
    truth 0. *)
Lemma positive_assignment_is_sound_witness :
  exists r,
    assign swap_self swap_preds swap_anchors swap_gts None = Ok r /\
    nth 0 (gt_inds r) 0%Z = 1%Z /\
    forall c g, nth c (gt_inds r) 0%Z = (Z.of_nat g + 1)%Z ->
      (c < length swap_preds)%nat /\ (g < length swap_gts)%nat /\
      pos_ignore_thr swap_self <= anchor_iou swap_self swap_anchors swap_gts (c, g) /\
      exists sel,
        In c sel /\
        (k_nearest (match_times swap_self)
                   (map (fun b => cost b (nth g swap_gts box0)) swap_preds) sel \/
         k_nearest (match_times swap_self)
                   (map (fun b => cost b (nth g swap_gts box0)) swap_anchors)
                   sel).
Proof.
  destruct (positive_assignment_is_sound swap_self swap_preds swap_anchors
              swap_gts None) as (r & Hr & Hsound).
  - unfold main_path_inputs. repeat split; try discriminate. simpl. lia.
  - exists r. split; [exact Hr|]. split; [|exact Hsound].
    vm_compute in Hr. injection Hr as <-. reflexivity.
Defined.

Lemma assign_labels_values (ginds gl l : list Z) :
  assign_labels ginds gl = Ok l ->
  length l = length ginds /\
  forall c, (c < length ginds)%nat ->
    nth c l 0%Z
    = if (0 <? nth c ginds 0%Z)%Z
      then nth (Z.to_nat (nth c ginds 0%Z - 1)) gl 0%Z else (-1)%Z.
Proof.
  intros H. split; [exact (mapM_ok_length _ _ _ H)|].
  intros c Hc.
  destruct (mapM_ok_nth _ _ _ c (nth c ginds 0%Z) H) as (b & Hb & Hf).
  { apply nth_error_nth'. exact Hc. }
  rewrite (nth_error_nth _ _ 0%Z Hb).
  destruct (0 <? nth c ginds 0%Z)%Z.
  - unfold getitem in Hf.
    destruct (nth_error gl _) as [x|] eqn:E; [|discriminate].
    injection Hf as <-. symmetry. apply nth_error_nth. exact E.
  - now injection Hf.
Qed.

(** X14. The labels follow [gt_inds]. On the main path with labels given,
    every entry of [gt_inds] is -1, 0 or the 1-based index of a ground
    truth, and the result has a label per candidate: the label of its ground
    truth for a candidate with a positive entry, -1 for every other one. *)
Theorem labels_follow_gt_inds (self : t) (bbox_pred anchor gts : list Box)
    (gl : list Z) :
  main_path_inputs self bbox_pred anchor gts (Some gl) ->
  exists r l,
    assign self bbox_pred anchor gts (Some gl) = Ok r /\
    labels r = Some l /\
    length l = length bbox_pred /\
    forall c, (c < length bbox_pred)%nat ->
      let v := nth c (gt_inds r) 0%Z in
      (v = (-1)%Z \/ v = 0%Z \/ (1 <= v <= Z.of_nat (length gts))%Z) /\
      nth c l 0%Z
      = if (0 <? v)%Z then nth (Z.to_nat (v - 1)) gl 0%Z else (-1)%Z.
Proof.
  intros Hin.
  destruct (assign_main_path_values self bbox_pred anchor gts (Some gl) Hin)
    as (index & index1 & pm & r & H).
  cbv zeta in H.
  destruct H as (_ & _ & _ & _ & Hrange & Lpm & Hr & _ & Lg & Hval
                 & (l & Hl & Hlab) & _).
  destruct (assign_labels_values _ _ _ Hl) as [Ll Vl].
  exists r, l. split; [exact Hr|]. split; [exact Hlab|].
  split; [congruence|]. intros c Hc. cbv zeta. split.
  - rewrite Hval. destruct (last_write _ c) as [v|] eqn:Ew.
    + apply last_write_in in Ew. apply in_map_iff in Ew.
      destruct Ew as (e & He & Hin'). injection He as _ <-.
      rewrite Forall_forall in Hrange. destruct (Hrange _ Hin') as [_ Hg].
      destruct (entry_value_cases self anchor gts e) as [-> | ->];
        [now left | right; right; lia].
    + pose proof (neg_ignore_cases self pm (length bbox_pred) Lpm) as Hbase.
      rewrite Forall_forall in Hbase.
      destruct (Hbase (nth c (neg_ignore self pm
                                (repeat 0%Z (length bbox_pred))) 0%Z))
        as [-> | ->]; auto.
      apply nth_In. rewrite <- Lpm, neg_ignore_values, length_map. lia.
  - apply Vl. lia.
Qed.

(** X14, witness: the swapped candidates with the labels 7 and 9; both
    candidates are positive and carry the label of their ground truth. *)
Lemma labels_follow_gt_inds_witness :
  exists r l,
    assign swap_self swap_preds swap_anchors swap_gts (Some [7; 9]%Z) = Ok r /\
    labels r = Some l /\
    l = [7; 9]%Z /\
    length l = length swap_preds /\
    forall c, (c < length swap_preds)%nat ->
      let v := nth c (gt_inds r) 0%Z in
      (v = (-1)%Z \/ v = 0%Z \/ (1 <= v <= Z.of_nat (length swap_gts))%Z) /\
      nth c l 0%Z
      = if (0 <? v)%Z then nth (Z.to_nat (v - 1)) [7; 9]%Z 0%Z else (-1)%Z.
Proof.
  destruct (labels_follow_gt_inds swap_self swap_preds swap_anchors swap_gts
              [7; 9]%Z) as (r & l & Hr & Hl & Hlen & Hval).
  - unfold main_path_inputs. repeat split; try discriminate. simpl. lia.
  - exists r, l. split; [exact Hr|]. split; [exact Hl|].
    split; [|split; [exact Hlen | exact Hval]].
    vm_compute in Hr. injection Hr as <-. now injection Hl.
Defined.

Lemma arange_repeat_nth (G times p : nat) :
  (p < times * G)%nat ->
  nth_error (arange_repeat G times) p = Some (p mod G)%nat.
Proof.
  intros Hp. assert (HG : G <> 0%nat) by (intros ->; lia).
  unfold arange_repeat.
  change (concat (repeat (seq 0 G) times))
    with (AnchorGenerator.tensor_repeat (seq 0 G) times).
  rewrite (Nat.div_mod_eq p G) at 1.
  replace (G * (p / G) + p mod G)%nat
    with (p / G * length (seq 0 G) + p mod G)%nat
    by (rewrite length_seq; lia).
  rewrite nth_error_tensor_repeat.
  - apply nth_error_seq_lt. apply Nat.mod_upper_bound. exact HG.
  - apply Nat.Div0.div_lt_upper_bound. lia.
  - rewrite length_seq. apply Nat.mod_upper_bound. exact HG.
Qed.

Lemma entries_targets (k : nat) (index index1 : list (list nat)) :
  length index1 = length index ->
  map snd (entries k (length index) index index1)
  = arange_repeat (length index) (k * 2).
Proof.
  intros Hlen.
  destruct (combine_split_maps (cat_reshape k index index1)
              (arange_repeat (length index) (k * 2))
              (entries k (length index) index index1)) as [_ H].
  - apply combine_indexes_pos_gt_index. exact Hlen.
  - rewrite cat_reshape_length, arange_repeat_length, Hlen. lia.
  - now rewrite H.
Qed.

(** X15. The three aligned outputs. On the main path the selection has
    [2 * match_times * num_gts] positions, and so have [pos_idx],
    [pos_predicted_boxes] and [target_boxes]. Position [p] pairs the selected
    candidate [indexes[p]] with ground truth [p mod num_gts], so every
    ground truth is the target of exactly [2 * match_times] positions:
    [pos_predicted_boxes[p]] is the candidate's predicted box,
    [target_boxes[p]] is the ground truth, and [pos_idx[p]] says that the IoU
    of the candidate's anchor with the ground truth is not below
    [pos_ignore_thr]. *)
Theorem selected_outputs_are_aligned (self : t)
    (bbox_pred anchor gts : list Box) (gt_labels : option (list Z)) :
  main_path_inputs self bbox_pred anchor gts gt_labels ->
  exists r indexes,
    let G := length gts in
    let n := (2 * match_times self * G)%nat in
    assign self bbox_pred anchor gts gt_labels = Ok r /\
    select_indexes self bbox_pred anchor gts = Ok indexes /\
    length indexes = n /\ length (pos_idx r) = n /\
    length (pos_predicted_boxes r) = n /\ length (target_boxes r) = n /\
    forall p, (p < n)%nat ->
      exists c b g,
        nth_error indexes p = Some c /\
        nth_error bbox_pred c = Some b /\
        nth_error gts (p mod G) = Some g /\
        nth_error (pos_predicted_boxes r) p = Some b /\
        nth_error (target_boxes r) p = Some g /\
        nth_error (pos_idx r) p
        = Some (negb (Qltb (iou self (nth c anchor box0) g)
                           (pos_ignore_thr self))).
Proof.
  intros Hin.
  destruct (assign_main_path_values self bbox_pred anchor gts gt_labels Hin)
    as (index & index1 & pm & r & H).
  cbv zeta in H.
  destruct H as (Li & Li1 & _ & Hsel & Hrange & _ & Hr & _ & _ & _ & _
                 & Hpos & Hpred & Htgt).
  set (es := entries (match_times self) (length gts) index index1) in *.
  assert (Les : length es = (2 * match_times self * length gts)%nat)
    by (unfold es; rewrite entries_length; lia).
  exists r, (map fst es). cbv zeta.
  split; [exact Hr|]. split; [exact Hsel|].
  rewrite Hpos, Hpred, Htgt, !length_map.
  split; [exact Les|]. split; [exact Les|]. split; [exact Les|].
  split; [exact Les|].
  intros p Hp.
  destruct (nth_error es p) as [[c g]|] eqn:Ee;
    [|apply nth_error_None in Ee; lia].
  rewrite Forall_forall in Hrange.
  destruct (Hrange _ (nth_error_In _ _ Ee)) as [Hc Hg]. cbn [fst snd] in Hc, Hg.
  assert (Hgp : g = (p mod length gts)%nat).
  { assert (Hs : nth_error (map snd es) p = Some g)
      by (rewrite nth_error_map, Ee; reflexivity).
    unfold es in Hs. rewrite <- Li in Hs at 1.
    rewrite entries_targets in Hs by congruence.
    rewrite arange_repeat_nth in Hs by (rewrite Li; lia).
    rewrite Li in Hs. now injection Hs. }
  subst g.
  exists c, (nth c bbox_pred box0), (nth (p mod length gts) gts box0).
  rewrite !nth_error_map, Ee. cbn [option_map fst snd].
  split; [reflexivity|].
  split; [apply nth_error_nth'; exact Hc|].
  split; [apply nth_error_nth'; exact Hg|].
  repeat split.
Qed.

(** X15, witness: five candidates, two ground truths and [match_times]
    4: sixteen positions. *)
Lemma selected_outputs_are_aligned_witness :
  exists r indexes,
    assign five_self five_preds five_anchors swap_gts None = Ok r /\
    select_indexes five_self five_preds five_anchors swap_gts = Ok indexes /\
    length indexes = 16%nat /\ length (pos_idx r) = 16%nat /\
    length (pos_predicted_boxes r) = 16%nat /\
    length (target_boxes r) = 16%nat /\
    forall p, (p < 16)%nat ->
      exists c b g,
        nth_error indexes p = Some c /\
        nth_error five_preds c = Some b /\
        nth_error swap_gts (p mod 2) = Some g /\
        nth_error (pos_predicted_boxes r) p = Some b /\
        nth_error (target_boxes r) p = Some g /\
        nth_error (pos_idx r) p
        = Some (negb (Qltb (iou five_self (nth c five_anchors box0) g)
                           (pos_ignore_thr five_self))).
Proof.
  apply (selected_outputs_are_aligned five_self five_preds five_anchors
           swap_gts None).
  unfold main_path_inputs. repeat split; try discriminate. simpl. lia.
Defined.

End UniformAssignerFacts.

(** ** SOLOHead *)

Module SOLOHeadFacts.
Import SOLOHead.

Lemma nth_repeat_default {A : Type} (a : A) (n k : nat) : nth k (repeat a n) a = a.
Proof.
  revert k. induction n as [|n IH]; intros [|k]; simpl; auto.
Qed.

Lemma initial_targets_all_background (self : t) (lv : level) :
  all_background self lv (initial_targets self lv).
Proof.
  unfold all_background, initial_targets. cbv zeta.
  cbn [labels pos_mask mask_target].
  split; [reflexivity|]. split; [|split].
  - intros i j Hi Hj.
    rewrite (nth_indep _ [] (repeat (num_classes self) (num_grid lv)))
      by (rewrite repeat_length; exact Hi).
    rewrite nth_repeat_default.
    rewrite (nth_indep _ 0%Z (num_classes self))
      by (rewrite repeat_length; exact Hj).
    apply nth_repeat_default.
  - intros k. apply nth_repeat_default.
  - intros k row col.
    set (z := zeros2 (fst (featmap_size lv)) (snd (featmap_size lv))).
    assert (Hz : forall m, m = z \/ m = [] ->
                           nth col (nth row m []) 0%N = 0%N).
    { intros m [-> | ->].
      - unfold z, zeros2.
        destruct (Nat.lt_ge_cases row (fst (featmap_size lv))) as [Hr|Hr].
        + rewrite (nth_indep _ [] (repeat 0%N (snd (featmap_size lv))))
            by (rewrite repeat_length; exact Hr).
          rewrite nth_repeat_default. apply nth_repeat_default.
        + rewrite (nth_overflow (repeat (repeat 0%N (snd (featmap_size lv)))
                                        (fst (featmap_size lv))) [])
            by (rewrite repeat_length; exact Hr).
          now destruct col.
      - now destruct row, col. }
    apply Hz.
    destruct (Nat.lt_ge_cases k (num_grid lv * num_grid lv)) as [Hk|Hk].
    + left. rewrite (nth_indep _ [] z) by (rewrite repeat_length; exact Hk).
      apply nth_repeat_default.
    + right. apply nth_overflow. now rewrite repeat_length.
Qed.

(** *** Slices and single writes *)

Lemma map_range_from_length {A : Type} (f : A -> A) (lo hi k0 : nat)
    (l : list A) :
  length (map_range_from f lo hi k0 l) = length l.
Proof.
  revert k0. induction l as [|x l IH]; intros k0; simpl; [reflexivity|].
  now rewrite IH.
Qed.




Lemma set_nth_length {A : Type} (l : list A) (i : nat) (x : A) :
  (i < length l)%nat -> length (set_nth l i x) = length l.
Proof.
  intros Hi. unfold set_nth. rewrite length_app, length_firstn.
  cbn [length]. rewrite length_skipn. lia.
Qed.





(** *** Mass centers and grid cells *)

Lemma zsum_nonneg (l : list Z) :
  Forall (fun z => (0 <= z)%Z) l -> (0 <= zsum l)%Z.
Proof.
  unfold zsum. induction 1 as [|z l Hz _ IH]; simpl; lia.
Qed.

Lemma row_sum_nonneg (row : list N) : (0 <= row_sum row)%Z.
Proof.
  unfold row_sum. apply zsum_nonneg, Forall_map, Forall_forall.
  intros n _. lia.
Qed.

Lemma index_weighted_sum_nonneg (l : list Z) :
  Forall (fun z => (0 <= z)%Z) l -> (0 <= index_weighted_sum l)%Z.
Proof.
  intros Hall. unfold index_weighted_sum.
  apply zsum_nonneg, Forall_map, Forall_forall.
  intros [k z] Hin. simpl. apply in_combine_r in Hin.
  rewrite Forall_forall in Hall. specialize (Hall z Hin). lia.
Qed.

Lemma moment_h_nonneg (m : mask) : (0 <= moment_h m)%Z.
Proof.
  unfold moment_h. apply index_weighted_sum_nonneg, Forall_map, Forall_forall.
  intros row _. apply row_sum_nonneg.
Qed.

Lemma moment_w_nonneg (m : mask) : (0 <= moment_w m)%Z.
Proof.
  unfold moment_w. apply zsum_nonneg, Forall_map, Forall_forall.
  intros row _. apply index_weighted_sum_nonneg, Forall_map, Forall_forall.
  intros n _. lia.
Qed.

Lemma clamp_min_pos (x c : Q) : 0 < c -> 0 < clamp_min x c.
Proof.
  intros Hc. unfold clamp_min. destruct (Qltb x c) eqn:E; [exact Hc|].
  apply Qltb_false in E. eapply Qlt_le_trans; eassumption.
Qed.

Lemma Qdiv_nonneg (a b : Q) : 0 <= a -> 0 <= b -> 0 <= a / b.
Proof.
  intros Ha Hb. unfold Qdiv.
  apply Qmult_le_0_compat; [exact Ha | apply Qinv_le_0_compat, Hb].
Qed.

Lemma inject_Z_nonneg (z : Z) : (0 <= z)%Z -> 0 <= inject_Z z.
Proof. intros Hz. change 0 with (inject_Z 0). now rewrite <- Zle_Qle. Qed.

(** The mass center has non-negative coordinates. *)
Lemma center_of_mass_nonneg (m : mask) :
  0 <= fst (center_of_mass m) /\ 0 <= snd (center_of_mass m).
Proof.
  unfold center_of_mass. cbv zeta. simpl.
  assert (Hn : 0 <= clamp_min (inject_Z (mask_sum m)) (1 # 1000000))
    by (apply Qlt_le_weak, clamp_min_pos; reflexivity).
  split; apply Qdiv_nonneg; try exact Hn; apply inject_Z_nonneg.
  - apply moment_h_nonneg.
  - apply moment_w_nonneg.
Qed.



(** *** Where the mass center lies *)

Lemma weighted_sum_from_le (l : list Z) (s : nat) :
  Forall (fun z => (0 <= z)%Z) l ->
  (zsum (map (fun p : nat * Z => (Z.of_nat (fst p) * snd p)%Z)
             (combine (seq s (length l)) l))
   <= (Z.of_nat s + Z.of_nat (length l) - 1) * zsum l)%Z.
Proof.
  intros Hall. revert s. induction Hall as [|z l Hz Hall IH]; intros s.
  - simpl. lia.
  - cbn [length seq combine map zsum fold_right fst snd].
    specialize (IH (S s)). unfold zsum in *.
    pose proof (zsum_nonneg l Hall) as Hs. unfold zsum in Hs.
    nia.
Qed.

Lemma index_weighted_sum_le (l : list Z) :
  Forall (fun z => (0 <= z)%Z) l ->
  (index_weighted_sum l <= (Z.of_nat (length l) - 1) * zsum l)%Z.
Proof.
  intros Hall. unfold index_weighted_sum.
  pose proof (weighted_sum_from_le l 0 Hall) as H. simpl in H. lia.
Qed.

Lemma moment_h_le (m : mask) :
  (moment_h m <= (Z.of_nat (length m) - 1) * mask_sum m)%Z.
Proof.
  unfold moment_h, mask_sum.
  pose proof (index_weighted_sum_le (map row_sum m)) as H.
  rewrite length_map in H. apply H.
  apply Forall_map, Forall_forall. intros row _. apply row_sum_nonneg.
Qed.

Lemma moment_w_le (m : mask) (w : nat) :
  Forall (fun row => length row = w) m ->
  (moment_w m <= (Z.of_nat w - 1) * mask_sum m)%Z.
Proof.
  unfold moment_w, mask_sum. induction 1 as [|row m Hrow _ IH]; simpl.
  - lia.
  - pose proof (index_weighted_sum_le (map Z.of_N row)) as H.
    rewrite length_map, Hrow in H. unfold row_sum at 1.
    assert (Forall (fun z => (0 <= z)%Z) (map Z.of_N row))
      by (apply Forall_map, Forall_forall; intros n _; lia).
    specialize (H H0). unfold zsum in *. lia.
Qed.

Lemma zsum_zero (l : list Z) :
  Forall (fun z => (0 <= z)%Z) l -> zsum l = 0%Z -> Forall (fun z => z = 0%Z) l.
Proof.
  unfold zsum. induction 1 as [|z l Hz Hall IH]; intros Hs; [constructor|].
  simpl in Hs. pose proof (zsum_nonneg l Hall) as Hn. unfold zsum in Hn.
  constructor; [lia | apply IH; lia].
Qed.

Lemma weighted_sum_of_zeros (l : list Z) (s : nat) :
  Forall (fun z => z = 0%Z) l ->
  zsum (map (fun p : nat * Z => (Z.of_nat (fst p) * snd p)%Z)
            (combine (seq s (length l)) l)) = 0%Z.
Proof.
  intros Hall. revert s. induction Hall as [|z l -> _ IH]; intros s;
    [reflexivity|].
  cbn [length seq combine map zsum fold_right fst snd].
  specialize (IH (S s)). unfold zsum in IH. lia.
Qed.

Lemma moments_of_empty_mask (m : mask) :
  mask_sum m = 0%Z -> moment_h m = 0%Z /\ moment_w m = 0%Z.
Proof.
  intros Hs. unfold mask_sum in Hs.
  assert (Hrows : Forall (fun z => z = 0%Z) (map row_sum m)).
  { apply zsum_zero; [|exact Hs].
    apply Forall_map, Forall_forall. intros row _. apply row_sum_nonneg. }
  split.
  - unfold moment_h, index_weighted_sum. now apply weighted_sum_of_zeros.
  - unfold moment_w. rewrite Forall_map in Hrows. clear Hs.
    induction Hrows as [|row m Hrow _ IH]; [reflexivity|].
    cbn [map]. unfold zsum in *. cbn [fold_right]. rewrite IH.
    unfold index_weighted_sum.
    rewrite weighted_sum_of_zeros; [reflexivity|].
    apply zsum_zero; [|exact Hrow].
    apply Forall_map, Forall_forall. intros n _. lia.
Qed.

Lemma clamp_min_of_count (s : Z) :
  (0 < s)%Z -> clamp_min (inject_Z s) (1 # 1000000) = inject_Z s.
Proof.
  intros Hs. unfold clamp_min.
  destruct (Qltb (inject_Z s) (1 # 1000000)) eqn:E; [|reflexivity].
  apply Qltb_true in E. exfalso.
  assert (H1 : inject_Z 1 <= inject_Z s) by (rewrite <- Zle_Qle; lia).
  apply (Qlt_irrefl (inject_Z s)).
  eapply Qlt_le_trans; [exact E|].
  eapply Qle_trans; [|exact H1]. discriminate.
Qed.

Lemma Qdiv_le_bound (a b s : Z) :
  (0 < s)%Z -> (a <= b * s)%Z -> inject_Z a / inject_Z s <= inject_Z b.
Proof.
  intros Hs Hab.
  apply Qle_shift_div_r.
  - change 0 with (inject_Z 0). now rewrite <- Zlt_Qlt.
  - rewrite <- inject_Z_mult, <- Zle_Qle. exact Hab.
Qed.

(** With a positive sum the mass center is at most the last row and the
    last column. *)
Lemma center_of_mass_upper (m : mask) (w : nat) :
  Forall (fun row => length row = w) m ->
  (0 < mask_sum m)%Z ->
  fst (center_of_mass m) <= inject_Z (Z.of_nat (length m) - 1) /\
  snd (center_of_mass m) <= inject_Z (Z.of_nat w - 1).
Proof.
  intros Hrect Hpos.
  split; unfold center_of_mass; cbn [fst snd];
    rewrite (clamp_min_of_count _ Hpos); apply Qdiv_le_bound; try exact Hpos.
  - apply moment_h_le.
  - apply moment_w_le. exact Hrect.
Qed.

(** X16. The mass center lies on the mask. For a mask of [h] rows of [w]
    pixels with a positive sum, [center_of_mass] gives a row coordinate in
    [0, h - 1] and a column coordinate in [0, w - 1]; for a mask that is zero
    everywhere the clamped normalizer makes it (0, 0). *)
Theorem center_of_mass_inside (m : mask) (w : nat) :
  Forall (fun row => length row = w) m ->
  (0 <= mask_sum m)%Z /\
  if (0 <? mask_sum m)%Z
  then 0 <= fst (center_of_mass m) /\
       fst (center_of_mass m) <= inject_Z (Z.of_nat (length m) - 1) /\
       0 <= snd (center_of_mass m) /\
       snd (center_of_mass m) <= inject_Z (Z.of_nat w - 1)
  else fst (center_of_mass m) == 0 /\ snd (center_of_mass m) == 0.
Proof.
  intros Hrect.
  assert (Hnn : (0 <= mask_sum m)%Z).
  { unfold mask_sum. apply zsum_nonneg, Forall_map, Forall_forall.
    intros row _. apply row_sum_nonneg. }
  split; [exact Hnn|].
  destruct (Z.ltb_spec 0 (mask_sum m)) as [Hpos|Hzero].
  - pose proof (center_of_mass_nonneg m) as [Hh Hw].
    pose proof (center_of_mass_upper m w Hrect Hpos) as [Hh' Hw']. auto.
  - assert (Hs : mask_sum m = 0%Z) by lia.
    destruct (moments_of_empty_mask m Hs) as [Eh Ew].
    unfold center_of_mass. cbn [fst snd]. rewrite Eh, Ew.
    split; unfold Qdiv; apply Qmult_0_l.
Qed.

(** X16, witness: the 8 x 8 blob of [blob_mask], whose mass center is
    (7.5, 9.5), and the empty 2 x 2 mask. *)
Lemma center_of_mass_inside_witness :
  (0 <= fst (center_of_mass blob_mask) /\
   fst (center_of_mass blob_mask) <= inject_Z (16 - 1) /\
   0 <= snd (center_of_mass blob_mask) /\
   snd (center_of_mass blob_mask) <= inject_Z (16 - 1)) /\
  (fst (center_of_mass (zeros2 2 2)) == 0 /\
   snd (center_of_mass (zeros2 2 2)) == 0).
Proof.
  split.
  - apply (center_of_mass_inside blob_mask 16).
    repeat constructor.
  - apply (center_of_mass_inside (zeros2 2 2) 2).
    repeat constructor.
Defined.


Section Torch.

Variable sqrt : Q -> Q.
Variable imrescale : mask -> Q -> mask.
Variable tensor_sub : Q -> Q -> Q.
Variable tensor_add : Q -> Q -> Q.
Variable true_divide : Q -> Q -> Q.
Variable floor_divide : Q -> Q -> Z.

(** C7, at the failing input: without any ground truth the method raises
    on its first statement, [gt_labels[0]], whatever the head and the
    feature-map sizes. *)
Theorem get_targets_single_without_ground_truth (self : t)
    (featmap_sizes : list (nat * nat)) :
  _get_targets_single sqrt imrescale tensor_sub tensor_add true_divide
    floor_divide self [] [] [] featmap_sizes
  = Raise IndexError.
Proof. reflexivity. Qed.

(** A level in whose scale range no ground truth falls keeps its initial
    targets. *)
Lemma level_without_hits (self : t) (first_size : nat * nat)
    (gt_bboxes : list Box) (gt_labels : list Z) (gt_masks : list mask)
    (lv : level) :
  hit_inds lv (map (gt_area sqrt) gt_bboxes) = [] ->
  level_targets sqrt imrescale tensor_sub tensor_add true_divide floor_divide
    self first_size gt_bboxes gt_labels gt_masks lv
  = Ok (initial_targets self lv).
Proof. intros H. unfold level_targets. now rewrite H. Qed.

(** With at least one ground truth, a call that returns gives, for every
    level in whose scale range no ground truth falls, an all-background
    label grid, no positive cell and zero mask targets. *)
Lemma level_out_of_range_is_background (self : t) (gt_bboxes : list Box)
    (gt_labels : list Z) (gt_masks : list mask)
    (featmap_sizes : list (nat * nat)) (out : list targets) (k : nat)
    (lv : level) :
  _get_targets_single sqrt imrescale tensor_sub tensor_add true_divide
    floor_divide self gt_bboxes gt_labels gt_masks featmap_sizes = Ok out ->
  nth_error (zip_levels (scale_ranges self) (strides self) featmap_sizes
                        (num_grids self)) k = Some lv ->
  hit_inds lv (map (gt_area sqrt) gt_bboxes) = [] ->
  exists tg, nth_error out k = Some tg /\ all_background self lv tg.
Proof.
  intros Hout Hlv Hhit. unfold _get_targets_single in Hout.
  destruct gt_labels as [|l ls]; [discriminate|].
  destruct (mapM_ok_nth _ _ _ _ _ Hout Hlv) as (tg & Hk & Htg).
  rewrite level_without_hits in Htg by exact Hhit.
  injection Htg as <-. exists (initial_targets self lv).
  split; [exact Hk | apply initial_targets_all_background].
Qed.



(** Whatever the float operations give, a region that is computed lies in
    the grid and within one cell of the center cell. *)
Lemma cell_region_bounds (g : nat) (up : Q * Q) (ins : instance)
    (top down lft rgt : Z) :
  cell_region tensor_sub tensor_add true_divide floor_divide g up ins
  = Ok (top, down, lft, rgt) ->
  exists coord_h coord_w,
    grid_coord true_divide floor_divide g
      (fst (center_of_mass (gt_mask ins))) (fst up) = Ok coord_h /\
    grid_coord true_divide floor_divide g
      (snd (center_of_mass (gt_mask ins))) (snd up) = Ok coord_w /\
    (0 <= top /\ down <= Z.of_nat g - 1 /\
     coord_h - 1 <= top /\ down <= coord_h + 1)%Z /\
    (0 <= lft /\ rgt <= Z.of_nat g - 1 /\
     coord_w - 1 <= lft /\ rgt <= coord_w + 1)%Z.
Proof.
  unfold cell_region.
  destruct (center_of_mass (gt_mask ins)) as [ch cw]. cbn [fst snd].
  destruct (grid_coord _ _ g cw (snd up)) as [coord_w|e]; [|discriminate].
  rewrite bind_ok.
  destruct (grid_coord _ _ g ch (fst up)) as [coord_h|e]; [|discriminate].
  rewrite bind_ok.
  destruct (grid_coord _ _ g (tensor_sub ch _) _) as [t0|e]; [|discriminate].
  rewrite bind_ok.
  destruct (grid_coord _ _ g (tensor_add ch _) _) as [d0|e]; [|discriminate].
  rewrite bind_ok.
  destruct (grid_coord _ _ g (tensor_sub cw _) _) as [l0|e]; [|discriminate].
  rewrite bind_ok.
  destruct (grid_coord _ _ g (tensor_add cw _) _) as [r0|e]; [|discriminate].
  rewrite bind_ok.
  intros H. injection H as <- <- <- <-.
  exists coord_h, coord_w. split; [reflexivity|]. split; [reflexivity|]. lia.
Qed.




End Torch.







Section Instances.

Variable sqrt : Q -> Q.
Variable imrescale : mask -> Q -> mask.
Variable tensor_sub : Q -> Q -> Q.
Variable tensor_add : Q -> Q -> Q.
Variable true_divide : Q -> Q -> Q.
Variable floor_divide : Q -> Q -> Z.

Lemma hit_inds_in_range (lv : level) (areas : list Q) (i : nat) :
  In i (hit_inds lv areas) -> (i < length areas)%nat.
Proof.
  unfold hit_inds. intros Hin. apply in_map_iff in Hin.
  destruct Hin as ([j a] & <- & Hin). apply filter_In in Hin.
  destruct Hin as [Hin _]. apply in_combine_l in Hin. apply in_seq in Hin.
  simpl. lia.
Qed.

Lemma skip_invalid_instances (lv : level) (up : Q * Q) (tg : targets)
    (hits : list instance) :
  Forall (fun ins => valid_mask_flag ins = false) hits ->
  foldM (add_instance imrescale tensor_sub tensor_add true_divide
                      floor_divide lv up) tg hits
  = Ok tg.
Proof.
  induction 1 as [|ins hits Hins _ IH]; [reflexivity|].
  cbn [foldM]. unfold add_instance at 1. rewrite Hins. cbn [negb].
  rewrite bind_ok. exact IH.
Qed.

(** X18. Ground truths with empty masks leave no trace. With a box, a
    label and a mask per ground truth (at least one), if on every level each
    ground truth in the level's scale range has a mask that sums to zero (in
    particular if no ground truth is in range), the call returns the initial
    targets of every level: all labels background, no positive cell, zero
    mask targets. *)
Theorem targets_without_valid_instance (self : t) (gt_bboxes : list Box)
    (gt_labels : list Z) (gt_masks : list mask)
    (featmap_sizes : list (nat * nat)) :
  gt_labels <> [] ->
  length gt_labels = length gt_bboxes ->
  length gt_masks = length gt_bboxes ->
  let levels := zip_levels (scale_ranges self) (strides self) featmap_sizes
                           (num_grids self) in
  (forall lv i, In lv levels ->
     In i (hit_inds lv (map (gt_area sqrt) gt_bboxes)) ->
     mask_sum (nth i gt_masks []) = 0%Z) ->
  _get_targets_single sqrt imrescale tensor_sub tensor_add true_divide
    floor_divide self gt_bboxes gt_labels gt_masks
    featmap_sizes
  = Ok (map (initial_targets self) levels) /\
  forall lv, In lv levels -> all_background self lv (initial_targets self lv).
Proof.
  intros Hne Hl Hm levels Hempty.
  split; [|intros lv _; apply initial_targets_all_background].
  unfold _get_targets_single. destruct gt_labels as [|l0 ls]; [congruence|].
  fold levels. apply mapM_total. intros lv Hlv. unfold level_targets.
  destruct (hit_inds lv (map (gt_area sqrt) gt_bboxes)) as [|i0 inds] eqn:Eh;
    [reflexivity|].
  rewrite (mapM_total _ (fun i => instance_of self (nth i gt_bboxes (mkBox 0 0 0 0))
                                    (nth i (l0 :: ls) 0%Z) (nth i gt_masks []))).
  - rewrite bind_ok. apply skip_invalid_instances.
    apply Forall_map, Forall_forall. intros i Hi.
    unfold instance_of. cbn [valid_mask_flag].
    rewrite (Hempty lv i Hlv) by (rewrite Eh; exact Hi). reflexivity.
  - intros i Hi. rewrite <- Eh in Hi. apply hit_inds_in_range in Hi.
    rewrite length_map in Hi. unfold hit_instance, getitem.
    rewrite (nth_error_nth' gt_bboxes (mkBox 0 0 0 0)) by exact Hi.
    rewrite (nth_error_nth' (l0 :: ls) 0%Z) by (rewrite Hl; exact Hi).
    rewrite (nth_error_nth' gt_masks []) by (rewrite Hm; exact Hi).
    reflexivity.
Qed.

End Instances.

(** X18, witness: the blob's box with an empty mask. *)
Lemma targets_without_valid_instance_witness :
  _get_targets_single AnchorGenerator.sqrt_q subsample Qminus Qplus Qdiv
    floor_divide_q one_level_head
    [blob_box] [3%Z] [zeros2 16 16] [(4, 4)%nat]
  = Ok [initial_targets one_level_head blob_level] /\
  forall lv, In lv [blob_level] ->
    all_background one_level_head lv (initial_targets one_level_head lv).
Proof.
  apply (targets_without_valid_instance AnchorGenerator.sqrt_q subsample
           Qminus Qplus Qdiv floor_divide_q
           one_level_head [blob_box] [3%Z] [zeros2 16 16] [(4, 4)%nat]).
  - discriminate.
  - reflexivity.
  - reflexivity.
  - intros lv i Hlv Hi. simpl in Hlv. destruct Hlv as [<-|[]].
    vm_compute in Hi. destruct Hi as [<-|[]]. reflexivity.
Defined.

(** *** The shapes of the targets *)

Lemma norm_index_ok (n : nat) (i : Z) (k : nat) :
  norm_index n i = Ok k -> (k < n)%nat.
Proof.
  unfold norm_index.
  destruct ((_ <? 0)%Z || (Z.of_nat n <=? _)%Z) eqn:E; [discriminate|].
  intros H. injection H as <-. apply orb_false_iff in E.
  destruct E as [E1 E2]. apply Z.ltb_ge in E1. apply Z.leb_gt in E2. lia.
Qed.

Lemma initial_targets_shaped (self : t) (lv : level) :
  grid_shaped (num_grid lv) (initial_targets self lv).
Proof.
  unfold grid_shaped, initial_targets. cbn [labels pos_mask mask_target].
  rewrite !repeat_length. repeat split.
  apply Forall_forall. intros row Hrow. apply repeat_spec in Hrow.
  subst row. apply repeat_length.
Qed.

Lemma map_range_from_Forall {A : Type} (P : A -> Prop) (f : A -> A)
    (lo hi k0 : nat) (l : list A) :
  (forall x, P x -> P (f x)) -> Forall P l ->
  Forall P (map_range_from f lo hi k0 l).
Proof.
  intros Hf Hall. revert k0.
  induction Hall as [|x l Hx _ IH]; intros k0; simpl; constructor.
  - destruct (_ && _); [apply Hf|]; exact Hx.
  - apply IH.
Qed.

Lemma fill_slice2_shape (g : nat) (grid : list (list Z)) (r0 r1 c0 c1 v : Z) :
  length grid = g -> Forall (fun row => length row = g) grid ->
  length (fill_slice2 g grid r0 r1 c0 c1 v) = g /\
  Forall (fun row => length row = g) (fill_slice2 g grid r0 r1 c0 c1 v).
Proof.
  intros Hlen Hrows. unfold fill_slice2.
  split; [now rewrite map_range_from_length|].
  apply map_range_from_Forall; [|exact Hrows].
  intros row Hrow. now rewrite map_range_from_length.
Qed.

Section Shapes.

Variable sqrt : Q -> Q.
Variable imrescale : mask -> Q -> mask.
Variable tensor_sub : Q -> Q -> Q.
Variable tensor_add : Q -> Q -> Q.
Variable true_divide : Q -> Q -> Q.
Variable floor_divide : Q -> Q -> Z.

Lemma write_cell_shape (lv : level) (rescaled : mask) (tg tg' : targets)
    (ij : Z * Z) :
  grid_shaped (num_grid lv) tg ->
  write_cell lv rescaled tg ij = Ok tg' ->
  grid_shaped (num_grid lv) tg'.
Proof.
  intros (Hl & Hr & Hp & Hm) H. unfold write_cell in H.
  destruct (norm_index _ _) as [k|e] eqn:Ek; [|discriminate].
  apply norm_index_ok in Ek. rewrite bind_ok in H.
  destruct (nth_error (mask_target tg) k) as [slot|]; [|discriminate].
  rewrite bind_ok in H.
  destruct (paste _ _ slot rescaled) as [slot'|e]; [|discriminate].
  rewrite bind_ok in H. injection H as <-.
  unfold grid_shaped. cbn [labels pos_mask mask_target].
  rewrite !set_nth_length by lia. auto.
Qed.

Lemma write_cells_shape (lv : level) (rescaled : mask)
    (cells : list (Z * Z)) (tg tg' : targets) :
  grid_shaped (num_grid lv) tg ->
  foldM (write_cell lv rescaled) tg cells = Ok tg' ->
  grid_shaped (num_grid lv) tg'.
Proof.
  revert tg. induction cells as [|ij cells IH]; intros tg Hs H.
  - injection H as <-. exact Hs.
  - cbn [foldM] in H.
    destruct (write_cell lv rescaled tg ij) as [tg1|e] eqn:E; [|discriminate].
    rewrite bind_ok in H. apply (IH tg1); [|exact H].
    eapply write_cell_shape; eassumption.
Qed.

Lemma add_instance_shape (lv : level) (up : Q * Q) (tg tg' : targets)
    (ins : instance) :
  grid_shaped (num_grid lv) tg ->
  add_instance imrescale tensor_sub tensor_add true_divide floor_divide lv up
               tg ins = Ok tg' ->
  grid_shaped (num_grid lv) tg'.
Proof.
  intros Hs H. unfold add_instance in H.
  destruct (negb (valid_mask_flag ins)); [injection H as <-; exact Hs|].
  destruct (cell_region _ _ _ _ _ up ins) as [[[[top down] lft] rgt]|e];
    [|discriminate].
  rewrite bind_ok in H.
  destruct (Qeq_bool (stride lv / 2) 0); [discriminate|].
  eapply write_cells_shape; [|exact H].
  destruct Hs as (Hl & Hr & Hp & Hm).
  destruct (fill_slice2_shape (num_grid lv) (labels tg) top (down + 1) lft
              (rgt + 1) (gt_label ins) Hl Hr) as [Hl' Hr'].
  unfold grid_shaped. cbn [labels pos_mask mask_target]. auto.
Qed.

Lemma level_targets_shape (self : t) (first_size : nat * nat)
    (gt_bboxes : list Box) (gt_labels : list Z) (gt_masks : list mask)
    (lv : level) (tg : targets) :
  level_targets sqrt imrescale tensor_sub tensor_add true_divide floor_divide
    self first_size gt_bboxes gt_labels gt_masks lv
  = Ok tg ->
  grid_shaped (num_grid lv) tg.
Proof.
  unfold level_targets.
  destruct (hit_inds lv _) as [|i inds].
  - intros H. injection H as <-. apply initial_targets_shaped.
  - destruct (mapM _ (i :: inds)) as [hits|e]; [|discriminate].
    rewrite bind_ok.
    generalize (initial_targets_shaped self lv).
    generalize (initial_targets self lv) as tg0.
    induction hits as [|ins hits IH]; intros tg0 Hs H.
    + injection H as <-. exact Hs.
    + cbn [foldM] in H.
      destruct (add_instance imrescale tensor_sub tensor_add true_divide
                             floor_divide lv _ tg0 ins) as [tg1|e] eqn:E;
        [|discriminate].
      rewrite bind_ok in H. apply (IH tg1); [|exact H].
      eapply add_instance_shape; eassumption.
Qed.

Lemma zip_levels_length (ranges : list (Q * Q)) (strides : list Q)
    (sizes : list (nat * nat)) (grids : list nat) :
  length (zip_levels ranges strides sizes grids)
  = Nat.min (Nat.min (length ranges) (length strides))
            (Nat.min (length sizes) (length grids)).
Proof.
  revert strides sizes grids.
  induction ranges as [|[lo hi] ranges IH]; intros strides sizes grids;
    [reflexivity|].
  destruct strides as [|s strides]; [reflexivity|].
  destruct sizes as [|sz sizes]; [simpl; lia|].
  destruct grids as [|g grids]; [simpl; lia|].
  simpl. rewrite IH. reflexivity.
Qed.

Lemma zip_levels_nth (ranges : list (Q * Q)) (strides : list Q)
    (sizes : list (nat * nat)) (grids : list nat) (k : nat) (lv : level) :
  nth_error (zip_levels ranges strides sizes grids) k = Some lv ->
  nth_error ranges k = Some (lower_bound lv, upper_bound lv) /\
  nth_error strides k = Some (stride lv) /\
  nth_error sizes k = Some (featmap_size lv) /\
  nth_error grids k = Some (num_grid lv).
Proof.
  revert strides sizes grids k.
  induction ranges as [|[lo hi] ranges IH]; intros strides sizes grids k H.
  - destruct k; discriminate.
  - destruct strides as [|s strides]; [destruct k; discriminate|].
    destruct sizes as [|sz sizes]; [destruct k; discriminate|].
    destruct grids as [|g grids]; [destruct k; discriminate|].
    destruct k as [|k]; simpl in H.
    + injection H as <-. simpl. auto.
    + apply IH in H. exact H.
Qed.

(** X19. The shapes of the targets. Whenever [_get_targets_single]
    returns, it returns one target per level of the zip of [scale_ranges],
    [strides], [featmap_sizes] and [num_grids] (as many as the shortest of
    the four, each level taking the entries of its position), and the
    target of a level with [num_grid = g] has a label grid of g rows of g
    labels, g * g entries in [pos_mask] and g * g mask targets. *)
Theorem targets_have_grid_shape (self : t) (gt_bboxes : list Box)
    (gt_labels : list Z) (gt_masks : list mask)
    (featmap_sizes : list (nat * nat)) (out : list targets) :
  _get_targets_single sqrt imrescale tensor_sub tensor_add true_divide
    floor_divide self gt_bboxes gt_labels gt_masks
    featmap_sizes = Ok out ->
  length out
  = Nat.min (Nat.min (length (scale_ranges self)) (length (strides self)))
            (Nat.min (length featmap_sizes) (length (num_grids self))) /\
  forall k tg, nth_error out k = Some tg ->
    exists g,
      nth_error (num_grids self) k = Some g /\ grid_shaped g tg.
Proof.
  intros H. unfold _get_targets_single in H.
  destruct gt_labels as [|l0 ls]; [discriminate|].
  pose proof (mapM_ok_length _ _ _ H) as Hlen.
  rewrite zip_levels_length in Hlen. split; [exact Hlen|].
  intros k tg Hk.
  destruct (nth_error (zip_levels (scale_ranges self) (strides self)
                         featmap_sizes (num_grids self)) k) as [lv|] eqn:Elv.
  - destruct (mapM_ok_nth _ _ _ _ _ H Elv) as (tg' & Hk' & Htg).
    assert (tg' = tg) by congruence. subst tg'.
    exists (num_grid lv). split.
    + apply zip_levels_nth in Elv. tauto.
    + eapply level_targets_shape. exact Htg.
  - apply nth_error_None in Elv. rewrite zip_levels_length in Elv.
    assert (nth_error out k <> None) by congruence.
    apply nth_error_Some in H0. lia.
Qed.

End Shapes.

(** X19, witness: the blob on its one level. *)
Lemma targets_have_grid_shape_witness :
  exists out,
    _get_targets_single AnchorGenerator.sqrt_q subsample Qminus Qplus Qdiv
      floor_divide_q one_level_head
      [blob_box] [3%Z] [blob_mask] [(4, 4)%nat] = Ok out /\
    length out = 1%nat /\
    forall k tg, nth_error out k = Some tg ->
      exists g,
        nth_error (num_grids one_level_head) k = Some g /\ grid_shaped g tg.
Proof.
  destruct (_get_targets_single AnchorGenerator.sqrt_q subsample Qminus
              Qplus Qdiv floor_divide_q one_level_head
              [blob_box] [3%Z] [blob_mask] [(4, 4)%nat]) as [out|e] eqn:E.
  - exists out. split; [reflexivity|].
    exact (targets_have_grid_shape AnchorGenerator.sqrt_q subsample Qminus
             Qplus Qdiv floor_divide_q
             one_level_head [blob_box] [3%Z] [blob_mask] [(4, 4)%nat] out E).
  - vm_compute in E. discriminate.
Defined.

End SOLOHeadFacts.
